(** * void-indexing: a shallow embedding of the retrieval core

    The development follows the TypeScript sources of the library:

    - [utils/cancellation.ts]      cooperative cancellation tokens
    - [context/contextKey.ts]      [Context], [ContextKeyService], [ContextKey]
    - [index/tfIdf.ts]             [TfIdfCalculator]
    - [chunking/chunkingStrategy.ts]  [FixedSizeChunkingStrategy]
    - [search/semanticSearch.ts]   [SemanticSearchEngine]
    - [storage/storageAdapter.ts]  [InMemoryStorageAdapter]
    - [prompts/promptBuilder.ts]   [PromptBuilder]
    - [ranking/contextRanker.ts]   [ContextRanker]
    - [voidIndexing.ts]            the [VoidIndexing] facade

    Conventions of the embedding.

    - A JavaScript [number] that carries a score, a weight or a vector
      component is a real number ([R]); rounding, NaN and the infinities of
      IEEE arithmetic are outside the model.  What is stated about such
      numbers is therefore what rounding to the nearest double keeps: the
      order of returned scores, a threshold that every returned score has
      passed, bounds that hold term by term, and values that are computed
      exactly (a constant, a sum of products with the factor 0, a number
      divided by itself).  Values that are exact only in the reals (the
      similarity of a vector with itself, weights adding up to 1, scores
      adding up to 1) are not stated.
      Numbers that count things or index into strings are integers ([Z]).
    - A JavaScript string is a [string] of 8-bit characters; the character
      classes of the regular expressions are the ASCII ones.
    - A [Map] that the code iterates is an association list in insertion
      order ([JsMap]); a [Map] or object that is only read and written by key
      is a [gmap].
    - An [async] function is its synchronous body: a call observes the flag of
      its cancellation token as it was when the call started.
    - A call either returns, throws, or (for the one loop that has no bound)
      does not return: see [Result].  The lookups along the parents of a
      context, which call themselves without end on a cycle of parents,
      return an [option], with [None] for the lookup that does not return. *)

From Stdlib Require Import ZArith List String Ascii Reals Lra Lia Bool.
From Stdlib Require Import HexadecimalString DecimalString Sorted Permutation.
From stdpp Require Import gmap strings list fin_maps.

Open Scope Z_scope.

(* ===================================================================== *)
(** * Part I: the program                                                 *)
(* ===================================================================== *)

(** ** Outcomes of a call *)

Inductive Result (A : Type) : Type :=
| Ok (a : A)
| Throw (msg : string)
| NoReturn.
Arguments Ok {A} a.
Arguments Throw {A} msg.
Arguments NoReturn {A}.

Definition bind {A B : Type} (r : Result A) (k : A → Result B) : Result B :=
  match r with
  | Ok a => k a
  | Throw msg => Throw msg
  | NoReturn => NoReturn
  end.

Notation "'let*' x ':=' r 'in' k" := (bind r (fun x => k))
  (at level 10, x pattern, r at level 100, k at level 200).

Fixpoint mapM {A B : Type} (f : A → Result B) (l : list A) : Result (list B) :=
  match l with
  | [] => Ok []
  | a :: l' => let* b := f a in let* bs := mapM f l' in Ok (b :: bs)
  end.

(** ** utils/cancellation.ts *)

Module Cancellation.

Record CancellationToken := { isCancellationRequested : bool }.

Definition None_ : CancellationToken := {| isCancellationRequested := false |}.
Definition Cancelled : CancellationToken := {| isCancellationRequested := true |}.

(** [token?.isCancellationRequested] for an optional token. *)
Definition requested (token : option CancellationToken) : bool :=
  match token with
  | Some t => isCancellationRequested t
  | None => false
  end.

(** [class CancellationTokenSource].  Its [_token] is [undefined], one of
    the two frozen constants, or the one [MutableToken] that the source
    creates on the first read of [token]; the flag of that object is part of
    the state, and stays so when the source lets go of the object. *)
Inductive TokenRef := NoneRef | CancelledRef | MutableRef.

Record CancellationTokenSource := mkSource {
  _token : option TokenRef;
  _isCancelled : bool
}.

Definition newCancellationTokenSource : CancellationTokenSource := mkSource None false.

(** The getter [token]. *)
Definition token (s : CancellationTokenSource) : TokenRef * CancellationTokenSource :=
  match _token s with
  | None => (MutableRef, mkSource (Some MutableRef) false)
  | Some t => (t, s)
  end.

Definition cancel (s : CancellationTokenSource) : CancellationTokenSource :=
  match _token s with
  | None => mkSource (Some CancelledRef) (_isCancelled s)
  | Some MutableRef => mkSource (_token s) (if negb (_isCancelled s) then true else _isCancelled s)
  | Some _ => s
  end.

Definition dispose (s : CancellationTokenSource) : CancellationTokenSource :=
  mkSource (Some NoneRef) (_isCancelled s).

(** [t.isCancellationRequested] for a token that the source handed out. *)
Definition readToken (t : TokenRef) (s : CancellationTokenSource) : bool :=
  match t with
  | NoneRef => false
  | CancelledRef => true
  | MutableRef => _isCancelled s
  end.

Inductive SourceCall := Token | Cancel | Dispose.

#[global] Instance SourceCall_eq_dec : EqDecision SourceCall.
Proof. solve_decision. Defined.

Definition runSource (s : CancellationTokenSource) (c : SourceCall) : CancellationTokenSource :=
  match c with
  | Token => snd (token s)
  | Cancel => cancel s
  | Dispose => dispose s
  end.

End Cancellation.

(** ** context/contextKey.ts *)

Module ContextKeys.

(** [type ContextKeyValue = string | number | boolean | string[] | undefined] *)
Inductive ContextKeyValue :=
| VString (s : string)
| VNumber (n : R)
| VBoolean (b : bool)
| VStrings (l : list string)
| VUndefined.

(** A [Context] is a JavaScript object: a child keeps a reference to its
    parent, and the service keeps references in its [_contexts] map.  The
    objects live in a store indexed by references; the service allocates
    the object of the context with id [i] at reference [i]. *)
Abbreviation ref := nat (only parsing).

Record Context := mkContext {
  id : nat;
  _value : gmap string ContextKeyValue;
  _parent : option ref
}.

(** [Context.setValue]: [this._value[key] = value; return true]. *)
Definition Context_setValue (h : gmap ref Context) (c : ref) (key : string)
    (value : ContextKeyValue) : bool * gmap ref Context :=
  (true, alter (fun o => mkContext (id o) (<[key := value]> (_value o)) (_parent o)) c h).

(** [Context.removeValue]: deletes the key when it is present. *)
Definition Context_removeValue (h : gmap ref Context) (c : ref) (key : string)
    : bool * gmap ref Context :=
  match h !! c with
  | Some o =>
      match _value o !! key with
      | Some _ =>
          (true, <[c := mkContext (id o) (delete key (_value o)) (_parent o)]> h)
      | None => (false, h)
      end
  | None => (false, h)
  end.

(** [Context.updateParent]: [this._parent = parent], for any context
    [parent]; nothing keeps the new parent from being a descendant. *)
Definition Context_updateParent (h : gmap ref Context) (c parent : ref)
    : gmap ref Context :=
  alter (fun o => mkContext (id o) (_value o) (Some parent)) c h.

(** [Context.getValue]: the own map first, then the parent chain.  The
    recursion follows object references, hence the fuel.  [Some VUndefined]
    is the JavaScript [undefined]; [None] is a lookup that has not returned
    when the fuel is used up (or that meets a reference to no object). *)
Fixpoint Context_getValue_fuel (fuel : nat) (h : gmap ref Context) (c : ref)
    (key : string) : option ContextKeyValue :=
  match fuel with
  | O => None
  | S fuel' =>
      match h !! c with
      | None => None
      | Some o =>
          match _value o !! key with
          | Some v => Some v
          | None =>
              match _parent o with
              | Some p => Context_getValue_fuel fuel' h p key
              | None => Some VUndefined
              end
          end
      end
  end.

(** After [updateParent] the parent chain can run into a cycle, and a lookup
    of a name that no context on its way binds then calls itself without
    end.  A lookup that returns visits no object twice, so it returns within
    as many calls as the store has objects ([getValue_fuel_saturated]): with
    that fuel, [None] is the lookup that does not return. *)
Definition Context_getValue (h : gmap ref Context) (c : ref) (key : string)
    : option ContextKeyValue :=
  Context_getValue_fuel (size h) h c key.

Record ContextKeyService := mkService {
  objects : gmap ref Context;
  _lastContextId : nat;
  _contexts : gmap nat ref
}.

(** The constructor creates the root context with id 1. *)
Definition newContextKeyService : ContextKeyService :=
  {| objects := {[ 1%nat := mkContext 1 ∅ None ]};
     _lastContextId := 1;
     _contexts := {[ 1%nat := 1%nat ]} |}.

Definition setContext (key : string) (value : ContextKeyValue)
    (s : ContextKeyService) : ContextKeyService :=
  match _contexts s !! 1%nat with
  | Some rootContext =>
      mkService (snd (Context_setValue (objects s) rootContext key value))
                (_lastContextId s) (_contexts s)
  | None => s
  end.

Definition removeContext (key : string) (s : ContextKeyService) : ContextKeyService :=
  match _contexts s !! 1%nat with
  | Some rootContext =>
      mkService (snd (Context_removeValue (objects s) rootContext key))
                (_lastContextId s) (_contexts s)
  | None => s
  end.

Definition getContextKeyValue (key : string) (s : ContextKeyService)
    : option ContextKeyValue :=
  match _contexts s !! 1%nat with
  | Some rootContext => Context_getValue (objects s) rootContext key
  | None => Some VUndefined
  end.

Definition getContextValuesContainer (contextId : nat) (s : ContextKeyService)
    : Result ref :=
  match _contexts s !! contextId with
  | Some result => Ok result
  | None =>
      Throw ("Unknown context: "
             +:+ DecimalString.NilZero.string_of_uint (Nat.to_uint contextId))
  end.

(** [createChildContext(parentContextId = 1)] *)
Definition createChildContext (parentContextId : option nat) (s : ContextKeyService)
    : Result (nat * ContextKeyService) :=
  let* parent := getContextValuesContainer (default 1%nat parentContextId) s in
  let id := S (_lastContextId s) in
  Ok (id, mkService (<[id := mkContext id ∅ (Some parent)]> (objects s))
                    id
                    (<[id := id]> (_contexts s))).

(** [disposeContext]: [this._contexts.delete(contextId)], nothing else. *)
Definition disposeContext (contextId : nat) (s : ContextKeyService) : ContextKeyService :=
  mkService (objects s) (_lastContextId s) (delete contextId (_contexts s)).

(** [class ContextKey]: the key and its default; the service is the state. *)
Record ContextKey := mkContextKey {
  _key : string;
  _defaultValue : ContextKeyValue
}.

Definition ContextKey_set (k : ContextKey) (value : ContextKeyValue)
    (s : ContextKeyService) : ContextKeyService :=
  setContext (_key k) value s.

Definition ContextKey_reset (k : ContextKey) (s : ContextKeyService) : ContextKeyService :=
  match _defaultValue k with
  | VUndefined => removeContext (_key k) s
  | d => setContext (_key k) d s
  end.

Definition ContextKey_get (k : ContextKey) (s : ContextKeyService)
    : option ContextKeyValue :=
  getContextKeyValue (_key k) s.

(** [createKey]: the constructor of [ContextKey] ends with [this.reset()]. *)
Definition createKey (key : string) (defaultValue : ContextKeyValue)
    (s : ContextKeyService) : ContextKey * ContextKeyService :=
  let contextKey := mkContextKey key defaultValue in
  (contextKey, ContextKey_reset contextKey s).

(** What a client can do to a service and to the contexts it handed out:
    the methods of the service and of a key, and the three public methods of
    [Context] that write, [setValue], [removeValue] and [updateParent].
    The objects of the store are the contexts that the service created; a
    context that a client would construct itself is not one of them. *)
Inductive Call :=
| CreateKey (key : string) (defaultValue : ContextKeyValue)
| KeySet (k : ContextKey) (value : ContextKeyValue)
| KeyReset (k : ContextKey)
| SetContext (key : string) (value : ContextKeyValue)
| RemoveContext (key : string)
| CreateChildContext (parentContextId : option nat)
| DisposeContext (contextId : nat)
| SetValue (c : ref) (key : string) (value : ContextKeyValue)
| RemoveValue (c : ref) (key : string)
| UpdateParent (c : ref) (parent : ref).

(** The receiver and the argument of a method of [Context] are objects of
    the store; a reference to no object stands for no call, and changes
    nothing. *)
Definition run (c : Call) (s : ContextKeyService) : Result ContextKeyService :=
  match c with
  | CreateKey key d => Ok (snd (createKey key d s))
  | KeySet k v => Ok (ContextKey_set k v s)
  | KeyReset k => Ok (ContextKey_reset k s)
  | SetContext key v => Ok (setContext key v s)
  | RemoveContext key => Ok (removeContext key s)
  | CreateChildContext p => let* r := createChildContext p s in Ok (snd r)
  | DisposeContext i => Ok (disposeContext i s)
  | SetValue c key v =>
      Ok (mkService (snd (Context_setValue (objects s) c key v))
                    (_lastContextId s) (_contexts s))
  | RemoveValue c key =>
      Ok (mkService (snd (Context_removeValue (objects s) c key))
                    (_lastContextId s) (_contexts s))
  | UpdateParent c parent =>
      match objects s !! parent with
      | Some _ =>
          Ok (mkService (Context_updateParent (objects s) c parent)
                        (_lastContextId s) (_contexts s))
      | None => Ok s
      end
  end.

(** The states a service goes through. *)
Inductive reachable : ContextKeyService → Prop :=
| reachable_new : reachable newContextKeyService
| reachable_run s c s' : reachable s → run c s = Ok s' → reachable s'.

(** [inherits h key c r]: the chain of parents from [c] leads to [r] and no
    context strictly below [r] on it binds [key] itself. *)
Inductive inherits (h : gmap ref Context) (key : string) : ref → ref → Prop :=
| inherits_here r : inherits h key r r
| inherits_up c o p r :
    h !! c = Some o → _value o !! key = None → _parent o = Some p →
    inherits h key p r → inherits h key c r.

(** [ancestor h c a]: [a] is [c] or lies on the chain of parents of [c]. *)
Inductive ancestor (h : gmap ref Context) : ref → ref → Prop :=
| ancestor_self c : ancestor h c c
| ancestor_up c o p a :
    h !! c = Some o → _parent o = Some p → ancestor h p a → ancestor h c a.

(** [rooted h c]: the chain of parents of [c] ends, at a context that has no
    parent. *)
Inductive rooted (h : gmap ref Context) : ref → Prop :=
| rooted_top c o : h !! c = Some o → _parent o = None → rooted h c
| rooted_up c o p : h !! c = Some o → _parent o = Some p → rooted h p → rooted h c.

(** [climbs h stop c n]: going up from [c], the [n]-th object is the first
    one at which [stop] holds. *)
Inductive climbs (h : gmap ref Context) (stop : Context → Prop) : ref → nat → Prop :=
| climbs_stop c o : h !! c = Some o → stop o → climbs h stop c 1
| climbs_up c o p n :
    h !! c = Some o → ¬ stop o → _parent o = Some p → climbs h stop p n →
    climbs h stop c (S n).

(** Where a lookup of [key] stops: at a context that binds [key], or at one
    without parent. *)
Definition answers (key : string) (o : Context) : Prop :=
  is_Some (_value o !! key) ∨ _parent o = None.

(** The shape of the store in every reachable state: objects sit at the
    reference that equals their id, no object is ever removed, so that every
    parent is an object of the store, the map [_contexts] only holds such
    references, and the object with id 1 is there. *)
Definition wf (s : ContextKeyService) : Prop :=
  (∀ r o, objects s !! r = Some o →
      id o = r ∧ (1 ≤ r ≤ _lastContextId s)%nat ∧
      ∀ p, _parent o = Some p → is_Some (objects s !! p)) ∧
  (∀ i r, _contexts s !! i = Some r → r = i ∧ is_Some (objects s !! r)) ∧
  is_Some (objects s !! 1%nat) ∧
  (1 ≤ _lastContextId s)%nat.

(** Every parent was created before its children: so it is as long as
    [updateParent] is not called. *)
Definition ordered (h : gmap ref Context) : Prop :=
  ∀ r o p, h !! r = Some o → _parent o = Some p → (p < r)%nat.

Definition keepsParents (c : Call) : bool :=
  match c with
  | UpdateParent _ _ => false
  | _ => true
  end.

(** Running a list of calls, stopping at the first one that throws. *)
Fixpoint runAll (cs : list Call) (s : ContextKeyService) : Result ContextKeyService :=
  match cs with
  | [] => Ok s
  | c :: cs' => let* s' := run c s in runAll cs' s'
  end.

(** A service with one child context:
    [new ContextKeyService()] followed by [createChildContext()]. *)
Definition serviceWithChild : ContextKeyService :=
  match run (CreateChildContext None) newContextKeyService with
  | Ok s => s
  | _ => newContextKeyService
  end.

(** The child of that service after [setValue('k', 'own')] on it. *)
Definition serviceWithBoundChild : ContextKeyService :=
  match run (SetValue 2%nat "k" (VString "own")) serviceWithChild with
  | Ok s => s
  | _ => serviceWithChild
  end.

(** The root of that service after [updateParent(child)]: root and child
    are each other's parent. *)
Definition serviceWithCycle : ContextKeyService :=
  match run (UpdateParent 1%nat 2%nat) serviceWithChild with
  | Ok s => s
  | _ => serviceWithChild
  end.

(** [Object.assign(target, source)] on two objects without prototype: the
    properties of [source] are written over those of [target]. *)
Definition Object_assign (target source : gmap string ContextKeyValue)
    : gmap string ContextKeyValue :=
  source ∪ target.

(** [Context.collectAllValues]: what the parent collects, overwritten by the
    context's own values.  The recursion is that of [Context.getValue],
    except that it always goes up to a context without parent. *)
Fixpoint Context_collectAllValues_fuel (fuel : nat) (h : gmap ref Context) (c : ref)
    : option (gmap string ContextKeyValue) :=
  match fuel with
  | O => None
  | S fuel' =>
      match h !! c with
      | None => None
      | Some o =>
          match _parent o with
          | Some p =>
              match Context_collectAllValues_fuel fuel' h p with
              | Some inherited => Some (Object_assign (Object_assign ∅ inherited) (_value o))
              | None => None
              end
          | None => Some (Object_assign ∅ (_value o))
          end
      end
  end.

Definition Context_collectAllValues (h : gmap ref Context) (c : ref)
    : option (gmap string ContextKeyValue) :=
  Context_collectAllValues_fuel (size h) h c.

End ContextKeys.

(** ** A [Map] in insertion order *)

Module JsMap.
Section JsMap.
Context {K V : Type} `{EqDecision K}.

Fixpoint get (k : K) (m : list (K * V)) : option V :=
  match m with
  | [] => None
  | (k', v) :: m' => if decide (k = k') then Some v else get k m'
  end.

(** [set] keeps the position of a key that is already there. *)
Fixpoint set (k : K) (v : V) (m : list (K * V)) : list (K * V) :=
  match m with
  | [] => [(k, v)]
  | (k', v') :: m' => if decide (k = k') then (k, v) :: m' else (k', v') :: set k v m'
  end.

Fixpoint delete (k : K) (m : list (K * V)) : list (K * V) :=
  match m with
  | [] => []
  | (k', v') :: m' => if decide (k = k') then m' else (k', v') :: delete k m'
  end.

Definition keys (m : list (K * V)) : list K := map fst m.

End JsMap.
End JsMap.

(** ** Strings *)

Module Str.

Definition code (c : ascii) : nat := nat_of_ascii c.

Definition isUpper (c : ascii) : bool := (65 <=? code c)%nat && (code c <=? 90)%nat.
Definition isLower (c : ascii) : bool := (97 <=? code c)%nat && (code c <=? 122)%nat.
(** [\p{Letter}] *)
Definition isLetter (c : ascii) : bool := isUpper c || isLower c.
(** [\d] *)
Definition isDigit (c : ascii) : bool := (48 <=? code c)%nat && (code c <=? 57)%nat.
(** [\w], the class that decides where [\b] matches *)
Definition isWordChar (c : ascii) : bool :=
  isLetter c || isDigit c || (code c =? 95)%nat.
(** [\s]: tab, line feed, vertical tab, form feed, carriage return, space *)
Definition isSpace (c : ascii) : bool :=
  ((9 <=? code c)%nat && (code c <=? 13)%nat) || (code c =? 32)%nat.

Definition lowerChar (c : ascii) : ascii :=
  if isUpper c then ascii_of_nat (code c + 32) else c.

Definition toLowerCase (s : string) : string :=
  string_of_list_ascii (map lowerChar (list_ascii_of_string s)).

(** [s.length] *)
Definition len (s : string) : Z := Z.of_nat (String.length s).

End Str.

(** ** index/tfIdf.ts *)

Module TfIdf.
Import Cancellation.

(** [countMapFrom]: how often each value occurs, keys in order of first
    occurrence. *)
Definition countMapFrom (values : list string) : list (string * Z) :=
  fold_left
    (fun map value => JsMap.set value (default 0 (JsMap.get value map) + 1) map)
    values [].

Record DocumentChunkEntry := mkChunkEntry {
  text : string;
  tf : list (string * Z)
}.

Record TfIdfDocument := mkDocument {
  key : string;
  textChunks : list string
}.

Record TfIdfScore := mkScore {
  score_key : string;
  score : R
}.

(** The words matched by [/\b\p{Letter}[\p{Letter}\d]{2,}\b/gu].  A match
    starts and ends at a word boundary, so it is a maximal run of word
    characters; it is made of letters and digits only, starts with a letter
    and has at least three characters.  A run that holds an underscore, or
    starts with a digit, has no match inside it: every position in it other
    than its two ends has word characters on both sides. *)
Fixpoint wordRuns (cur : list ascii) (s : list ascii) : list (list ascii) :=
  match s with
  | [] => match cur with [] => [] | _ => [rev cur] end
  | c :: rest =>
      if Str.isWordChar c then wordRuns (c :: cur) rest
      else match cur with
           | [] => wordRuns [] rest
           | _ => rev cur :: wordRuns [] rest
           end
  end.

Definition isMatch (w : list ascii) : bool :=
  match w with
  | [] => false
  | c :: rest =>
      Str.isLetter c
      && forallb (fun x => Str.isLetter x || Str.isDigit x) rest
      && (2 <=? length rest)%nat
  end.

(** [word.replace(/([a-z])([A-Z])/g, '$1 $2').split(/\s+/g)]: a word has no
    white space of its own, so the parts are the pieces between the
    lower-to-upper transitions. *)
Fixpoint camelParts (cur : list ascii) (w : list ascii) : list (list ascii) :=
  match w with
  | [] => [rev cur]
  | c :: rest =>
      match rest with
      | d :: _ =>
          if Str.isLower c && Str.isUpper d
          then rev (c :: cur) :: camelParts [] rest
          else camelParts (c :: cur) rest
      | [] => [rev (c :: cur)]
      end
  end.

(** [/\p{Letter}{3,}/gu.test(part)] *)
Fixpoint hasThreeLetters (w : list ascii) : bool :=
  match w with
  | a :: ((b :: c :: _) as rest) =>
      (Str.isLetter a && Str.isLetter b && Str.isLetter c) || hasThreeLetters rest
  | _ => false
  end.

Definition normalize (w : list ascii) : string :=
  Str.toLowerCase (string_of_list_ascii w).

Definition splitTerms (input : string) : list string :=
  flat_map
    (fun word =>
       normalize word ::
       (let parts := camelParts [] word in
        if (1 <? length parts)%nat
        then map normalize
               (filter (fun part => (2 <? length part)%nat && hasThreeLetters part) parts)
        else []))
    (filter isMatch (wordRuns [] (list_ascii_of_string input))).

Definition termFrequencies (input : string) : list (string * Z) :=
  countMapFrom (splitTerms input).

Record TfIdfCalculator := mkCalculator {
  chunkCount : Z;
  chunkOccurrences : gmap string Z;
  documents : list (string * list DocumentChunkEntry)
}.

Definition newTfIdfCalculator : TfIdfCalculator :=
  {| chunkCount := 0; chunkOccurrences := ∅; documents := [] |}.

(** The body of the innermost loop of [deleteDocument]. *)
Definition forgetTerm (occ : gmap string Z) (term : string) : gmap string Z :=
  match occ !! term with
  | Some currentOccurrences =>
      let newOccurrences := currentOccurrences - 1 in
      if newOccurrences <=? 0 then delete term occ
      else <[term := newOccurrences]> occ
  | None => occ
  end.

Definition forgetChunk (occ : gmap string Z) (chunk : DocumentChunkEntry) : gmap string Z :=
  fold_left forgetTerm (JsMap.keys (tf chunk)) occ.

Definition deleteDocument (k : string) (c : TfIdfCalculator) : TfIdfCalculator :=
  match JsMap.get k (documents c) with
  | None => c
  | Some doc =>
      {| chunkCount := chunkCount c - Z.of_nat (length doc);
         chunkOccurrences := fold_left forgetChunk doc (chunkOccurrences c);
         documents := JsMap.delete k (documents c) |}
  end.

(** The body of the innermost loop of [updateDocuments]. *)
Definition countTerm (occ : gmap string Z) (term : string) : gmap string Z :=
  <[term := default 0 (occ !! term) + 1]> occ.

Definition addChunk (acc : list DocumentChunkEntry * gmap string Z) (t : string)
    : list DocumentChunkEntry * gmap string Z :=
  let tf := termFrequencies t in
  (fst acc ++ [mkChunkEntry t tf], fold_left countTerm (JsMap.keys tf) (snd acc)).

Definition addDocument (c : TfIdfCalculator) (doc : TfIdfDocument) : TfIdfCalculator :=
  let acc := fold_left addChunk (textChunks doc) ([], chunkOccurrences c) in
  {| chunkCount := chunkCount c + Z.of_nat (length (fst acc));
     chunkOccurrences := snd acc;
     documents := JsMap.set (key doc) (fst acc) (documents c) |}.

Definition updateDocuments (docs : list TfIdfDocument) (c : TfIdfCalculator)
    : TfIdfCalculator :=
  fold_left addDocument docs
    (fold_left (fun c doc => deleteDocument (key doc) c) docs c).

Definition computeIdf (c : TfIdfCalculator) (term : string) : R :=
  let occ := default 0 (chunkOccurrences c !! term) in
  if 0 <? occ then ln ((IZR (chunkCount c) + 1) / IZR occ) else 0%R.

(** The sparse embedding is an object filled in the order of the term
    frequencies, whose keys are distinct. *)
Fixpoint computeTfidf (c : TfIdfCalculator) (termFrequencies : list (string * Z))
    : list (string * R) :=
  match termFrequencies with
  | [] => []
  | (word, occurrences) :: rest =>
      let idf := computeIdf c word in
      if Rlt_dec 0 idf
      then (word, (IZR occurrences * idf)%R) :: computeTfidf c rest
      else computeTfidf c rest
  end.

Definition computeEmbedding (c : TfIdfCalculator) (input : string) : list (string * R) :=
  computeTfidf c (termFrequencies input).

(** [computeSimilarityScore]; the idf cache is threaded through. *)
Fixpoint computeSimilarityScore (c : TfIdfCalculator) (chunk : DocumentChunkEntry)
    (queryEmbedding : list (string * R)) (idfCache : gmap string R) (sum : R)
    : R * gmap string R :=
  match queryEmbedding with
  | [] => (sum, idfCache)
  | (term, termTfidf) :: rest =>
      match JsMap.get term (tf chunk) with
      | None => computeSimilarityScore c chunk rest idfCache sum
      | Some chunkTf =>
          if chunkTf =? 0 then computeSimilarityScore c chunk rest idfCache sum
          else
            let chunkIdf := default (computeIdf c term) (idfCache !! term) in
            let idfCache' :=
              match idfCache !! term with
              | Some _ => idfCache
              | None => <[term := chunkIdf]> idfCache
              end in
            let chunkTfidf := (IZR chunkTf * chunkIdf)%R in
            computeSimilarityScore c chunk rest idfCache' (sum + chunkTfidf * termTfidf)%R
      end
  end.

(** The inner loop of [calculateScores]: one entry per chunk that scores. *)
Fixpoint scoreChunks (c : TfIdfCalculator) (k : string) (chunks : list DocumentChunkEntry)
    (embedding : list (string * R)) (idfCache : gmap string R) (scores : list TfIdfScore)
    : list TfIdfScore * gmap string R :=
  match chunks with
  | [] => (scores, idfCache)
  | chunk :: rest =>
      let r := computeSimilarityScore c chunk embedding idfCache 0%R in
      if Rgt_dec (fst r) 0
      then scoreChunks c k rest embedding (snd r) (scores ++ [mkScore k (fst r)])
      else scoreChunks c k rest embedding (snd r) scores
  end.

Fixpoint scoreDocuments (c : TfIdfCalculator) (token : CancellationToken)
    (docs : list (string * list DocumentChunkEntry))
    (embedding : list (string * R)) (idfCache : gmap string R) (scores : list TfIdfScore)
    : list TfIdfScore :=
  match docs with
  | [] => scores
  | (k, doc) :: rest =>
      if isCancellationRequested token then []
      else
        let r := scoreChunks c k doc embedding idfCache scores in
        scoreDocuments c token rest embedding (snd r) (fst r)
  end.

Definition calculateScores (query : string) (token : CancellationToken)
    (c : TfIdfCalculator) : list TfIdfScore :=
  scoreDocuments c token (documents c) (computeEmbedding c query) ∅ [].

(** The score of a chunk as §4.2 of the specification words it: the sum, over
    the terms of the query embedding that the chunk holds, of
    [tf_c(t) * IDF(t) * (tf_q(t) * IDF(t))]; and the list the specification
    describes, one entry per chunk with a positive score. *)
Definition chunkScore (c : TfIdfCalculator) (chunk : DocumentChunkEntry)
    (queryEmbedding : list (string * R)) : R :=
  fold_left
    (fun sum entry =>
       match JsMap.get (fst entry) (tf chunk) with
       | Some chunkTf =>
           if chunkTf =? 0 then sum
           else (sum + IZR chunkTf * computeIdf c (fst entry) * snd entry)%R
       | None => sum
       end)
    queryEmbedding 0%R.

Definition positiveChunkScores (c : TfIdfCalculator) (queryEmbedding : list (string * R))
    : list TfIdfScore :=
  flat_map
    (fun entry =>
       flat_map
         (fun chunk =>
            let s := chunkScore c chunk queryEmbedding in
            if Rgt_dec s 0 then [mkScore (fst entry) s] else [])
         (snd entry))
    (documents c).

(** The idf cache only ever holds what [computeIdf] returns. *)
Definition coherent (c : TfIdfCalculator) (idfCache : gmap string R) : Prop :=
  ∀ term v, idfCache !! term = Some v → v = computeIdf c term.

(** What the two counters are documented to be: [chunkCount] is the "total
    number of chunks", [chunkOccurrences] the "map of terms to the number of
    chunks they appear in", with no entry for a term that is in none. *)
Definition storedChunks (c : TfIdfCalculator) : list DocumentChunkEntry :=
  flat_map snd (documents c).

Definition holds (term : string) (chunk : DocumentChunkEntry) : bool :=
  bool_decide (term ∈ JsMap.keys (tf chunk)).

Definition chunksWith (term : string) (chunks : list DocumentChunkEntry) : Z :=
  Z.of_nat (length (List.filter (holds term) chunks)).

Definition counter (n : Z) : option Z := if n =? 0 then None else Some n.

Definition consistent (c : TfIdfCalculator) : Prop :=
  NoDup (JsMap.keys (documents c)) ∧
  Forall (fun chunk => NoDup (JsMap.keys (tf chunk))) (storedChunks c) ∧
  chunkCount c = Z.of_nat (length (storedChunks c)) ∧
  ∀ term, chunkOccurrences c !! term = counter (chunksWith term (storedChunks c)).

(** Two inputs used below: one document with two chunks that both hold the
    query term, and one batch that names the same key twice. *)
Definition twoChunkIndex : TfIdfCalculator :=
  updateDocuments [mkDocument "doc" ["cat"; "cat cat"]] newTfIdfCalculator.

Definition duplicateKeyBatch : list TfIdfDocument :=
  [mkDocument "k" ["aaa"]; mkDocument "k" ["bbb"]].

(** The states of a calculator whose client names every key at most once in
    a batch: [new TfIdfCalculator()], then any [updateDocuments] with distinct
    keys and any [deleteDocument]. *)
Inductive reachable : TfIdfCalculator → Prop :=
| reachable_new : reachable newTfIdfCalculator
| reachable_update c docs :
    reachable c → NoDup (map key docs) → reachable (updateDocuments docs c)
| reachable_delete c k : reachable c → reachable (deleteDocument k c).

(** Whether the text of a chunk and a query have a term in common. *)
Definition sharesTerm (query : string) (chunk : DocumentChunkEntry) : bool :=
  existsb (fun term => bool_decide (term ∈ splitTerms (text chunk))) (splitTerms query).

End TfIdf.

(** ** chunking/chunkingStrategy.ts *)

Module Chunking.
Import Cancellation.

Inductive ChunkingStrategyType := FixedSize | Semantic | AST | Hybrid.

(** The metadata of a chunk: the keys that the code reads or writes.  Further
    keys of the [Record<string, any>] are carried along and never looked at. *)
Record Metadata := mkMetadata {
  startLine : option Z;
  endLine : option Z;
  parentId : option string;
  type : option string;
  language : option string;
  fileName : option string;
  filePath : option string;
  fileExtension : option string;
  indexedAt : option string
}.

Definition noMetadata : Metadata :=
  mkMetadata None None None None None None None None None.

Record Chunk := mkChunk {
  id : string;
  content : string;
  metadata : Metadata
}.

(** The options after the constructor of [ChunkingStrategy] has filled in
    its defaults ([maxChunkSize: 1000, minChunkSize: 100, overlap: 0]). *)
Record ChunkingOptions := mkOptions {
  maxChunkSize : Z;
  minChunkSize : Z;
  overlap : Z
}.

Record PartialChunkingOptions := mkPartialOptions {
  maxChunkSize_opt : option Z;
  minChunkSize_opt : option Z;
  overlap_opt : option Z
}.

Definition withDefaults (options : PartialChunkingOptions) : ChunkingOptions :=
  {| maxChunkSize := default 1000 (maxChunkSize_opt options);
     minChunkSize := default 100 (minChunkSize_opt options);
     overlap := default 0 (overlap_opt options) |}.

(** [ToInt32] *)
Definition toInt32 (z : Z) : Z := (z + 2 ^ 31) mod 2 ^ 32 - 2 ^ 31.

(** The hash loop of [generateChunkId]:
    [hash = ((hash << 5) - hash) + char; hash = hash & hash]. *)
Definition hashStep (hash : Z) (c : ascii) : Z :=
  toInt32 (toInt32 (hash * 32) - hash + Z.of_nat (Str.code c)).

Definition decimal (z : Z) : string := DecimalString.NilZero.string_of_int (Z.to_int z).

(** [n.toString(16)] for an integer [n >= 0] *)
Definition hex (z : Z) : string :=
  HexadecimalString.NilZero.string_of_uint (N.to_hex_uint (Z.to_N z)).

(** [fileName.replace(/[^a-zA-Z0-9]/g, '_')] *)
Definition sanitize (s : string) : string :=
  string_of_list_ascii
    (map (fun c => if Str.isLetter c || Str.isDigit c then c else "_"%char)
         (list_ascii_of_string s)).

Definition generateChunkId (content : string) (index : Z) (metadata : option Metadata)
    : string :=
  let hash := fold_left hashStep (list_ascii_of_string content) 0 in
  let prefix :=
    match metadata with
    | Some m => match type m with
                | Some t => if String.eqb t "" then "chunk" else t
                | None => "chunk"
                end
    | None => "chunk"
    end in
  let fileInfo :=
    match metadata with
    | Some m => match fileName m with
                | Some f => if String.eqb f "" then "" else "-" +:+ sanitize f
                | None => ""
                end
    | None => ""
    end in
  prefix +:+ fileInfo +:+ "-" +:+ decimal index +:+ "-" +:+ hex (Z.abs hash).

(** [content.slice(0, offset).split('\n').length - 1]: the line feeds before
    the offset; a negative offset counts from the end. *)
Definition getLineNumberAtOffset (content : string) (offset : Z) : Z :=
  let stop :=
    if offset <? 0 then Z.max (Str.len content + offset) 0
    else Z.min offset (Str.len content) in
  Z.of_nat (length (filter (fun c => Ascii.eqb c "010"%char)
                      (list_ascii_of_string (String.substring 0 (Z.to_nat stop) content)))).

(** [s.substring(start, end)]: both ends are clamped to the string, and
    swapped when they come in the wrong order. *)
Definition substring (s : string) (start stop : Z) : string :=
  let a := Z.min (Z.max start 0) (Str.len s) in
  let b := Z.min (Z.max stop 0) (Str.len s) in
  String.substring (Z.to_nat (Z.min a b)) (Z.to_nat (Z.max a b - Z.min a b)) s.

(** [s.lastIndexOf(pattern)], [-1] when there is no occurrence. *)
Fixpoint lastIndexOf_from (i : Z) (s pattern : string) (last : Z) : Z :=
  match s with
  | EmptyString => if String.prefix pattern s then i else last
  | String _ rest =>
      lastIndexOf_from (i + 1) rest pattern (if String.prefix pattern s then i else last)
  end.

Definition lastIndexOf (s pattern : string) : Z := lastIndexOf_from 0 s pattern (-1).

(** The chunk spreads the metadata it was given over its own line range:
    [{ startLine, endLine, ...metadata }]. *)
Definition chunkMetadata (first last : Z) (metadata : option Metadata) : Metadata :=
  match metadata with
  | None => mkMetadata (Some first) (Some last) None None None None None None None
  | Some m =>
      mkMetadata (Some (default first (startLine m))) (Some (default last (endLine m)))
                 (parentId m) (type m) (language m) (fileName m) (filePath m)
                 (fileExtension m) (indexedAt m)
  end.

Definition breakpoints : list string :=
  [String "010" (String "010" ""); String "010" ""; ". "; ", "; " "]%string.

(** The search for a split point: the [for] loop over [breakpoints], left at
    the first breakpoint that is found far enough from the current position. *)
Fixpoint findSplit (content : string) (currentPosition minChunkSize endPosition : Z)
    (candidates : list string) : Z :=
  match candidates with
  | [] => endPosition
  | breakpoint :: rest =>
      let searchStart := Z.max (endPosition - 100) (currentPosition + minChunkSize) in
      let searchEnd := Z.min (endPosition + 100) (Str.len content) in
      let searchText := substring content searchStart searchEnd in
      let breakpointIndex := lastIndexOf searchText breakpoint in
      if negb (breakpointIndex =? -1)
         && (currentPosition + minChunkSize <? searchStart + breakpointIndex)
      then searchStart + breakpointIndex + Str.len breakpoint
      else findSplit content currentPosition minChunkSize endPosition rest
  end.

(** Where the chunk that starts at [currentPosition] ends. *)
Definition chunkEnd (content : string) (maxChunkSize minChunkSize currentPosition : Z) : Z :=
  let endPosition := Z.min (currentPosition + maxChunkSize) (Str.len content) in
  if endPosition <? Str.len content
  then findSplit content currentPosition minChunkSize endPosition breakpoints
  else endPosition.

(** The [while] loop of [FixedSizeChunkingStrategy.chunk].  It has no bound
    of its own: [fuel] counts the iterations that are still allowed, and
    [NoReturn] says that they did not suffice. *)
Fixpoint chunkLoop (fuel : nat) (content : string) (metadata : option Metadata)
    (token : option CancellationToken) (maxChunkSize minChunkSize overlap : Z)
    (currentPosition chunkIndex : Z) (chunks : list Chunk) : Result (list Chunk) :=
  if currentPosition <? Str.len content then
    match fuel with
    | O => NoReturn
    | S fuel' =>
        if requested token then Ok chunks
        else
          let endPosition := chunkEnd content maxChunkSize minChunkSize currentPosition in
          let chunkContent := substring content currentPosition endPosition in
          let chunk :=
            mkChunk (generateChunkId chunkContent chunkIndex metadata) chunkContent
              (chunkMetadata (getLineNumberAtOffset content currentPosition)
                             (getLineNumberAtOffset content endPosition) metadata) in
          chunkLoop fuel' content metadata token maxChunkSize minChunkSize overlap
            (endPosition - overlap) (chunkIndex + 1) (chunks ++ [chunk])
    end
  else Ok chunks.

(** [FixedSizeChunkingStrategy.chunk] *)
Definition FixedSize_chunk (options : ChunkingOptions) (fuel : nat) (content : string)
    (metadata : option Metadata) (token : option CancellationToken)
    : Result (list Chunk) :=
  if requested token then Ok []
  else
    let maxChunkSize := maxChunkSize options in
    let minChunkSize := if minChunkSize options =? 0 then 100 else minChunkSize options in
    let overlap := overlap options in
    if Str.len content <=? maxChunkSize then
      Ok [mkChunk (generateChunkId content 0 metadata) content
            (chunkMetadata 0 (getLineNumberAtOffset content (Str.len content)) metadata)]
    else
      chunkLoop fuel content metadata token maxChunkSize minChunkSize overlap 0 0 [].

(** What the facade knows of a strategy: its [chunk] method.  The first
    argument bounds the iterations of a loop that has no bound of its own. *)
Definition ChunkingStrategy : Type :=
  nat → string → option Metadata → option CancellationToken → Result (list Chunk).

(** ** [SemanticChunkingStrategy], for options without a [delimiter] *)

(** [(?<=\.|\?|\!|\n)]: the characters after which the default delimiter
    may start. *)
Definition endsSentence (c : option ascii) : bool :=
  match c with
  | Some c =>
      Ascii.eqb c "." || Ascii.eqb c "?" || Ascii.eqb c "!" || Ascii.eqb c "010"
  | None => false
  end.

(** [content.split(/(?<=\.|\?|\!|\n)\s+/g)]: a delimiter is a maximal run of
    white space that starts right after one of the four characters. *)
Fixpoint splitSentences (inDelimiter : bool) (previous : option ascii) (cur : list ascii)
    (s : list ascii) : list string :=
  match s with
  | [] => [string_of_list_ascii (rev cur)]
  | c :: rest =>
      if Str.isSpace c && (inDelimiter || endsSentence previous)
      then
        if inDelimiter then splitSentences true (Some c) cur rest
        else string_of_list_ascii (rev cur) :: splitSentences true (Some c) [] rest
      else splitSentences false (Some c) (c :: cur) rest
  end.

(** [unit.trim().length > 0] *)
Definition notBlank (unit : string) : bool :=
  existsb (fun c => negb (Str.isSpace c)) (list_ascii_of_string unit).

Definition semanticUnits (content : string) : list string :=
  List.filter notBlank (splitSentences false None [] (list_ascii_of_string content)).

(** The [for] loop over the units, and the final chunk after it. *)
Fixpoint semanticLoop (content : string) (metadata : option Metadata)
    (token : option CancellationToken) (maxChunkSize : Z) (units : list string)
    (currentChunk : string) (currentStartLine currentPosition chunkIndex : Z)
    (chunks : list Chunk) : list Chunk :=
  match units with
  | [] =>
      if 0 <? Str.len currentChunk
      then chunks ++
           [mkChunk (generateChunkId currentChunk chunkIndex metadata) currentChunk
              (chunkMetadata currentStartLine
                 (getLineNumberAtOffset content (Str.len content)) metadata)]
      else chunks
  | unit :: rest =>
      if requested token then chunks
      else
        let full :=
          (0 <? Str.len currentChunk)
          && (maxChunkSize <? Str.len currentChunk + Str.len unit) in
        let chunks' :=
          if full
          then chunks ++
               [mkChunk (generateChunkId currentChunk chunkIndex metadata) currentChunk
                  (chunkMetadata currentStartLine
                     (getLineNumberAtOffset content currentPosition) metadata)]
          else chunks in
        let chunkIndex' := if full then chunkIndex + 1 else chunkIndex in
        let emptied := if full then "" else currentChunk in
        let currentStartLine' :=
          if full then getLineNumberAtOffset content currentPosition
          else currentStartLine in
        let spaced := if 0 <? Str.len emptied then emptied +:+ " " else emptied in
        semanticLoop content metadata token maxChunkSize rest (spaced +:+ unit)
          currentStartLine' (currentPosition + Str.len unit + 1) chunkIndex' chunks'
  end.

(** [SemanticChunkingStrategy.chunk]; the loop is bounded, the first
    argument is there for [ChunkingStrategy]. *)
Definition Semantic_chunk (options : ChunkingOptions) (fuel : nat) (content : string)
    (metadata : option Metadata) (token : option CancellationToken)
    : Result (list Chunk) :=
  if requested token then Ok []
  else
    let units := semanticUnits content in
    if (length units =? 0)%nat then Ok []
    else Ok (semanticLoop content metadata token (maxChunkSize options) units "" 0 0 0 []).

(** The texts of a list of chunks, in order. *)
Definition contents (chunks : list Chunk) : list string := map content chunks.

End Chunking.

(** ** Arrays *)

Module Arr.
Section Sort.
Context {A : Type} (cmp : A → A → R).

(** [Array.prototype.sort(cmp)] is stable: an element moves behind another
    only when the comparator says so ([cmp a b > 0]).  For a comparator that
    orders by one number this is the insertion sort below. *)
Fixpoint insert (x : A) (l : list A) : list A :=
  match l with
  | [] => [x]
  | y :: l' => if Rgt_dec (cmp x y) 0 then y :: insert x l' else x :: y :: l'
  end.

Definition sort (l : list A) : list A := fold_right insert [] l.

End Sort.

(** [l.slice(0, n)]: a negative [n] counts from the end. *)
Definition slice0 {A : Type} (l : list A) (n : Z) : list A :=
  if n <? 0 then firstn (Z.to_nat (Z.max (Z.of_nat (length l) + n) 0)) l
  else firstn (Z.to_nat n) l.

Definition Rgeb (x y : R) : bool := if Rge_dec x y then true else false.

End Arr.

(** ** index/tfIdf.ts: [normalizeTfIdfScores] *)

Module TfIdfNormalize.
Import TfIdf.

(** [scores.slice(0)] copies the array and not the score objects, which the
    loop then divides in place: the objects live in a store, the arrays hold
    references to them. *)
Definition scoreAt (h : gmap nat TfIdfScore) (r : nat) : R :=
  match h !! r with
  | Some s => score s
  | None => 0%R
  end.

Definition normalizeTfIdfScores (h : gmap nat TfIdfScore) (scores : list nat)
    : list nat * gmap nat TfIdfScore :=
  let result := Arr.sort (fun a b => (scoreAt h b - scoreAt h a)%R) scores in
  let max := match result with
             | first :: _ => scoreAt h first
             | [] => 0%R
             end in
  if Rgt_dec max 0
  then (result,
        fold_left
          (fun h r => alter (fun s => mkScore (score_key s) (score s / max)%R) r h)
          result h)
  else (result, h).

End TfIdfNormalize.

(** ** embeddings/embeddingService.ts *)

Module Embeddings.
Import Cancellation.

(** A provider maps each text to a vector.  It is a function here: a
    provider that rejects is outside the model. *)
Record EmbeddingProvider := mkProvider {
  provider_computeEmbeddings : list string → list (list R);
  dimensions : Z;
  modelName : string
}.

Record EmbeddingsService := mkEmbeddingsService {
  providers : gmap string EmbeddingProvider
}.

Definition registerProvider (id : string) (provider : EmbeddingProvider)
    (s : EmbeddingsService) : EmbeddingsService :=
  mkEmbeddingsService (<[id := provider]> (providers s)).

Definition getProvider (id : string) (s : EmbeddingsService) : option EmbeddingProvider :=
  providers s !! id.

Definition computeEmbeddings (providerId : string) (texts : list string)
    (token : option CancellationToken) (s : EmbeddingsService)
    : Result (list (list R)) :=
  if requested token then Ok []
  else match providers s !! providerId with
       | None => Throw ("No embedding provider found with id: " +:+ providerId)
       | Some provider => Ok (provider_computeEmbeddings provider texts)
       end.

End Embeddings.

(** ** Cosine similarity (the same private method in
       [SemanticSearchEngine] and [InMemoryStorageAdapter]) *)

Module Vec.

(** The three sums of the [for] loop, over the indices of [a]. *)
Definition sums (a b : list R) : R * R * R :=
  fold_left
    (fun acc ab =>
       let '(dotProduct, normA, normB) := acc in
       (dotProduct + fst ab * snd ab, normA + fst ab * fst ab, normB + snd ab * snd ab)%R)
    (combine a b) (0, 0, 0)%R.

(** An embedding is [undefined] when it was taken, by [const [embedding] =],
    from an empty array; reading its [length] throws. *)
Definition cosineSimilarity (a b : option (list R)) : Result R :=
  match a, b with
  | Some a, Some b =>
      if negb (length a =? length b)%nat
      then Throw "Vectors must have the same dimensions"
      else
        let '(dotProduct, normA, normB) := sums a b in
        if Req_dec_T normA 0 then Ok 0%R
        else if Req_dec_T normB 0 then Ok 0%R
        else Ok (dotProduct / (sqrt normA * sqrt normB))%R
  | _, _ => Throw "TypeError: Cannot read properties of undefined (reading 'length')"
  end.

End Vec.

(** ** storage/storageAdapter.ts *)

Module Storage.
Import Chunking.

Record StoredDocument := mkStored {
  content : string;
  embedding : option (list R);
  metadata : Metadata
}.

Record SimilarDocument := mkSimilar {
  id : string;
  similar_content : string;
  similar_metadata : Metadata;
  score : R
}.

Record InMemoryStorageAdapter := mkStorage {
  documents : list (string * StoredDocument)
}.

Definition newInMemoryStorageAdapter : InMemoryStorageAdapter := mkStorage [].

Definition storeDocument (id : string) (content : string) (embedding : option (list R))
    (metadata : Metadata) (s : InMemoryStorageAdapter) : InMemoryStorageAdapter :=
  mkStorage (JsMap.set id (mkStored content embedding metadata) (documents s)).

Definition retrieveDocument (id : string) (s : InMemoryStorageAdapter)
    : option StoredDocument :=
  JsMap.get id (documents s).

(** [findSimilar(embedding, limit, threshold = 0.7)] *)
Definition findSimilar (embedding : option (list R)) (limit : Z) (threshold : option R)
    (s : InMemoryStorageAdapter) : Result (list SimilarDocument) :=
  let threshold := default (7 / 10)%R threshold in
  let* scored :=
    mapM (fun entry =>
            let* score := Vec.cosineSimilarity embedding (Storage.embedding (snd entry)) in
            Ok (mkSimilar (fst entry) (content (snd entry)) (metadata (snd entry)) score))
         (documents s) in
  Ok (Arr.slice0
        (Arr.sort (fun a b => (score b - score a)%R)
           (List.filter (fun result => Arr.Rgeb (score result) threshold) scored))
        limit).

Definition deleteDocument (id : string) (s : InMemoryStorageAdapter)
    : bool * InMemoryStorageAdapter :=
  (bool_decide (is_Some (JsMap.get id (documents s))),
   mkStorage (JsMap.delete id (documents s))).

Definition clear (s : InMemoryStorageAdapter) : InMemoryStorageAdapter := mkStorage [].

(** The calls that change an adapter, and the states it goes through. *)
Inductive Call :=
| StoreDocument (id content : string) (embedding : option (list R)) (metadata : Metadata)
| DeleteDocument (id : string)
| Clear.

Definition run (c : Call) (s : InMemoryStorageAdapter) : InMemoryStorageAdapter :=
  match c with
  | StoreDocument id content embedding metadata =>
      storeDocument id content embedding metadata s
  | DeleteDocument id => snd (deleteDocument id s)
  | Clear => clear s
  end.

Inductive reachable : InMemoryStorageAdapter → Prop :=
| reachable_new : reachable newInMemoryStorageAdapter
| reachable_run s c : reachable s → reachable (run c s).

End Storage.

(** ** search/semanticSearch.ts *)

Module Search.
Import Cancellation Chunking Embeddings.

Record SemanticSearchResult := mkResult {
  id : string;
  score : R;
  content : string;
  metadata : option Metadata
}.

Record SemanticSearchOptions := mkSearchOptions {
  topK : option Z;
  threshold : option R;
  includeSimilarity : option bool;
  includeContent : option bool;
  includeMetadata : option bool
}.

(** [options = {}] *)
Definition noOptions : SemanticSearchOptions :=
  mkSearchOptions None None None None None.

Record IndexedDocument := mkIndexed {
  text : string;
  embedding : option (list R);
  doc_metadata : option Metadata
}.

(** The engine holds a reference to the embedding service of whoever built
    it; the service is passed to each method here, so that the engine always
    sees the providers registered so far. *)
Record SemanticSearchEngine := mkEngine {
  documents : list (string * IndexedDocument)
}.

Definition newSemanticSearchEngine : SemanticSearchEngine := mkEngine [].

Definition addDocument (service : EmbeddingsService) (id text providerId : string)
    (metadata : option Metadata) (token : option CancellationToken)
    (e : SemanticSearchEngine) : Result SemanticSearchEngine :=
  if requested token then Ok e
  else
    let* embeddings := computeEmbeddings providerId [text] token service in
    Ok (mkEngine (JsMap.set id (mkIndexed text (head embeddings) metadata) (documents e))).

Definition removeDocument (id : string) (e : SemanticSearchEngine)
    : bool * SemanticSearchEngine :=
  (bool_decide (is_Some (JsMap.get id (documents e))),
   mkEngine (JsMap.delete id (documents e))).

Definition search (service : EmbeddingsService) (query providerId : string)
    (options : SemanticSearchOptions) (token : option CancellationToken)
    (e : SemanticSearchEngine) : Result (list SemanticSearchResult) :=
  if requested token then Ok []
  else
    let topK := default 5 (topK options) in
    let threshold := default 0%R (threshold options) in
    let includeSimilarity := default true (includeSimilarity options) in
    let includeContent := default true (includeContent options) in
    let includeMetadata := default true (includeMetadata options) in
    let* embeddings := computeEmbeddings providerId [query] token service in
    let queryEmbedding := head embeddings in
    if requested token then Ok []
    else
      let* scored :=
        mapM (fun entry =>
                let* score := Vec.cosineSimilarity queryEmbedding (embedding (snd entry)) in
                Ok (mkResult (fst entry) score
                      (if includeContent then text (snd entry) else "")
                      (if includeMetadata then doc_metadata (snd entry) else None)))
             (documents e) in
      let results :=
        Arr.slice0
          (Arr.sort (fun a b => (score b - score a)%R)
             (List.filter (fun result => Arr.Rgeb (score result) threshold) scored))
          topK in
      Ok (if includeSimilarity then results
          else map (fun result =>
                      mkResult (id result) 0%R (content result) (metadata result))
                   results).

(** A provider with two axes, a service that knows it as ['default'], and an
    engine to which [addDocument('d1', 'document', 'default')] was applied. *)
Definition axisProvider : EmbeddingProvider :=
  mkProvider
    (map (fun t => if String.eqb t "query" then [1; 0]%R else [0; 1]%R)) 2 "axis".

Definition axisService : EmbeddingsService :=
  registerProvider "default" axisProvider (mkEmbeddingsService ∅).

Definition oneDocumentEngine : SemanticSearchEngine :=
  match addDocument axisService "d1" "document" "default" None None
          newSemanticSearchEngine with
  | Ok e => e
  | _ => newSemanticSearchEngine
  end.

(** [addDocuments]: one call of the provider for the whole batch, then one
    [documents.set] per document; [embeddings[i]] is [undefined] when the
    provider returned fewer vectors than it was given texts. *)
Record NewDocument := mkNewDocument {
  new_id : string;
  new_text : string;
  new_metadata : option Metadata
}.

Fixpoint setEach (docs : list NewDocument) (i : nat) (embeddings : list (list R))
    (token : option CancellationToken) (e : SemanticSearchEngine) : SemanticSearchEngine :=
  match docs with
  | [] => e
  | doc :: rest =>
      if requested token then e
      else setEach rest (S i) embeddings token
             (mkEngine (JsMap.set (new_id doc)
                          (mkIndexed (new_text doc) (nth_error embeddings i)
                             (new_metadata doc))
                          (documents e)))
  end.

Definition addDocuments (service : EmbeddingsService) (docs : list NewDocument)
    (providerId : string) (token : option CancellationToken) (e : SemanticSearchEngine)
    : Result SemanticSearchEngine :=
  if requested token || (length docs =? 0)%nat then Ok e
  else
    let texts := map new_text docs in
    let* embeddings := computeEmbeddings providerId texts token service in
    Ok (setEach docs 0 embeddings token e).

Definition getDocumentCount (e : SemanticSearchEngine) : Z :=
  Z.of_nat (length (documents e)).

Definition getDocumentIds (e : SemanticSearchEngine) : list string :=
  JsMap.keys (documents e).

Definition clearDocuments (e : SemanticSearchEngine) : SemanticSearchEngine := mkEngine [].

(** The calls that change an engine, and the states it goes through. *)
Inductive Call :=
| AddDocument (service : EmbeddingsService) (id text providerId : string)
    (metadata : option Metadata) (token : option CancellationToken)
| AddDocuments (service : EmbeddingsService) (docs : list NewDocument)
    (providerId : string) (token : option CancellationToken)
| RemoveDocument (id : string)
| ClearDocuments.

Definition run (c : Call) (e : SemanticSearchEngine) : Result SemanticSearchEngine :=
  match c with
  | AddDocument service id text providerId metadata token =>
      addDocument service id text providerId metadata token e
  | AddDocuments service docs providerId token =>
      addDocuments service docs providerId token e
  | RemoveDocument id => Ok (snd (removeDocument id e))
  | ClearDocuments => Ok (clearDocuments e)
  end.

Inductive reachable : SemanticSearchEngine → Prop :=
| reachable_new : reachable newSemanticSearchEngine
| reachable_run e c e' : reachable e → run c e = Ok e' → reachable e'.

End Search.

(** ** prompts/promptBuilder.ts *)

Module Prompt.

Definition LF : string := String "010" "".

(** [s.replace(pattern, replacement)] for a string pattern: the first
    occurrence only, with the dollar patterns of the replacement expanded
    ([$$], [$&], [$`], [$']; there are no capture groups, so [$1] stays). *)
Fixpoint expand (replacement : list ascii) (before matched after : string) : string :=
  match replacement with
  | [] => ""
  | "$"%char :: rest =>
      match rest with
      | "$"%char :: rest' => "$" +:+ expand rest' before matched after
      | "&"%char :: rest' => matched +:+ expand rest' before matched after
      | "`"%char :: rest' => before +:+ expand rest' before matched after
      | "'"%char :: rest' => after +:+ expand rest' before matched after
      | _ => String "$" (expand rest before matched after)
      end
  | c :: rest => String c (expand rest before matched after)
  end.

Definition replace (s pattern replacement : string) : string :=
  match String.index 0 pattern s with
  | None => s
  | Some i =>
      let before := String.substring 0 i s in
      let after :=
        String.substring (i + String.length pattern)
                         (String.length s - (i + String.length pattern)) s in
      before +:+ expand (list_ascii_of_string replacement) before pattern after +:+ after
  end.

(** [text.split(/\s+/).length]: one more than the number of maximal runs of
    white space. *)
Fixpoint spaceRuns (inRun : bool) (s : list ascii) : Z :=
  match s with
  | [] => 0
  | c :: rest =>
      if Str.isSpace c then (if inRun then 0 else 1) + spaceRuns true rest
      else spaceRuns false rest
  end.

Definition wordCount (text : string) : Z :=
  spaceRuns false (list_ascii_of_string text) + 1.

(** [Math.ceil(n * 1.3)] for a count [n]: the product is within rounding of
    [13 n / 10], which is an integer or at least a tenth away from one. *)
Definition estimateTokens (text : string) : Z := (13 * wordCount text + 9) / 10.

Record PromptTemplate := mkTemplate {
  systemMessage : option string;
  userMessageTemplate : string;
  contextHeader : option string;
  contextFooter : option string;
  contextSeparator : string
}.

Definition defaultTemplate : PromptTemplate :=
  {| systemMessage :=
       Some "You are a helpful coding assistant with expertise in software development.";
     userMessageTemplate := "{{query}}";
     contextHeader := Some ("Here is some relevant code context:" +:+ LF);
     contextFooter := Some (LF +:+ "Please answer based on the above context.");
     contextSeparator := LF +:+ "---" +:+ LF |}.

Record PartialPromptTemplate := mkPartialTemplate {
  systemMessage_opt : option string;
  userMessageTemplate_opt : option string;
  contextHeader_opt : option string;
  contextFooter_opt : option string;
  contextSeparator_opt : option string
}.

Definition noTemplate : PartialPromptTemplate :=
  mkPartialTemplate None None None None None.

(** The constructor: [{ ...this.defaultTemplate, ...template }]. *)
Definition newPromptBuilder (template : PartialPromptTemplate) : PromptTemplate :=
  {| systemMessage :=
       match systemMessage_opt template with
       | Some m => Some m
       | None => systemMessage defaultTemplate
       end;
     userMessageTemplate :=
       default (userMessageTemplate defaultTemplate) (userMessageTemplate_opt template);
     contextHeader :=
       match contextHeader_opt template with
       | Some h => Some h
       | None => contextHeader defaultTemplate
       end;
     contextFooter :=
       match contextFooter_opt template with
       | Some f => Some f
       | None => contextFooter defaultTemplate
       end;
     contextSeparator :=
       default (contextSeparator defaultTemplate) (contextSeparator_opt template) |}.

Record SnippetMetadata := mkSnippetMetadata {
  fileName : option string;
  language : option string
}.

Record ExtendedCodeSnippet := mkSnippet {
  content : string;
  startLine : Z;
  endLine : Z;
  relevance : R;
  type : Z;
  metadata : option SnippetMetadata
}.

Record ModelCapabilities := mkCapabilities {
  contextWindow : Z;
  supportsSystemMessage : bool;
  maxOutputTokens : option Z
}.

Record PromptContext := mkContext {
  query : string;
  codeSnippets : list ExtendedCodeSnippet;
  systemInfo : option (list (string * string));
  modelCapabilities : option ModelCapabilities
}.

Record PromptMetadata := mkPromptMetadata {
  includedSnippets : Z;
  totalSnippets : Z;
  estimatedTokens : Z
}.

Record PromptResult := mkPromptResult {
  result_systemMessage : option string;
  userMessage : string;
  result_metadata : PromptMetadata
}.

(** [x || ''] for an optional string *)
Definition orEmpty (x : option string) : string := default "" x.

(** [x || d] for an optional string: the empty string is falsy too. *)
Definition orString (x : option string) (d : string) : string :=
  match x with
  | Some v => if String.eqb v "" then d else v
  | None => d
  end.

Definition formatSnippet (snippet : ExtendedCodeSnippet) : string :=
  let fileName := orString (match metadata snippet with
                            | Some m => fileName m
                            | None => None
                            end) "unknown" in
  let language := orString (match metadata snippet with
                            | Some m => language m
                            | None => None
                            end) "" in
  "File: " +:+ fileName +:+ " (Lines " +:+ Chunking.decimal (startLine snippet + 1)
    +:+ "-" +:+ Chunking.decimal (endLine snippet + 1) +:+ ")" +:+ LF
    +:+ "```" +:+ language +:+ LF
    +:+ content snippet +:+ LF
    +:+ "```".

Definition formatSystemMessage (template : option string)
    (systemInfo : option (list (string * string))) : string :=
  match template with
  | None => ""
  | Some template =>
      if String.eqb template "" then ""
      else match systemInfo with
           | None => template
           | Some entries =>
               fold_left
                 (fun result entry =>
                    replace result ("{{" +:+ fst entry +:+ "}}") (snd entry))
                 entries template
           end
  end.

(** The loop of [calculateSnippetsToInclude], left at the first snippet that
    does not fit. *)
Fixpoint includeWhileFits (template : PromptTemplate) (availableTokens : Z)
    (snippets : list ExtendedCodeSnippet) (tokenCount : Z) : list ExtendedCodeSnippet :=
  match snippets with
  | [] => []
  | snippet :: rest =>
      let snippetTokens :=
        estimateTokens (formatSnippet snippet +:+ contextSeparator template) in
      if tokenCount + snippetTokens <=? availableTokens
      then snippet :: includeWhileFits template availableTokens rest (tokenCount + snippetTokens)
      else []
  end.

Definition calculateSnippetsToInclude (template : PromptTemplate)
    (snippets : list ExtendedCodeSnippet) (maxContextTokens maxOutputTokens : Z)
    : list ExtendedCodeSnippet :=
  let reservedTokens := 500 + maxOutputTokens in
  let availableTokens := maxContextTokens - reservedTokens in
  includeWhileFits template availableTokens snippets 0.

(** [n || d] for a number *)
Definition orNumber (n : option Z) (d : Z) : Z :=
  match n with
  | Some v => if v =? 0 then d else v
  | None => d
  end.

Fixpoint join (separator : string) (parts : list string) : string :=
  match parts with
  | [] => ""
  | [part] => part
  | part :: rest => part +:+ separator +:+ join separator rest
  end.

Definition buildPrompt (template : PromptTemplate) (context : PromptContext) : PromptResult :=
  let sortedSnippets :=
    Arr.sort (fun a b => (relevance b - relevance a)%R) (codeSnippets context) in
  let snippetsToInclude :=
    calculateSnippetsToInclude template sortedSnippets
      (orNumber (option_map contextWindow (modelCapabilities context)) 4000)
      (orNumber (mbind maxOutputTokens (modelCapabilities context)) 1000) in
  let contextString :=
    if (0 <? length snippetsToInclude)%nat
    then orEmpty (contextHeader template)
         +:+ join (contextSeparator template) (map formatSnippet snippetsToInclude)
         +:+ orEmpty (contextFooter template)
    else "" in
  let userMessage :=
    replace (replace (userMessageTemplate template) "{{query}}" (query context))
            "{{context}}" contextString in
  let supported :=
    match modelCapabilities context with
    | Some capabilities => supportsSystemMessage capabilities
    | None => false
    end in
  let systemMessage :=
    if supported
    then Some (formatSystemMessage (systemMessage template) (systemInfo context))
    else None in
  let finalUserMessage :=
    if supported then userMessage
    else orEmpty systemMessage +:+ LF +:+ LF +:+ userMessage in
  let estimatedTokens := estimateTokens (orEmpty systemMessage +:+ finalUserMessage) in
  {| result_systemMessage := systemMessage;
     userMessage := finalUserMessage;
     result_metadata :=
       {| includedSnippets := Z.of_nat (length snippetsToInclude);
          totalSnippets := Z.of_nat (length sortedSnippets);
          estimatedTokens := estimatedTokens |} |}.

End Prompt.

(** ** ranking/contextRanker.ts *)

Module Ranking.
Import Cancellation.

Record RankingFactors := mkFactors {
  tfIdfScore : R;
  fuzzyScore : R;
  proximityScore : R;
  semanticScore : R;
  astRelevance : R
}.

Inductive NormalizationStrategy := minMax | softmax | none.

Record RankerOptions := mkRankerOptions {
  tfIdfWeight : R;
  fuzzyWeight : R;
  proximityWeight : R;
  semanticWeight : R;
  astWeight : R;
  minScore : R;
  normalizationStrategy : NormalizationStrategy
}.

(** The defaults of the constructor of [ContextRanker]. *)
Definition defaultOptions : RankerOptions :=
  {| tfIdfWeight := 4 / 10;
     fuzzyWeight := 2 / 10;
     proximityWeight := 15 / 100;
     semanticWeight := 15 / 100;
     astWeight := 1 / 10;
     minScore := 2 / 10;
     normalizationStrategy := minMax |}.

(** The factors of an item that scores on nothing. *)
Definition zeroFactors : RankingFactors := mkFactors 0 0 0 0 0.

Section Items.
Context {T : Type}.

Record ScoredContext := mkScored {
  item : T;
  score : R;
  factors : RankingFactors
}.

Definition calculateWeightedScore (options : RankerOptions) (factors : RankingFactors) : R :=
  (tfIdfScore factors * tfIdfWeight options +
   fuzzyScore factors * fuzzyWeight options +
   proximityScore factors * proximityWeight options +
   semanticScore factors * semanticWeight options +
   astRelevance factors * astWeight options)%R.

Definition withScore (x : ScoredContext) (newScore : R) : ScoredContext :=
  mkScored (item x) newScore (factors x).

(** [Math.min(...xs)] and [Math.max(...xs)] of a list that is not empty *)
Definition minimum (x : R) (xs : list R) : R := fold_left Rmin xs x.
Definition maximum (x : R) (xs : list R) : R := fold_left Rmax xs x.

Definition normalizeScores (options : RankerOptions) (items : list ScoredContext)
    : list ScoredContext :=
  match items with
  | [] => []
  | first :: others =>
      match normalizationStrategy options with
      | minMax =>
          let min := minimum (score first) (map score others) in
          let max := maximum (score first) (map score others) in
          if Req_dec_T max min
          then map (fun x => withScore x 1%R) items
          else map (fun x => withScore x ((score x - min) / (max - min))%R) items
      | softmax =>
          let expScores := map (fun x => exp (score x)) items in
          let sumExp := fold_left Rplus expScores 0%R in
          map (fun xe => withScore (fst xe) (snd xe / sumExp)%R) (combine items expScores)
      | none => items
      end
  end.

(** The scoring loop of [rankItems].  The score function is the caller's;
    it is a function here. *)
Definition scoreItems (options : RankerOptions) (items : list T) (query : string)
    (scoreFn : T → string → RankingFactors) : list ScoredContext :=
  map (fun x =>
         let factors := scoreFn x query in
         mkScored x (calculateWeightedScore options factors) factors)
      items.

Definition rankItems (options : RankerOptions) (items : list T) (query : string)
    (scoreFn : T → string → RankingFactors) (token : option CancellationToken)
    : list ScoredContext :=
  if requested token then []
  else
    let scoredItems := scoreItems options items query scoreFn in
    let normalizedItems := normalizeScores options scoredItems in
    let filteredItems :=
      List.filter (fun x => Arr.Rgeb (score x) (minScore options)) normalizedItems in
    Arr.sort (fun a b => (score b - score a)%R) filteredItems.

End Items.
Arguments ScoredContext T : clear implicits.

(** *** The score functions of the ranker *)

(** [s.split(/\s+/)]: the pieces between the maximal runs of white space;
    a string that starts or ends with white space has an empty first or last
    piece. *)
Fixpoint splitSpaces (inRun : bool) (cur : list ascii) (s : list ascii) : list string :=
  match s with
  | [] => [string_of_list_ascii (rev cur)]
  | c :: rest =>
      if Str.isSpace c
      then if inRun then splitSpaces true cur rest
           else string_of_list_ascii (rev cur) :: splitSpaces true [] rest
      else splitSpaces false (c :: cur) rest
  end.

(** [s.toLowerCase().split(/\s+/)] *)
Definition lowerTerms (s : string) : list string :=
  splitSpaces false [] (list_ascii_of_string (Str.toLowerCase s)).

(** [text.includes(pattern)] *)
Definition includes (text pattern : string) : bool :=
  match String.index 0 pattern text with
  | Some _ => true
  | None => false
  end.

Definition calculateTfIdfScore (text query : string) : R :=
  let queryTerms := lowerTerms query in
  let textTerms := lowerTerms text in
  let termFrequency := TfIdf.countMapFrom textTerms in
  let score :=
    fold_left
      (fun score term =>
         match JsMap.get term termFrequency with
         | Some n => (score + IZR n / IZR (Z.of_nat (length textTerms)))%R
         | None => score
         end)
      queryTerms 0%R in
  Rmin 1 score.

Definition calculateFuzzyScore (text query : string) : R :=
  let queryLower := Str.toLowerCase query in
  let textLower := Str.toLowerCase text in
  if includes textLower queryLower then 1%R
  else
    let queryTerms := splitSpaces false [] (list_ascii_of_string queryLower) in
    let matchedTerms :=
      fold_left (fun matched term => if includes textLower term then matched + 1 else matched)
        queryTerms 0 in
    (IZR matchedTerms / IZR (Z.of_nat (length queryTerms)))%R.

Definition calculateSemanticScore (text query : string) : R :=
  let queryTerms : gset string := list_to_set (lowerTerms query) in
  let textTerms : gset string := list_to_set (lowerTerms text) in
  let intersection := filter (fun x => x ∈ textTerms) queryTerms in
  let union := queryTerms ∪ textTerms in
  (IZR (Z.of_nat (size intersection)) / IZR (Z.of_nat (size union)))%R.

Definition highValueTypes : list string :=
  ["FunctionDeclaration"; "ClassDeclaration"; "MethodDefinition"; "VariableDeclaration"].

Definition mediumValueTypes : list string :=
  ["BlockStatement"; "ExpressionStatement"; "ReturnStatement"; "IfStatement"].

Definition getNodeTypeProximityScore (nodeType : string) : R :=
  if existsb (String.eqb nodeType) highValueTypes then 1%R
  else if existsb (String.eqb nodeType) mediumValueTypes then (7 / 10)%R
  else (4 / 10)%R.

(** The fields of an [ASTNode] that the ranker reads. *)
Record ASTNode := mkASTNode {
  node_type : string;
  node_value : option string
}.

Definition calculateASTRelevance (node : ASTNode) (query : string) : R :=
  let typeScore := getNodeTypeProximityScore (node_type node) in
  let valueScore :=
    match node_value node with
    | Some v => if String.eqb v "" then 0%R else calculateFuzzyScore v query
    | None => 0%R
    end in
  Rmax typeScore valueScore.

Inductive SnippetType := Exact | Nearby | Parent | Sibling | Related.

Record CodeSnippet := mkCodeSnippet {
  content : string;
  startLine : Z;
  endLine : Z;
  relevance : R;
  type : SnippetType
}.

Definition scoreCodeSnippet (snippet : CodeSnippet) (query : string) : RankingFactors :=
  {| tfIdfScore := calculateTfIdfScore (content snippet) query;
     fuzzyScore := calculateFuzzyScore (content snippet) query;
     proximityScore := relevance snippet;
     semanticScore := calculateSemanticScore (content snippet) query;
     astRelevance := 0 |}.

Definition scoreASTNode (node : ASTNode) (query : string) : RankingFactors :=
  let nodeText := Prompt.orString (node_value node) (node_type node) in
  {| tfIdfScore := calculateTfIdfScore nodeText query;
     fuzzyScore := calculateFuzzyScore nodeText query;
     proximityScore := getNodeTypeProximityScore (node_type node);
     semanticScore := calculateSemanticScore nodeText query;
     astRelevance := calculateASTRelevance node query |}.

Definition rankCodeSnippets (options : RankerOptions) (snippets : list CodeSnippet)
    (query : string) (token : option CancellationToken) : list (ScoredContext CodeSnippet) :=
  rankItems options snippets query scoreCodeSnippet token.

Definition rankASTNodes (options : RankerOptions) (nodes : list ASTNode)
    (query : string) (token : option CancellationToken) : list (ScoredContext ASTNode) :=
  rankItems options nodes query scoreASTNode token.

End Ranking.

(** ** context/localContext.ts: [LocalContextGatherer] *)

Module LocalContext.
Import Cancellation Ranking.

(** [ITextModel] is an interface: a model is what its methods return. *)
Record ITextModel := mkTextModel {
  getLineContent : Z → string;
  getLineCount : Z;
  getLanguageId : string
}.

Record Position := mkPosition {
  line : Z;
  column : Z
}.

Record ContextGatheringOptions := mkGatheringOptions {
  nearbyLinesAbove : Z;
  nearbyLinesBelow : Z;
  maxSnippets : Z;
  minRelevance : R
}.

(** The defaults of the constructor. *)
Definition defaultGatheringOptions : ContextGatheringOptions :=
  {| nearbyLinesAbove := 5; nearbyLinesBelow := 5; maxSnippets := 20;
     minRelevance := 2 / 10 |}.

Record LocalContextGatherer := mkGatherer {
  snippetCache : gmap string (list CodeSnippet);
  options : ContextGatheringOptions
}.

Definition newLocalContextGatherer (options : ContextGatheringOptions)
    : LocalContextGatherer :=
  mkGatherer ∅ options.

Definition getCacheKey (model : ITextModel) (pos : Position) : string :=
  getLanguageId model +:+ ":" +:+ Chunking.decimal (line pos) +:+ ":"
    +:+ Chunking.decimal (column pos).

Definition getCachedSnippets (model : ITextModel) (pos : Position)
    (g : LocalContextGatherer) : list CodeSnippet :=
  default [] (snippetCache g !! getCacheKey model pos).

Definition getExactPositionSnippet (model : ITextModel) (pos : Position)
    : option CodeSnippet :=
  if (line pos <? 0) || (getLineCount model <=? line pos) then None
  else Some (mkCodeSnippet (getLineContent model (line pos + 1)) (line pos) (line pos)
               1 Exact).

(** [s.trimEnd()] *)
Fixpoint dropSpaces (s : list ascii) : list ascii :=
  match s with
  | c :: rest => if Str.isSpace c then dropSpaces rest else s
  | [] => []
  end.

Definition trimEnd (s : string) : string :=
  string_of_list_ascii (rev (dropSpaces (rev (list_ascii_of_string s)))).

(** The loop of [getContentForLines], for the [n] lines from [i] on. *)
Fixpoint linesFrom (model : ITextModel) (i : Z) (n : nat) (content : string) : string :=
  match n with
  | O => content
  | S n' =>
      linesFrom model (i + 1) n'
        (content +:+ getLineContent model (i + 1) +:+ Prompt.LF)
  end.

Definition getContentForLines (model : ITextModel) (startLine endLine : Z) : string :=
  trimEnd (linesFrom model startLine (Z.to_nat (endLine - startLine + 1)) "").

Definition gatherNearbySnippets (model : ITextModel) (pos : Position)
    (linesAbove linesBelow : Z) (token : option CancellationToken) : list CodeSnippet :=
  let lineCount := getLineCount model in
  if requested token then []
  else
    let startLineAbove := Z.max 0 (line pos - linesAbove) in
    let above :=
      if startLineAbove <? line pos
      then [mkCodeSnippet (getContentForLines model startLineAbove (line pos - 1))
              startLineAbove (line pos - 1) (8 / 10) Nearby]
      else [] in
    let endLineBelow := Z.min (lineCount - 1) (line pos + linesBelow) in
    let below :=
      if line pos <? endLineBelow
      then [mkCodeSnippet (getContentForLines model (line pos + 1) endLineBelow)
              (line pos + 1) endLineBelow (7 / 10) Nearby]
      else [] in
    above ++ below.

(** The length of the white space that a line starts with (what the
    pattern of [getIndentationLevel] matches at the start of the line). *)
Fixpoint leadingSpaces (s : list ascii) : Z :=
  match s with
  | c :: rest => if Str.isSpace c then 1 + leadingSpaces rest else 0
  | [] => 0
  end.

Definition getIndentationLevel (line : string) : Z :=
  leadingSpaces (list_ascii_of_string line).

(** The loop of [gatherParentSnippets]: [i] runs from [n - 1] down to 0 and
    the loop is left at the first line that is less indented and not blank. *)
Fixpoint findParent (model : ITextModel) (currentLine currentIndentation : Z) (n : nat)
    : list CodeSnippet :=
  match n with
  | O => []
  | S i =>
      let lineContent := getLineContent model (Z.of_nat i + 1) in
      let indentation := getIndentationLevel lineContent in
      if (indentation <? currentIndentation) && Chunking.notBlank lineContent
      then [mkCodeSnippet (getContentForLines model (Z.of_nat i) currentLine)
              (Z.of_nat i) currentLine (9 / 10) Parent]
      else findParent model currentLine currentIndentation i
  end.

Definition gatherParentSnippets (model : ITextModel) (pos : Position)
    (token : option CancellationToken) : list CodeSnippet :=
  if requested token then []
  else
    let currentLine := line pos in
    let currentLineContent := getLineContent model (currentLine + 1) in
    let currentIndentation := getIndentationLevel currentLineContent in
    findParent model currentLine currentIndentation (Z.to_nat currentLine).

Definition updateCache (model : ITextModel) (pos : Position)
    (token : option CancellationToken) (g : LocalContextGatherer) : LocalContextGatherer :=
  let cacheKey := getCacheKey model pos in
  match snippetCache g !! cacheKey with
  | Some _ => g
  | None =>
      let snippets :=
        match getExactPositionSnippet model pos with
        | Some exactSnippet => [exactSnippet]
        | None => []
        end
        ++ gatherNearbySnippets model pos (nearbyLinesAbove (options g))
             (nearbyLinesBelow (options g)) token in
      mkGatherer (<[cacheKey := snippets]> (snippetCache g)) (options g)
  end.

Definition getAllContextSnippets (model : ITextModel) (pos : Position)
    (token : option CancellationToken) (g : LocalContextGatherer)
    : list CodeSnippet * LocalContextGatherer :=
  let cachedSnippets := getCachedSnippets model pos g in
  if (0 <? length cachedSnippets)%nat then (cachedSnippets, g)
  else
    let snippets :=
      match getExactPositionSnippet model pos with
      | Some exactSnippet => [exactSnippet]
      | None => []
      end
      ++ gatherNearbySnippets model pos (nearbyLinesAbove (options g))
           (nearbyLinesBelow (options g)) token
      ++ gatherParentSnippets model pos token in
    let sorted := Arr.sort (fun a b => (relevance b - relevance a)%R) snippets in
    let result := Arr.slice0 sorted (maxSnippets (options g)) in
    (result,
     mkGatherer (<[getCacheKey model pos := result]> (snippetCache g)) (options g)).

Definition clearCache (g : LocalContextGatherer) : LocalContextGatherer :=
  mkGatherer ∅ (options g).

End LocalContext.

(** ** voidIndexing.ts *)

Module Orchestrator.
Import Cancellation Chunking Embeddings.

Record IndexingOptions := mkIndexingOptions {
  chunkingStrategy : option ChunkingStrategyType;
  providerId : option string
}.

Definition noIndexingOptions : IndexingOptions := mkIndexingOptions None None.

Record SearchResult := mkSearchResult {
  id : string;
  content : string;
  score : R;
  metadata : Metadata
}.

(** The fields of [VoidIndexing] that its methods below use.  The semantic
    search engine shares the embedding service of the facade; the storage is
    the in-memory adapter. *)
Record VoidIndexing := mkVoidIndexing {
  embeddingService : EmbeddingsService;
  semanticSearch : Search.SemanticSearchEngine;
  chunkingStrategies : ChunkingStrategyType → option ChunkingStrategy;
  promptBuilder : Prompt.PromptTemplate;
  storage : Storage.InMemoryStorageAdapter;
  defaultProviderId : string
}.

Record VoidIndexingConfig := mkConfig {
  embeddingProvider : option EmbeddingProvider;
  storageAdapter : option Storage.InMemoryStorageAdapter;
  promptTemplate : Prompt.PartialPromptTemplate;
  chunkingOptions : PartialChunkingOptions;
  astParser : option ChunkingStrategy
}.

(** The constructor.  [SemanticChunkingStrategy] and [ASTChunkingStrategy]
    are not embedded: the facade only calls their [chunk] method, so the
    strategy built for [Semantic] is an argument, and the configuration
    carries the strategy that the parser gives rise to. *)
Definition newVoidIndexing (config : VoidIndexingConfig) (semantic : ChunkingStrategy)
    : VoidIndexing :=
  {| embeddingService :=
       match embeddingProvider config with
       | Some provider => registerProvider "default" provider (mkEmbeddingsService ∅)
       | None => mkEmbeddingsService ∅
       end;
     semanticSearch := Search.newSemanticSearchEngine;
     chunkingStrategies := fun t =>
       match t with
       | FixedSize => Some (FixedSize_chunk (withDefaults (chunkingOptions config)))
       | Semantic => Some semantic
       | AST => astParser config
       | Hybrid => None
       end;
     promptBuilder := Prompt.newPromptBuilder (promptTemplate config);
     storage := default Storage.newInMemoryStorageAdapter (storageAdapter config);
     defaultProviderId := "default" |}.

Definition registerEmbeddingProvider (id : string) (provider : EmbeddingProvider)
    (v : VoidIndexing) : VoidIndexing :=
  mkVoidIndexing (registerProvider id provider (embeddingService v)) (semanticSearch v)
    (chunkingStrategies v) (promptBuilder v) (storage v) (defaultProviderId v).

Definition setDefaultProviderId (id : string) (v : VoidIndexing) : Result VoidIndexing :=
  match getProvider id (embeddingService v) with
  | None => Throw ("No embedding provider found with id: " +:+ id)
  | Some _ =>
      Ok (mkVoidIndexing (embeddingService v) (semanticSearch v) (chunkingStrategies v)
            (promptBuilder v) (storage v) id)
  end.

Definition registerASTParser (strategy : ChunkingStrategy) (v : VoidIndexing) : VoidIndexing :=
  mkVoidIndexing (embeddingService v) (semanticSearch v)
    (fun t => match t with AST => Some strategy | _ => chunkingStrategies v t end)
    (promptBuilder v) (storage v) (defaultProviderId v).

(** [extensionMap[extension.toLowerCase()] || 'plaintext'].  The map is an
    object literal, so the two lower-case names that it inherits from
    [Object.prototype] are found too; what is stored for them is the text
    they turn into wherever the language is used. *)
Definition getLanguageFromExtension (extension : string) : string :=
  let e := Str.toLowerCase extension in
  if String.eqb e "js" then "javascript"
  else if String.eqb e "ts" then "typescript"
  else if String.eqb e "jsx" then "javascript"
  else if String.eqb e "tsx" then "typescript"
  else if String.eqb e "py" then "python"
  else if String.eqb e "java" then "java"
  else if String.eqb e "c" then "c"
  else if String.eqb e "cpp" then "cpp"
  else if String.eqb e "cs" then "csharp"
  else if String.eqb e "go" then "go"
  else if String.eqb e "rs" then "rust"
  else if String.eqb e "php" then "php"
  else if String.eqb e "rb" then "ruby"
  else if String.eqb e "swift" then "swift"
  else if String.eqb e "kt" then "kotlin"
  else if String.eqb e "scala" then "scala"
  else if String.eqb e "sh" then "shell"
  else if String.eqb e "html" then "html"
  else if String.eqb e "css" then "css"
  else if String.eqb e "scss" then "scss"
  else if String.eqb e "json" then "json"
  else if String.eqb e "md" then "markdown"
  else if String.eqb e "yaml" then "yaml"
  else if String.eqb e "yml" then "yaml"
  else if String.eqb e "xml" then "xml"
  else if String.eqb e "sql" then "sql"
  else if String.eqb e "constructor" then "function Object() { [native code] }"
  else if String.eqb e "__proto__" then "[object Object]"
  else "plaintext".

(** [s.split(separator).pop()]: what follows the last separator. *)
Fixpoint lastSegment (separator : ascii) (cur : list ascii) (s : list ascii) : list ascii :=
  match s with
  | [] => rev cur
  | c :: rest =>
      if Ascii.eqb c separator then lastSegment separator [] rest
      else lastSegment separator (c :: cur) rest
  end.

Definition afterLast (separator : ascii) (s : string) : string :=
  string_of_list_ascii (lastSegment separator [] (list_ascii_of_string s)).

Definition includes (c : ascii) (s : string) : bool :=
  existsb (Ascii.eqb c) (list_ascii_of_string s).

(** [options.chunkingStrategy || ChunkingStrategyType.Semantic]: the enum
    value of [FixedSize] is 0, which [||] passes over. *)
Definition selectedStrategy (options : IndexingOptions) : ChunkingStrategyType :=
  match chunkingStrategy options with
  | Some FixedSize | None => Semantic
  | Some t => t
  end.

(** [this.chunkingStrategies.get(strategy) || this.chunkingStrategies.get(FixedSize)!] *)
Definition strategyFor (options : IndexingOptions) (v : VoidIndexing)
    : Result ChunkingStrategy :=
  match chunkingStrategies v (selectedStrategy options) with
  | Some s => Ok s
  | None =>
      match chunkingStrategies v FixedSize with
      | Some s => Ok s
      | None => Throw "TypeError: Cannot read properties of undefined (reading 'chunk')"
      end
  end.

(** [options.providerId || this.defaultProviderId] *)
Definition selectedProvider (options : IndexingOptions) (v : VoidIndexing) : string :=
  Prompt.orString (providerId options) (defaultProviderId v).

(** The storing loop of [indexFile]; a cancelled token is met at the top of
    an iteration. *)
Fixpoint storeChunks (providerId : string) (token : option CancellationToken)
    (chunks : list Chunk) (v : VoidIndexing) : Result (bool * VoidIndexing) :=
  match chunks with
  | [] => Ok (true, v)
  | chunk :: rest =>
      if requested token then Ok (false, v)
      else
        let* embeddings :=
          computeEmbeddings providerId [Chunking.content chunk] token (embeddingService v) in
        storeChunks providerId token rest
          (mkVoidIndexing (embeddingService v) (semanticSearch v) (chunkingStrategies v)
             (promptBuilder v)
             (Storage.storeDocument (Chunking.id chunk) (Chunking.content chunk)
                (head embeddings) (Chunking.metadata chunk) (storage v))
             (defaultProviderId v))
  end.

(** [indexFile]; [now] is [new Date().toISOString()]. *)
Definition indexFile (fuel : nat) (now : string) (filePath content : string)
    (options : IndexingOptions) (token : option CancellationToken) (v : VoidIndexing)
    : Result (list Chunk * VoidIndexing) :=
  if requested token then Ok ([], v)
  else
    let fileName := afterLast "/" filePath in
    let fileExtension := if includes "." fileName then afterLast "." fileName else "" in
    let language := getLanguageFromExtension fileExtension in
    let metadata :=
      mkMetadata None None None None (Some language) (Some fileName) (Some filePath)
                 (Some fileExtension) (Some now) in
    let* chunkingStrategy := strategyFor options v in
    let* chunks := chunkingStrategy fuel content (Some metadata) token in
    if requested token then Ok ([], v)
    else
      let providerId := selectedProvider options v in
      match getProvider providerId (embeddingService v) with
      | None => Throw ("No embedding provider found with id: " +:+ providerId)
      | Some _ =>
          let* stored := storeChunks providerId token chunks v in
          Ok (if fst stored then chunks else [], snd stored)
      end.

(** [indexContent(content, metadata = {}, options = {}, token?)] *)
Definition indexContent (fuel : nat) (content : string) (metadata : Metadata)
    (options : IndexingOptions) (token : option CancellationToken) (v : VoidIndexing)
    : Result (option Chunk * VoidIndexing) :=
  if requested token then Ok (None, v)
  else
    let* chunkingStrategy := strategyFor options v in
    let* chunks := chunkingStrategy fuel content (Some metadata) token in
    if requested token then Ok (None, v)
    else match chunks with
         | [] => Ok (None, v)
         | chunk :: _ =>
             let providerId := selectedProvider options v in
             let* embeddings :=
               computeEmbeddings providerId [Chunking.content chunk] token
                 (embeddingService v) in
             Ok (Some chunk,
                 mkVoidIndexing (embeddingService v) (semanticSearch v)
                   (chunkingStrategies v) (promptBuilder v)
                   (Storage.storeDocument (Chunking.id chunk) (Chunking.content chunk)
                      (head embeddings) (Chunking.metadata chunk) (storage v))
                   (defaultProviderId v))
         end.

(** [search]: the semantic search engine answers, from its own documents. *)
Definition search (query : string) (options : Search.SemanticSearchOptions)
    (token : option CancellationToken) (v : VoidIndexing) : Result (list SearchResult) :=
  if requested token then Ok []
  else
    let providerId := defaultProviderId v in
    let* searchResults :=
      Search.search (embeddingService v) query providerId options token (semanticSearch v) in
    Ok (map (fun result =>
               mkSearchResult (Search.id result) (Search.content result) (Search.score result)
                 (default noMetadata (Search.metadata result)))
            searchResults).

Record BuildPromptOptions := mkBuildPromptOptions {
  maxContextItems : option Z;
  searchThreshold : option R;
  modelCapabilities : option Prompt.ModelCapabilities;
  systemInfo : option (list (string * string))
}.

Definition noBuildPromptOptions : BuildPromptOptions :=
  mkBuildPromptOptions None None None None.

(** The result that [buildPrompt] returns when cancelled. *)
Definition cancelledPrompt (query : string) : Prompt.PromptResult :=
  Prompt.mkPromptResult None query (Prompt.mkPromptMetadata 0 0 0).

(** [options.searchThreshold || 0.7] *)
Definition orThreshold (x : option R) : R :=
  match x with
  | Some t => if Req_dec_T t 0 then (7 / 10)%R else t
  | None => (7 / 10)%R
  end.

Definition buildPrompt (query : string) (options : BuildPromptOptions)
    (token : option CancellationToken) (v : VoidIndexing) : Result Prompt.PromptResult :=
  if requested token then Ok (cancelledPrompt query)
  else
    let* results :=
      search query
        (Search.mkSearchOptions (Some (Prompt.orNumber (maxContextItems options) 5))
           (Some (orThreshold (searchThreshold options))) None None None)
        token v in
    if requested token then Ok (cancelledPrompt query)
    else
      let snippets :=
        map (fun result =>
               Prompt.mkSnippet (content result)
                 (Prompt.orNumber (startLine (metadata result)) 0)
                 (Prompt.orNumber (endLine (metadata result)) 0)
                 (score result) 0
                 (Some (Prompt.mkSnippetMetadata
                          (Some (Prompt.orString (fileName (metadata result)) "unknown"))
                          (Some (Prompt.orString (language (metadata result)) "plaintext")))))
            results in
      Ok (Prompt.buildPrompt (promptBuilder v)
            (Prompt.mkContext query snippets (systemInfo options)
               (modelCapabilities options))).

(** The calls that change a facade, and the states it goes through. *)
Inductive Call :=
| RegisterEmbeddingProvider (id : string) (provider : EmbeddingProvider)
| SetDefaultProviderId (id : string)
| RegisterASTParser (strategy : ChunkingStrategy)
| IndexFile (fuel : nat) (now filePath content : string) (options : IndexingOptions)
    (token : option CancellationToken)
| IndexContent (fuel : nat) (content : string) (metadata : Metadata)
    (options : IndexingOptions) (token : option CancellationToken).

Definition run (c : Call) (v : VoidIndexing) : Result VoidIndexing :=
  match c with
  | RegisterEmbeddingProvider id provider => Ok (registerEmbeddingProvider id provider v)
  | SetDefaultProviderId id => setDefaultProviderId id v
  | RegisterASTParser strategy => Ok (registerASTParser strategy v)
  | IndexFile fuel now filePath content options token =>
      let* r := indexFile fuel now filePath content options token v in Ok (snd r)
  | IndexContent fuel content metadata options token =>
      let* r := indexContent fuel content metadata options token v in Ok (snd r)
  end.

Inductive reachable : VoidIndexing → Prop :=
| reachable_new config semantic : reachable (newVoidIndexing config semantic)
| reachable_run v c v' : reachable v → run c v = Ok v' → reachable v'.

(** A facade built with the provider above and nothing else configured.
    Its strategy for [Semantic] is the fixed-size one, the strategy embedded
    here. *)
Definition exampleFacade : VoidIndexing :=
  newVoidIndexing
    (mkConfig (Some Search.axisProvider) None Prompt.noTemplate
       (mkPartialOptions None None None) None)
    (FixedSize_chunk (withDefaults (mkPartialOptions None None None))).

Definition exampleIndexed : list Chunk * VoidIndexing :=
  match indexFile 1 "2024-01-01T00:00:00.000Z" "src/a.ts" "query" noIndexingOptions None
          exampleFacade with
  | Ok r => r
  | _ => ([], exampleFacade)
  end.

End Orchestrator.

(* ===================================================================== *)
(** * Part II: properties                                                 *)
(* ===================================================================== *)

(** A test on two reals that linear arithmetic settles: keep the branch that
    is taken. *)
Ltac settle_real_test :=
  match goal with
  | |- context [Rge_dec ?a ?b] =>
      first [ destruct (Rge_dec a b) as [_|?]; [|exfalso; lra]
            | destruct (Rge_dec a b) as [?|_]; [exfalso; lra|] ]
  | |- context [Rgt_dec ?a ?b] =>
      first [ destruct (Rgt_dec a b) as [_|?]; [|exfalso; nra]
            | destruct (Rgt_dec a b) as [?|_]; [exfalso; nra|] ]
  | |- context [Rlt_dec ?a ?b] =>
      first [ destruct (Rlt_dec a b) as [_|?]; [|exfalso; lra]
            | destruct (Rlt_dec a b) as [?|_]; [exfalso; lra|] ]
  | |- context [Req_dec_T ?a ?b] =>
      first [ destruct (Req_dec_T a b) as [_|?]; [|exfalso; lra]
            | destruct (Req_dec_T a b) as [?|_]; [exfalso; lra|] ]
  end.

(** ** Context keys *)

Section ContextKeyFacts.
Import ContextKeys.

Lemma wf_new : wf newContextKeyService.
Proof.
  unfold wf, newContextKeyService; simpl. split; [|split; [|split]].
  - intros r o Hr. apply lookup_singleton_Some in Hr as [<- <-]. simpl.
    split; [reflexivity|]. split; [lia|]. intros p Hp. discriminate.
  - intros i r Hi. apply lookup_singleton_Some in Hi as [<- <-].
    split; [reflexivity|]. rewrite lookup_singleton_eq. eauto.
  - rewrite lookup_singleton_eq. eauto.
  - lia.
Qed.

(** Replacing the value map or the parent of one object keeps the store
    well formed, provided the parent is an object of the store. *)
Lemma wf_update_object s c o vm par :
  wf s → objects s !! c = Some o →
  (∀ p, par = Some p → is_Some (objects s !! p)) →
  wf (mkService (<[c := mkContext (id o) vm par]> (objects s))
                (_lastContextId s) (_contexts s)).
Proof.
  intros (Hobj & Hctx & Hroot & Hlast) Hc Hpar.
  assert (Hkeep : ∀ p, is_Some (objects s !! p) →
            is_Some (<[c := mkContext (id o) vm par]> (objects s) !! p)).
  { intros p Hs. destruct (decide (c = p)) as [->|Hne].
    - rewrite lookup_insert_eq. eauto.
    - rewrite lookup_insert_ne by done. exact Hs. }
  unfold wf; simpl. split; [|split; [|split]].
  - intros r o' Hr. destruct (decide (c = r)) as [->|Hne].
    + rewrite lookup_insert_eq in Hr. injection Hr as <-. simpl.
      destruct (Hobj _ _ Hc) as (Hid & Hrange & Hp).
      split; [exact Hid|]. split; [exact Hrange|].
      intros p Hpp. auto.
    + rewrite lookup_insert_ne in Hr by done.
      destruct (Hobj _ _ Hr) as (Hid & Hrange & Hp).
      split; [exact Hid|]. split; [exact Hrange|].
      intros p Hpp. auto.
  - intros i r Hi. destruct (Hctx _ _ Hi) as [-> Hs]. auto.
  - auto.
  - exact Hlast.
Qed.

Lemma wf_update_value s c o vm :
  wf s → objects s !! c = Some o →
  wf (mkService (<[c := mkContext (id o) vm (_parent o)]> (objects s))
                (_lastContextId s) (_contexts s)).
Proof.
  intros Hwf Hc. apply wf_update_object; [exact Hwf|exact Hc|].
  destruct Hwf as (Hobj & _). destruct (Hobj _ _ Hc) as (_ & _ & Hp). exact Hp.
Qed.

Lemma Context_setValue_spec h c key v :
  snd (Context_setValue h c key v) =
    match h !! c with
    | Some o => <[c := mkContext (id o) (<[key := v]> (_value o)) (_parent o)]> h
    | None => h
    end.
Proof.
  unfold Context_setValue; simpl. apply map_eq; intros i.
  destruct (decide (c = i)) as [->|Hne].
  - rewrite lookup_alter_eq. destruct (h !! i) eqn:E; simpl.
    + rewrite lookup_insert_eq. reflexivity.
    + rewrite E. reflexivity.
  - rewrite lookup_alter_ne by done.
    destruct (h !! c); [rewrite lookup_insert_ne by done|]; reflexivity.
Qed.

Lemma Context_updateParent_spec h c parent :
  Context_updateParent h c parent =
    match h !! c with
    | Some o => <[c := mkContext (id o) (_value o) (Some parent)]> h
    | None => h
    end.
Proof.
  unfold Context_updateParent. apply map_eq; intros i.
  destruct (decide (c = i)) as [->|Hne].
  - rewrite lookup_alter_eq. destruct (h !! i) eqn:E; simpl.
    + rewrite lookup_insert_eq. reflexivity.
    + rewrite E. reflexivity.
  - rewrite lookup_alter_ne by done.
    destruct (h !! c); [rewrite lookup_insert_ne by done|]; reflexivity.
Qed.

Lemma wf_setValue s c key v :
  wf s →
  wf (mkService (snd (Context_setValue (objects s) c key v))
                (_lastContextId s) (_contexts s)).
Proof.
  intros Hwf. rewrite Context_setValue_spec.
  destruct (objects s !! c) eqn:E.
  - apply wf_update_value; assumption.
  - destruct s; exact Hwf.
Qed.

Lemma wf_removeValue s c key :
  wf s →
  wf (mkService (snd (Context_removeValue (objects s) c key))
                (_lastContextId s) (_contexts s)).
Proof.
  intros Hwf. unfold Context_removeValue.
  destruct (objects s !! c) eqn:E; [|destruct s; exact Hwf].
  destruct (_value c0 !! key); [|destruct s; exact Hwf].
  simpl. apply wf_update_value; assumption.
Qed.

Lemma wf_updateParent s c parent :
  wf s → is_Some (objects s !! parent) →
  wf (mkService (Context_updateParent (objects s) c parent)
                (_lastContextId s) (_contexts s)).
Proof.
  intros Hwf Hparent. rewrite Context_updateParent_spec.
  destruct (objects s !! c) eqn:E.
  - apply wf_update_object; [exact Hwf|exact E|]. intros p [= <-]. exact Hparent.
  - destruct s; exact Hwf.
Qed.

Lemma wf_setContext s key v : wf s → wf (setContext key v s).
Proof.
  intros Hwf. unfold setContext. destruct (_contexts s !! 1%nat); [|exact Hwf].
  apply wf_setValue, Hwf.
Qed.

Lemma wf_removeContext s key : wf s → wf (removeContext key s).
Proof.
  intros Hwf. unfold removeContext. destruct (_contexts s !! 1%nat); [|exact Hwf].
  apply wf_removeValue, Hwf.
Qed.

Lemma wf_reset s k : wf s → wf (ContextKey_reset k s).
Proof.
  intros Hwf. unfold ContextKey_reset.
  destruct (_defaultValue k); auto using wf_setContext, wf_removeContext.
Qed.

Lemma wf_disposeContext s i : wf s → wf (disposeContext i s).
Proof.
  intros (Hobj & Hctx & Hroot & Hlast). unfold wf, disposeContext; simpl.
  split; [exact Hobj|]. split; [|split; assumption].
  intros j r Hj. apply lookup_delete_Some in Hj as [_ Hj]. apply (Hctx _ _ Hj).
Qed.

Lemma wf_createChildContext s p i s' :
  wf s → createChildContext p s = Ok (i, s') → wf s'.
Proof.
  intros (Hobj & Hctx & [o1 Ho1] & Hlast).
  unfold createChildContext, getContextValuesContainer.
  destruct (_contexts s !! default 1%nat p) as [par|] eqn:Epar; simpl; [|discriminate].
  intros [= <- <-]. destruct (Hctx _ _ Epar) as [Hpar [opar Hopar]].
  assert (Hfresh : objects s !! S (_lastContextId s) = None).
  { destruct (objects s !! S (_lastContextId s)) eqn:E; [|reflexivity].
    apply Hobj in E. lia. }
  assert (Hparle : (par ≤ _lastContextId s)%nat).
  { apply Hobj in Hopar. lia. }
  unfold wf; simpl. split; [|split; [|split]].
  - intros r o Hr. destruct (decide (S (_lastContextId s) = r)) as [<-|Hne].
    + rewrite lookup_insert_eq in Hr. injection Hr as <-. simpl.
      split; [reflexivity|]. split; [lia|].
      intros q [= <-]. rewrite lookup_insert_ne by lia. eauto.
    + rewrite lookup_insert_ne in Hr by done.
      destruct (Hobj _ _ Hr) as (Hid & Hrange & Hp).
      split; [exact Hid|]. split; [lia|].
      intros q Hq. destruct (Hp _ Hq) as [oq Hoq].
      destruct (decide (S (_lastContextId s) = q)) as [<-|Hq'].
      * rewrite lookup_insert_eq. eauto.
      * rewrite lookup_insert_ne by done. eauto.
  - intros j r Hj. destruct (decide (S (_lastContextId s) = j)) as [<-|Hne].
    + rewrite lookup_insert_eq in Hj. injection Hj as <-.
      split; [reflexivity|]. rewrite lookup_insert_eq. eauto.
    + rewrite lookup_insert_ne in Hj by done.
      destruct (Hctx _ _ Hj) as [-> Hs]. split; [reflexivity|].
      rewrite lookup_insert_ne by done. exact Hs.
  - rewrite lookup_insert_ne by lia. eauto.
  - lia.
Qed.

Lemma wf_run s c s' : wf s → run c s = Ok s' → wf s'.
Proof.
  intros Hwf. destruct c; simpl.
  - intros [= <-]. apply wf_reset, Hwf.
  - intros [= <-]. apply wf_setContext, Hwf.
  - intros [= <-]. apply wf_reset, Hwf.
  - intros [= <-]. apply wf_setContext, Hwf.
  - intros [= <-]. apply wf_removeContext, Hwf.
  - destruct (createChildContext parentContextId s) as [[i s'']| |] eqn:E;
      simpl; try discriminate.
    intros [= <-]. eapply wf_createChildContext; eassumption.
  - intros [= <-]. apply wf_disposeContext, Hwf.
  - intros [= <-]. apply wf_setValue, Hwf.
  - intros [= <-]. apply wf_removeValue, Hwf.
  - destruct (objects s !! parent) eqn:E; intros [= <-]; [|exact Hwf].
    apply wf_updateParent; [exact Hwf|]. rewrite E. eauto.
Qed.

Lemma reachable_wf s : reachable s → wf s.
Proof.
  induction 1 as [|s c s' _ IH Hrun]; [apply wf_new|].
  eapply wf_run; eassumption.
Qed.

(** *** Lookups that return *)

Lemma getValue_fuel_step fuel h c key :
  Context_getValue_fuel (S fuel) h c key =
    match h !! c with
    | None => None
    | Some o =>
        match _value o !! key with
        | Some v => Some v
        | None =>
            match _parent o with
            | Some p => Context_getValue_fuel fuel h p key
            | None => Some VUndefined
            end
        end
    end.
Proof. reflexivity. Qed.

(** More fuel does not change a lookup that has returned. *)
Lemma getValue_fuel_mono h key :
  ∀ n c v, Context_getValue_fuel n h c key = Some v →
    ∀ m, (n ≤ m)%nat → Context_getValue_fuel m h c key = Some v.
Proof.
  induction n as [|n IH]; intros c v Hn m Hm; [discriminate|].
  destruct m as [|m]; [lia|]. rewrite getValue_fuel_step in Hn |- *.
  destruct (h !! c) as [o|]; [|discriminate].
  destruct (_value o !! key); [exact Hn|].
  destruct (_parent o) as [p|]; [|exact Hn].
  apply (IH p v Hn). lia.
Qed.

Lemma collectAllValues_fuel_mono h :
  ∀ n c m, Context_collectAllValues_fuel n h c = Some m →
    ∀ n', (n ≤ n')%nat → Context_collectAllValues_fuel n' h c = Some m.
Proof.
  induction n as [|n IH]; intros c m Hn n' Hn'; [discriminate|].
  destruct n' as [|n']; [lia|]. simpl in Hn |- *.
  destruct (h !! c) as [o|]; [|discriminate].
  destruct (_parent o) as [p|]; [|exact Hn].
  destruct (Context_collectAllValues_fuel n h p) as [inherited|] eqn:E; [|discriminate].
  rewrite (IH p inherited E n') by lia. exact Hn.
Qed.

(** The way up from a context is determined by the store. *)
Lemma climbs_functional h stop c n :
  climbs h stop c n → ∀ n', climbs h stop c n' → n = n'.
Proof.
  induction 1 as [c o Hc Hstop|c o p n Hc Hstop Hp _ IH]; intros n' Hn'.
  - inversion Hn' as [c' o' Hc' _|c' o' p' m Hc' Hstop' _ _]; subst; [reflexivity|].
    rewrite Hc in Hc'. injection Hc' as <-. contradiction.
  - inversion Hn' as [c' o' Hc' Hstop'|c' o' p' m Hc' _ Hp' Hm]; subst.
    + rewrite Hc in Hc'. injection Hc' as <-. contradiction.
    + rewrite Hc in Hc'. injection Hc' as <-. rewrite Hp in Hp'. injection Hp' as <-.
      f_equal. apply IH, Hm.
Qed.

(** It passes through as many different objects as it has steps. *)
Lemma climbs_visits h stop c n :
  climbs h stop c n →
  ∃ l : list nat, length l = n ∧ NoDup l ∧
    Forall (fun x => is_Some (h !! x) ∧ ∃ j, (j ≤ n)%nat ∧ climbs h stop x j) l.
Proof.
  induction 1 as [c o Hc Hstop|c o p n Hc Hstop Hp Hclimb IH].
  - exists [c]. split; [reflexivity|]. split; [apply NoDup_singleton|].
    apply Forall_singleton. split; [eauto|]. exists 1%nat. split; [lia|].
    eapply climbs_stop; eassumption.
  - destruct IH as (l & Hlen & Hnodup & Hall). exists (c :: l).
    split; [simpl; lia|]. split.
    + apply NoDup_cons. split; [|exact Hnodup]. intros Hin.
      rewrite Forall_forall in Hall. destruct (Hall _ Hin) as (_ & j & Hj & Hcj).
      assert (Hcn : climbs h stop c (S n)) by (eapply climbs_up; eassumption).
      pose proof (climbs_functional _ _ _ _ Hcn _ Hcj). lia.
    + apply Forall_cons. split.
      * split; [eauto|]. exists (S n). split; [lia|]. eapply climbs_up; eassumption.
      * eapply Forall_impl; [exact Hall|]. intros x (Hx & j & Hj & Hcj).
        split; [exact Hx|]. exists j. split; [lia|exact Hcj].
Qed.

(** So it has at most as many steps as the store has objects. *)
Lemma climbs_bound h stop c n : climbs h stop c n → (n ≤ size h)%nat.
Proof.
  intros Hclimb. destruct (climbs_visits _ _ _ _ Hclimb) as (l & <- & Hnodup & Hall).
  rewrite <- size_dom, <- (size_list_to_set (C := gset nat) l) by exact Hnodup.
  apply subseteq_size. intros x Hx. apply elem_of_list_to_set in Hx.
  rewrite Forall_forall in Hall. destruct (Hall _ Hx) as [Hsome _].
  apply elem_of_dom. exact Hsome.
Qed.

(** A lookup that returns went up to the first context that answers. *)
Lemma getValue_fuel_climbs h key :
  ∀ n c v, Context_getValue_fuel n h c key = Some v →
    ∃ j, climbs h (answers key) c j ∧ Context_getValue_fuel j h c key = Some v.
Proof.
  induction n as [|n IH]; intros c v Hn; [discriminate|].
  rewrite getValue_fuel_step in Hn.
  destruct (h !! c) as [o|] eqn:Ec; [|discriminate].
  destruct (_value o !! key) as [w|] eqn:Ev.
  - exists 1%nat. split.
    + eapply climbs_stop; [exact Ec|]. left. rewrite Ev. eauto.
    + rewrite getValue_fuel_step, Ec, Ev. exact Hn.
  - destruct (_parent o) as [p|] eqn:Ep.
    + destruct (IH p v Hn) as (j & Hclimb & Hj). exists (S j). split.
      * eapply climbs_up; [exact Ec| |exact Ep|exact Hclimb].
        intros [[w Hw]|Hnone]; congruence.
      * rewrite getValue_fuel_step, Ec, Ev, Ep. exact Hj.
    + exists 1%nat. split.
      * eapply climbs_stop; [exact Ec|]. right. exact Ep.
      * rewrite getValue_fuel_step, Ec, Ev, Ep. exact Hn.
Qed.

(** As many calls as the store has objects settle a lookup: with more fuel
    it returns the same value, or does not return either. *)
Lemma getValue_fuel_saturated h key n c :
  (size h ≤ n)%nat →
  Context_getValue_fuel n h c key = Context_getValue h c key.
Proof.
  intros Hn. unfold Context_getValue.
  destruct (Context_getValue_fuel n h c key) as [v|] eqn:E.
  - destruct (getValue_fuel_climbs _ _ _ _ _ E) as (j & Hclimb & Hj).
    symmetry. apply (getValue_fuel_mono _ _ _ _ _ Hj). eapply climbs_bound, Hclimb.
  - destruct (Context_getValue_fuel (size h) h c key) as [v|] eqn:E'; [|reflexivity].
    rewrite (getValue_fuel_mono _ _ _ _ _ E' n Hn) in E. discriminate.
Qed.

(** The first call of a lookup. *)
Lemma getValue_unfold h c key o :
  h !! c = Some o →
  Context_getValue h c key =
    match _value o !! key with
    | Some v => Some v
    | None =>
        match _parent o with
        | Some p => Context_getValue h p key
        | None => Some VUndefined
        end
    end.
Proof.
  intros Hc. rewrite <- (getValue_fuel_saturated h key (S (size h)) c) by lia.
  rewrite getValue_fuel_step, Hc. reflexivity.
Qed.

Lemma getValue_absent h c key : h !! c = None → Context_getValue h c key = None.
Proof.
  intros Hc. unfold Context_getValue. destruct (size h); [reflexivity|].
  rewrite getValue_fuel_step, Hc. reflexivity.
Qed.

(** A lookup of [key] only depends on the parents and on what each object
    binds [key] to. *)
Lemma getValue_fuel_ext h h' key :
  (∀ r, match h !! r, h' !! r with
        | Some o, Some o' => _parent o' = _parent o ∧ _value o' !! key = _value o !! key
        | None, None => True
        | _, _ => False
        end) →
  ∀ fuel c, Context_getValue_fuel fuel h' c key = Context_getValue_fuel fuel h c key.
Proof.
  intros Hsame. induction fuel as [|fuel IH]; intros c; [reflexivity|].
  simpl. specialize (Hsame c).
  destruct (h !! c) as [o|], (h' !! c) as [o'|]; try done.
  destruct Hsame as [-> ->].
  destruct (_value o !! key); [reflexivity|].
  destruct (_parent o); [apply IH|reflexivity].
Qed.

(** A lookup only reads the objects on its way. *)
Lemma getValue_fuel_frame h h' key (on : nat → Prop) :
  (∀ x, on x → h' !! x = h !! x) →
  (∀ x o p, on x → h !! x = Some o → _parent o = Some p → on p) →
  ∀ fuel c, on c →
    Context_getValue_fuel fuel h' c key = Context_getValue_fuel fuel h c key.
Proof.
  intros Hsame Hup. induction fuel as [|fuel IH]; intros c Hc; [reflexivity|].
  rewrite !getValue_fuel_step, (Hsame c Hc).
  destruct (h !! c) as [o|] eqn:Ec; [|reflexivity].
  destruct (_value o !! key); [reflexivity|].
  destruct (_parent o) as [p|] eqn:Ep; [|reflexivity].
  apply IH. eapply Hup; eassumption.
Qed.

Lemma size_alter (h : gmap nat Context) f c : size (alter f c h) = size h.
Proof. rewrite <- !size_dom, dom_alter_L. reflexivity. Qed.

Lemma size_insert_present (h : gmap nat Context) c o o' :
  h !! c = Some o → size (<[c := o']> h) = size h.
Proof.
  intros Hc. rewrite <- !size_dom, dom_insert_lookup_L by eauto. reflexivity.
Qed.

Lemma size_insert_fresh (h : gmap nat Context) c o' :
  h !! c = None → size (<[c := o']> h) = S (size h).
Proof. intros Hc. apply map_size_insert_None, Hc. Qed.

End ContextKeyFacts.

Section ContextKeyClaims.
Import ContextKeys.

Lemma wf_root_registered s r : wf s → _contexts s !! 1%nat = Some r → r = 1%nat.
Proof. intros (_ & Hctx & _) Hr. apply Hctx in Hr. tauto. Qed.

(** [setContext] writes the own map of the root object and nothing else. *)
Lemma setContext_objects s key v :
  wf s → _contexts s !! 1%nat = Some 1%nat →
  ∃ o, objects s !! 1%nat = Some o ∧
       objects (setContext key v s) =
         <[1%nat := mkContext (id o) (<[key := v]> (_value o)) (_parent o)]> (objects s).
Proof.
  intros (_ & _ & [o Ho] & _) Hroot. exists o. split; [exact Ho|].
  unfold setContext. rewrite Hroot. cbn [objects].
  rewrite Context_setValue_spec, Ho. reflexivity.
Qed.

Lemma setContext_frame s key v c :
  wf s → c ≠ 1%nat → objects (setContext key v s) !! c = objects s !! c.
Proof.
  intros Hwf Hc. unfold setContext.
  destruct (_contexts s !! 1%nat) as [r|] eqn:Er; [|reflexivity].
  apply (wf_root_registered _ _ Hwf) in Er as ->. cbn [objects].
  unfold Context_setValue; simpl. rewrite lookup_alter_ne by done. reflexivity.
Qed.

Lemma removeContext_frame s key c :
  wf s → c ≠ 1%nat → objects (removeContext key s) !! c = objects s !! c.
Proof.
  intros Hwf Hc. unfold removeContext.
  destruct (_contexts s !! 1%nat) as [r|] eqn:Er; [|reflexivity].
  apply (wf_root_registered _ _ Hwf) in Er as ->. cbn [objects].
  unfold Context_removeValue.
  destruct (objects s !! 1%nat) as [o|]; [|reflexivity].
  destruct (_value o !! key); [|reflexivity].
  simpl. rewrite lookup_insert_ne by done. reflexivity.
Qed.

Lemma setContext_root_value s key v :
  wf s → _contexts s !! 1%nat = Some 1%nat →
  Context_getValue (objects (setContext key v s)) 1%nat key = Some v.
Proof.
  intros Hwf Hroot. destruct (setContext_objects s key v Hwf Hroot) as (o & Ho & ->).
  erewrite getValue_unfold by apply lookup_insert_eq. simpl.
  rewrite lookup_insert_eq. reflexivity.
Qed.

(** [removeContext] leaves the root without a binding of the key. *)
Lemma removeContext_root_object s key :
  wf s → _contexts s !! 1%nat = Some 1%nat →
  ∃ o', objects (removeContext key s) !! 1%nat = Some o' ∧ _value o' !! key = None.
Proof.
  intros (_ & _ & [o Ho] & _) Hroot.
  unfold removeContext. rewrite Hroot. cbn [objects].
  unfold Context_removeValue. rewrite Ho.
  destruct (_value o !! key) eqn:Ev; simpl.
  - rewrite lookup_insert_eq. eexists; split; [reflexivity|]. simpl.
    apply lookup_delete_eq.
  - eauto.
Qed.

Lemma setContext_contexts s key v : _contexts (setContext key v s) = _contexts s.
Proof. unfold setContext. destruct (_contexts s !! 1%nat); reflexivity. Qed.

Lemma removeContext_contexts s key : _contexts (removeContext key s) = _contexts s.
Proof. unfold removeContext. destruct (_contexts s !! 1%nat); reflexivity. Qed.



Lemma serviceWithChild_reachable : reachable serviceWithChild.
Proof.
  eapply reachable_run; [apply reachable_new|].
  instantiate (1 := CreateChildContext None). reflexivity.
Defined.




Lemma serviceWithBoundChild_reachable : reachable serviceWithBoundChild.
Proof.
  eapply reachable_run; [apply serviceWithChild_reachable|].
  instantiate (1 := SetValue 2%nat "k" (VString "own")). reflexivity.
Qed.

(** A context that inherits the key from the root reads what the root
    reads, in any store that agrees below the root with the one the chain
    was taken in. *)
Lemma getValue_inherits h h' key c :
  (∀ x, x ≠ 1%nat → h' !! x = h !! x) →
  inherits h key c 1%nat →
  Context_getValue h' c key = Context_getValue h' 1%nat key.
Proof.
  intros Hsame. induction 1 as [|c o p r Hc Hv Hp Hin IH]; [reflexivity|].
  destruct (decide (c = r)) as [->|Hne]; [reflexivity|].
  rewrite <- (IH Hsame).
  erewrite getValue_unfold by (rewrite Hsame by exact Hne; exact Hc).
  rewrite Hv, Hp. reflexivity.
Qed.

(** C10, as stated, fails at a child that binds the key itself, which is
    the state the test of the hierarchy builds: after [setValue('k', 'own')]
    on the child, [set('v')] of the key ['k'] is not observed by the child,
    which keeps reading ['own'].  It also fails once the root has been
    disposed: [set] then changes nothing, and the child reads [undefined]. *)
Lemma C10_shadowed_child_counterexample :
  reachable serviceWithBoundChild ∧
  Context_getValue
    (objects (ContextKey_set (mkContextKey "k" VUndefined) (VString "v")
                serviceWithBoundChild))
    2%nat "k" = Some (VString "own") ∧
  reachable (disposeContext 1%nat serviceWithChild) ∧
  Context_getValue
    (objects (ContextKey_set (mkContextKey "k" VUndefined) (VString "v")
                (disposeContext 1%nat serviceWithChild)))
    2%nat "k" = Some VUndefined.
Proof.
  split; [apply serviceWithBoundChild_reachable|]. split; [reflexivity|].
  split; [|reflexivity].
  eapply reachable_run; [apply serviceWithChild_reachable|].
  instantiate (1 := DisposeContext 1%nat). reflexivity.
Qed.

(** C10 (amended): [set] and [reset] of a context key write the own value
    map of the root context only.  Every other context object is left as it
    was (so no child gains or loses a binding of its own), the root keeps its
    id and parent, and the registered contexts stay the same; when the root
    has been disposed the call changes nothing at all.  The new value is not
    observed by every child.  When the root is registered, a context whose
    parent chain reaches the root without an own binding of the key on the
    way reads what the root reads: the new value after [set] and after the
    [reset] of a key that has a default; after the [reset] of a key without
    default the root has no binding of the key, and reads [undefined] if it
    has no parent. *)
Theorem C10_contextkey_set_reset_root_only :
  ∀ s k newv s',
    reachable s →
    (s' = ContextKey_set k newv s ∨
     (s' = ContextKey_reset k s ∧ newv = _defaultValue k)) →
    (∀ c, c ≠ 1%nat → objects s' !! c = objects s !! c) ∧
    (∀ o, objects s !! 1%nat = Some o →
       ∃ o', objects s' !! 1%nat = Some o' ∧ id o' = id o ∧ _parent o' = _parent o) ∧
    _contexts s' = _contexts s ∧
    (_contexts s !! 1%nat = None → s' = s) ∧
    (_contexts s !! 1%nat = Some 1%nat →
       (∀ c, inherits (objects s) (_key k) c 1%nat →
          Context_getValue (objects s') c (_key k)
            = Context_getValue (objects s') 1%nat (_key k)) ∧
       (s' = ContextKey_set k newv s ∨ newv ≠ VUndefined →
          Context_getValue (objects s') 1%nat (_key k) = Some newv) ∧
       (s' = ContextKey_reset k s → _defaultValue k = VUndefined →
          ∃ o', objects s' !! 1%nat = Some o' ∧ _value o' !! _key k = None ∧
                (_parent o' = None →
                   Context_getValue (objects s') 1%nat (_key k) = Some VUndefined))).
Proof.
  intros s k newv s' Hreach Hs'. pose proof (reachable_wf _ Hreach) as Hwf.
  assert (Hcases : (s' = setContext (_key k) newv s) ∨
                   (s' = removeContext (_key k) s ∧ newv = VUndefined
                    ∧ _defaultValue k = VUndefined)).
  { destruct Hs' as [->|[-> ->]]; [left; reflexivity|].
    unfold ContextKey_reset. destruct (_defaultValue k); auto. }
  clear Hs'.
  assert (Hframe : ∀ c, c ≠ 1%nat → objects s' !! c = objects s !! c).
  { intros c Hc. destruct Hcases as [->|[-> _]];
      auto using setContext_frame, removeContext_frame. }
  split; [exact Hframe|]. split; [|split; [|split]].
  - intros o Ho. destruct Hcases as [->|[-> _]].
    + unfold setContext. destruct (_contexts s !! 1%nat) as [r|] eqn:Er; [|eauto].
      apply (wf_root_registered _ _ Hwf) in Er as ->. cbn [objects].
      rewrite Context_setValue_spec, Ho, lookup_insert_eq. eauto.
    + unfold removeContext. destruct (_contexts s !! 1%nat) as [r|] eqn:Er; [|eauto].
      apply (wf_root_registered _ _ Hwf) in Er as ->. cbn [objects].
      unfold Context_removeValue. rewrite Ho.
      destruct (_value o !! _key k); simpl; [rewrite lookup_insert_eq|]; eauto.
  - destruct Hcases as [->|[-> _]];
      auto using setContext_contexts, removeContext_contexts.
  - intros Hnone. destruct Hcases as [->|[-> _]].
    + unfold setContext. rewrite Hnone. reflexivity.
    + unfold removeContext. rewrite Hnone. reflexivity.
  - intros Hroot. split; [|split].
    + intros c Hin. eapply getValue_inherits; eassumption.
    + intros Hset. destruct Hcases as [->|(-> & -> & Hdefault)].
      * apply setContext_root_value; assumption.
      * destruct Hset as [Hset|Hdef]; [|congruence].
        rewrite Hset. apply setContext_root_value; assumption.
    + intros Hreset Hdefault.
      assert (Hremove : s' = removeContext (_key k) s).
      { rewrite Hreset. unfold ContextKey_reset. rewrite Hdefault. reflexivity. }
      destruct (removeContext_root_object s (_key k) Hwf Hroot) as (o' & Ho' & Hv').
      rewrite <- Hremove in Ho'. exists o'. split; [exact Ho'|]. split; [exact Hv'|].
      intros Hp'. rewrite (getValue_unfold _ _ _ _ Ho'), Hv', Hp'. reflexivity.
Qed.

(** At the service with one child: [set('v')] on the key ['k'] leaves the
    child object alone, and the child reads ['v'] through the root. *)
Lemma C10_contextkey_set_reset_root_only_witness :
  objects (ContextKey_set (mkContextKey "k" VUndefined) (VString "v") serviceWithChild)
    !! 2%nat = objects serviceWithChild !! 2%nat ∧
  Context_getValue
    (objects (ContextKey_set (mkContextKey "k" VUndefined) (VString "v") serviceWithChild))
    2%nat "k" = Some (VString "v").
Proof.
  pose proof (C10_contextkey_set_reset_root_only serviceWithChild
                (mkContextKey "k" VUndefined) (VString "v") _
                serviceWithChild_reachable (or_introl eq_refl))
    as (Hframe & _ & _ & _ & Hread).
  destruct (Hread eq_refl) as (Hchain & Hroot & _).
  split.
  - apply Hframe. lia.
  - rewrite Hchain.
    + apply Hroot. left. reflexivity.
    + eapply inherits_up; [reflexivity|reflexivity|reflexivity|apply inherits_here].
Defined.

End ContextKeyClaims.




(** ** The sparse index *)

Section TfIdfClaims.
Import Cancellation TfIdf.

Lemma ln_three_halves_pos : (0 < ln (3 / 2))%R.
Proof. rewrite <- ln_1. apply ln_increasing; lra. Qed.

Lemma twoChunkIndex_eq :
  twoChunkIndex =
    mkCalculator 2 {[ "cat" := 2 ]}
      [("doc", [mkChunkEntry "cat" [("cat", 1)]; mkChunkEntry "cat cat" [("cat", 2)]])].
Proof. vm_compute. reflexivity. Qed.

Lemma twoChunkIndex_idf : computeIdf twoChunkIndex "cat" = ln (3 / 2).
Proof.
  rewrite twoChunkIndex_eq. unfold computeIdf. cbn [chunkOccurrences chunkCount].
  rewrite lookup_singleton_eq. simpl. f_equal. lra.
Qed.

Lemma twoChunkIndex_first_chunk :
  computeSimilarityScore twoChunkIndex (mkChunkEntry "cat" [("cat", 1)])
    [("cat", (1 * ln (3 / 2))%R)] ∅ 0
  = ((0 + 1 * ln (3 / 2) * (1 * ln (3 / 2)))%R, {[ "cat" := ln (3 / 2) ]}).
Proof.
  cbn [computeSimilarityScore tf JsMap.get].
  destruct (decide ("cat" = "cat")) as [_|Hne]; [|congruence].
  cbn [Z.eqb]. rewrite lookup_empty. cbn [default]. rewrite twoChunkIndex_idf.
  reflexivity.
Qed.

Lemma twoChunkIndex_second_chunk :
  computeSimilarityScore twoChunkIndex (mkChunkEntry "cat cat" [("cat", 2)])
    [("cat", (1 * ln (3 / 2))%R)] {[ "cat" := ln (3 / 2) ]} 0
  = ((0 + 2 * ln (3 / 2) * (1 * ln (3 / 2)))%R, {[ "cat" := ln (3 / 2) ]}).
Proof.
  cbn [computeSimilarityScore tf JsMap.get].
  destruct (decide ("cat" = "cat")) as [_|Hne]; [|congruence].
  cbn [Z.eqb]. rewrite lookup_singleton_eq. cbn [default].
  reflexivity.
Qed.

(** *** The cache of [calculateScores] and the list it returns *)

Lemma computeSimilarityScore_spec c chunk queryEmbedding :
  ∀ idfCache sum,
    coherent c idfCache →
    fst (computeSimilarityScore c chunk queryEmbedding idfCache sum) =
      fold_left
        (fun sum entry =>
           match JsMap.get (fst entry) (tf chunk) with
           | Some chunkTf =>
               if chunkTf =? 0 then sum
               else (sum + IZR chunkTf * computeIdf c (fst entry) * snd entry)%R
           | None => sum
           end)
        queryEmbedding sum ∧
    coherent c (snd (computeSimilarityScore c chunk queryEmbedding idfCache sum)).
Proof.
  induction queryEmbedding as [|[term termTfidf] rest IH]; intros idfCache sum Hcache;
    cbn [computeSimilarityScore fold_left fst snd]; [auto|].
  destruct (JsMap.get term (tf chunk)) as [chunkTf|]; [|auto].
  destruct (chunkTf =? 0); [auto|].
  destruct (idfCache !! term) as [v|] eqn:Hv; cbn [default].
  - rewrite (Hcache _ _ Hv). apply IH. exact Hcache.
  - apply IH. intros t w Hw. destruct (decide (term = t)) as [->|Hne].
    + rewrite lookup_insert_eq in Hw. congruence.
    + rewrite lookup_insert_ne in Hw by exact Hne. apply (Hcache _ _ Hw).
Qed.

Lemma scoreChunks_spec c k queryEmbedding chunks :
  ∀ idfCache scores,
    coherent c idfCache →
    fst (scoreChunks c k chunks queryEmbedding idfCache scores) =
      scores ++ flat_map
                  (fun chunk =>
                     let s := chunkScore c chunk queryEmbedding in
                     if Rgt_dec s 0 then [mkScore k s] else [])
                  chunks ∧
    coherent c (snd (scoreChunks c k chunks queryEmbedding idfCache scores)).
Proof.
  induction chunks as [|chunk chunks IH]; intros idfCache scores Hcache;
    cbn [scoreChunks flat_map fst snd].
  - rewrite app_nil_r. auto.
  - destruct (computeSimilarityScore_spec c chunk queryEmbedding idfCache 0%R Hcache)
      as [Hscore Hcache'].
    fold (chunkScore c chunk queryEmbedding) in Hscore. rewrite Hscore. cbv zeta.
    destruct (Rgt_dec (chunkScore c chunk queryEmbedding) 0).
    + destruct (IH _ (scores ++ [mkScore k (chunkScore c chunk queryEmbedding)]) Hcache')
        as [-> Hfinal].
      split; [rewrite <- app_assoc; reflexivity|exact Hfinal].
    + apply IH. exact Hcache'.
Qed.

(** What [calculateScores] returns when it is not cancelled: one entry per
    chunk with a positive score, in the order of the documents and of their
    chunks. *)
Lemma calculateScores_spec query c :
  calculateScores query None_ c = positiveChunkScores c (computeEmbedding c query).
Proof.
  unfold calculateScores, positiveChunkScores.
  set (embedding := computeEmbedding c query).
  assert (Hgen : ∀ docs idfCache scores,
            coherent c idfCache →
            scoreDocuments c None_ docs embedding idfCache scores =
              scores ++ flat_map
                          (fun entry =>
                             flat_map
                               (fun chunk =>
                                  let s := chunkScore c chunk embedding in
                                  if Rgt_dec s 0 then [mkScore (fst entry) s] else [])
                               (snd entry))
                          docs).
  { induction docs as [|[k doc] docs IH]; intros idfCache scores Hcache;
      cbn [scoreDocuments flat_map isCancellationRequested None_ fst snd].
    - rewrite app_nil_r. reflexivity.
    - destruct (scoreChunks_spec c k embedding doc idfCache scores Hcache)
        as [Hscores Hcache'].
      rewrite (IH _ _ Hcache'), Hscores, <- app_assoc. reflexivity. }
  apply (Hgen (documents c) ∅ []). intros term v Hv. rewrite lookup_empty in Hv.
  discriminate.
Qed.

(** C2 fails on the code: the index built by
    [updateDocuments([{key: 'doc', textChunks: ['cat', 'cat cat']}])], asked
    for ['cat'], yields two scores under the one key ['doc'], one per chunk,
    and the first of them is not the maximum over the chunks of the
    document. *)
Theorem C2_calculateScores_one_entry_per_chunk :
  calculateScores "cat" None_ twoChunkIndex =
    [mkScore "doc" (ln (3 / 2) * ln (3 / 2));
     mkScore "doc" (2 * (ln (3 / 2) * ln (3 / 2)))] ∧
  (ln (3 / 2) * ln (3 / 2) < 2 * (ln (3 / 2) * ln (3 / 2)))%R.
Proof.
  pose proof ln_three_halves_pos as Hpos.
  split; [|nra].
  unfold calculateScores, computeEmbedding.
  replace (termFrequencies "cat") with [("cat", 1)] by (vm_compute; reflexivity).
  cbn [computeTfidf]. rewrite twoChunkIndex_idf.
  settle_real_test.
  rewrite twoChunkIndex_eq at 2. cbn [documents].
  cbn [scoreDocuments isCancellationRequested None_ scoreChunks].
  rewrite twoChunkIndex_first_chunk. cbn [fst snd]. settle_real_test.
  rewrite twoChunkIndex_second_chunk. cbn [fst snd]. settle_real_test.
  cbn [app].
  replace (0 + 1 * ln (3 / 2) * (1 * ln (3 / 2)))%R
    with (ln (3 / 2) * ln (3 / 2))%R by ring.
  replace (0 + 2 * ln (3 / 2) * (1 * ln (3 / 2)))%R
    with (2 * (ln (3 / 2) * ln (3 / 2)))%R by ring.
  reflexivity.
Qed.

(** *** The counters, for batches that name each key once *)

Lemma JsMap_keys_set (k : string) {V : Type} (v : V) m :
  JsMap.keys (JsMap.set k v m) =
    if bool_decide (k ∈ JsMap.keys m) then JsMap.keys m else JsMap.keys m ++ [k].
Proof.
  unfold JsMap.keys. induction m as [|[k' v'] m IH]; cbn [JsMap.set map fst app].
  { case_bool_decide as Hin; [inversion Hin|reflexivity]. }
  destruct (decide (k = k')) as [->|Hne]; cbn [map fst app].
  - clear IH. case_bool_decide as Hin; [reflexivity|]. exfalso. apply Hin. left.
  - rewrite IH. clear IH.
    case_bool_decide as Hin; case_bool_decide as Hin'; try reflexivity; exfalso.
    + apply Hin'. right. exact Hin.
    + apply elem_of_cons in Hin' as [?|?]; contradiction.
Qed.

Lemma JsMap_set_fresh (k : string) {V : Type} (v : V) m :
  k ∉ JsMap.keys m → JsMap.set k v m = m ++ [(k, v)].
Proof.
  unfold JsMap.keys. induction m as [|[k' v'] m IH]; simpl; intros Hk; [reflexivity|].
  destruct (decide (k = k')) as [->|Hne].
  - exfalso. apply Hk. left.
  - rewrite IH; [reflexivity|]. intros Hin. apply Hk. right. exact Hin.
Qed.

Lemma JsMap_get_None (k : string) {V : Type} (m : list (string * V)) :
  JsMap.get k m = None ↔ k ∉ JsMap.keys m.
Proof.
  unfold JsMap.keys. induction m as [|[k' v'] m IH]; simpl.
  - split; [intros _ Hin; inversion Hin|reflexivity].
  - destruct (decide (k = k')) as [->|Hne].
    + split; [discriminate|]. intros Hk. exfalso. apply Hk. left.
    + rewrite IH. split; intros Hk Hin; apply Hk.
      * apply elem_of_cons in Hin as [?|?]; [contradiction|assumption].
      * right. exact Hin.
Qed.

Lemma JsMap_get_split (k : string) {V : Type} (v : V) (m : list (string * V)) :
  JsMap.get k m = Some v →
  ∃ pre post, m = pre ++ (k, v) :: post ∧ JsMap.delete k m = pre ++ post.
Proof.
  induction m as [|[k' v'] m IH]; simpl; [discriminate|].
  destruct (decide (k = k')) as [->|Hne].
  - intros [= ->]. exists [], m. split; reflexivity.
  - intros Hget. destruct (IH Hget) as (pre & post & -> & ->).
    exists ((k', v') :: pre), post. split; reflexivity.
Qed.

Lemma JsMap_get_elem_of (k : string) {V : Type} (v : V) (m : list (string * V)) :
  NoDup (JsMap.keys m) → (k, v) ∈ m → JsMap.get k m = Some v.
Proof.
  unfold JsMap.keys. induction m as [|[k' v'] m IH]; cbn [map fst JsMap.get];
    intros Hnodup Hin; [inversion Hin|].
  apply NoDup_cons in Hnodup as [Hfresh Hnodup].
  apply elem_of_cons in Hin as [[= -> ->]|Hin].
  - destruct (decide (k' = k')); congruence.
  - destruct (decide (k = k')) as [->|Hne]; [|auto].
    exfalso. apply Hfresh. apply (list_elem_of_fmap_2 fst) in Hin. exact Hin.
Qed.

Lemma countMapFrom_NoDup values : NoDup (JsMap.keys (countMapFrom values)).
Proof.
  unfold countMapFrom.
  assert (Hgen : ∀ (acc : list (string * Z)), NoDup (JsMap.keys acc) →
            NoDup (JsMap.keys
              (fold_left
                 (fun map value =>
                    JsMap.set value (default 0 (JsMap.get value map) + 1) map)
                 values acc))).
  { induction values as [|value values IH]; intros acc Hacc; simpl; [exact Hacc|].
    apply IH. rewrite JsMap_keys_set.
    case_bool_decide as E; [exact Hacc|].
    apply NoDup_app. split; [exact Hacc|].
    split; [|apply NoDup_singleton].
    intros x Hx Hx'. apply list_elem_of_singleton in Hx' as ->. contradiction. }
  apply Hgen. constructor.
Qed.

Lemma chunksWith_app term xs ys :
  chunksWith term (xs ++ ys) = chunksWith term xs + chunksWith term ys.
Proof. unfold chunksWith. rewrite List.filter_app, length_app. lia. Qed.

Lemma chunksWith_cons term x xs :
  chunksWith term (x :: xs) = (if holds term x then 1 else 0) + chunksWith term xs.
Proof. unfold chunksWith. simpl. destruct (holds term x); simpl; lia. Qed.

Lemma chunksWith_nonneg term xs : 0 ≤ chunksWith term xs.
Proof. unfold chunksWith. lia. Qed.

Lemma counter_lookup (occ : gmap string Z) f term :
  (∀ t, occ !! t = counter (f t)) → f term ≠ 0 → occ !! term = Some (f term).
Proof.
  intros Hocc Hne. rewrite Hocc. unfold counter.
  destruct (f term =? 0) eqn:E; [apply Z.eqb_eq in E; contradiction|reflexivity].
Qed.

Lemma membership_sum (t term : string) terms :
  term ∉ terms →
  (if bool_decide (t ∈ term :: terms) then 1 else 0) =
  (if bool_decide (t = term) then 1 else 0) + (if bool_decide (t ∈ terms) then 1 else 0).
Proof.
  intros Hfresh.
  repeat case_bool_decide; subst; try lia; exfalso; rewrite ?elem_of_cons in *; tauto.
Qed.

(** One pass of the inner loop of [deleteDocument] takes 1 from the counter
    of each term of the chunk. *)
Lemma forgetTerms_counter terms :
  ∀ (occ : gmap string Z) f,
    NoDup terms →
    (∀ t, occ !! t = counter (f t)) →
    (∀ t, t ∈ terms → 1 ≤ f t) →
    ∀ t, fold_left forgetTerm terms occ !! t
         = counter (f t - (if bool_decide (t ∈ terms) then 1 else 0)).
Proof.
  induction terms as [|term terms IH]; intros occ f Hnodup Hocc Hpos t.
  - cbn [fold_left]. rewrite Hocc. f_equal.
    case_bool_decide as Hin; [inversion Hin|lia].
  - apply NoDup_cons in Hnodup as [Hfresh Hnodup]. cbn [fold_left].
    rewrite (IH _ (fun t => f t - (if bool_decide (t = term) then 1 else 0)) Hnodup).
    + f_equal. pose proof (membership_sum t term terms Hfresh). lia.
    + intros u. unfold forgetTerm.
      assert (Hterm : 1 ≤ f term) by (apply Hpos; left).
      rewrite (counter_lookup occ f term Hocc) by lia.
      case_bool_decide as Hu; [subst u|].
      * unfold counter. destruct (f term - 1 <=? 0) eqn:E.
        -- apply Z.leb_le in E. rewrite lookup_delete_eq.
           replace (f term - 1 =? 0) with true by (symmetry; apply Z.eqb_eq; lia).
           reflexivity.
        -- apply Z.leb_gt in E. rewrite lookup_insert_eq.
           replace (f term - 1 =? 0) with false by (symmetry; apply Z.eqb_neq; lia).
           reflexivity.
      * replace (f u - 0) with (f u) by lia.
        destruct (f term - 1 <=? 0).
        -- rewrite lookup_delete_ne by congruence. apply Hocc.
        -- rewrite lookup_insert_ne by congruence. apply Hocc.
    + intros u Hu. case_bool_decide as Heq; [subst; contradiction|].
      assert (1 ≤ f u) by (apply Hpos; right; exact Hu). lia.
Qed.

(** One pass of the inner loop of [updateDocuments] adds 1 to the counter of
    each term of the chunk. *)
Lemma countTerms_counter terms :
  ∀ (occ : gmap string Z) f,
    NoDup terms →
    (∀ t, occ !! t = counter (f t)) →
    (∀ t, 0 ≤ f t) →
    ∀ t, fold_left countTerm terms occ !! t
         = counter (f t + (if bool_decide (t ∈ terms) then 1 else 0)).
Proof.
  induction terms as [|term terms IH]; intros occ f Hnodup Hocc Hpos t.
  - cbn [fold_left]. rewrite Hocc. f_equal.
    case_bool_decide as Hin; [inversion Hin|lia].
  - apply NoDup_cons in Hnodup as [Hfresh Hnodup]. cbn [fold_left].
    rewrite (IH _ (fun t => f t + (if bool_decide (t = term) then 1 else 0)) Hnodup).
    + f_equal. pose proof (membership_sum t term terms Hfresh). lia.
    + intros u. unfold countTerm. pose proof (Hpos term) as Hterm.
      case_bool_decide as Hu; [subst u|].
      * rewrite lookup_insert_eq. rewrite Hocc. unfold counter.
        destruct (f term =? 0) eqn:E; simpl.
        -- apply Z.eqb_eq in E. rewrite E. reflexivity.
        -- apply Z.eqb_neq in E.
           replace (f term + 1 =? 0) with false by (symmetry; apply Z.eqb_neq; lia).
           reflexivity.
      * rewrite lookup_insert_ne by congruence. rewrite Hocc. f_equal. lia.
    + intros u. pose proof (Hpos u). case_bool_decide; lia.
Qed.

Lemma holds_spec term chunk : holds term chunk = bool_decide (term ∈ JsMap.keys (tf chunk)).
Proof. reflexivity. Qed.

Lemma forgetChunks_counter doc :
  ∀ rest (occ : gmap string Z),
    Forall (fun chunk => NoDup (JsMap.keys (tf chunk))) doc →
    (∀ t, occ !! t = counter (chunksWith t (doc ++ rest))) →
    ∀ t, fold_left forgetChunk doc occ !! t = counter (chunksWith t rest).
Proof.
  induction doc as [|chunk doc IH]; intros rest occ Hnodup Hocc t; [apply Hocc|].
  apply Forall_cons in Hnodup as [Hchunk Hnodup]. cbn [fold_left].
  apply (IH rest); [exact Hnodup|]. intros u. unfold forgetChunk.
  rewrite (forgetTerms_counter _ occ (fun t => chunksWith t ((chunk :: doc) ++ rest))
             Hchunk Hocc).
  - f_equal. cbn [app]. rewrite chunksWith_cons, holds_spec.
    destruct (bool_decide (u ∈ JsMap.keys (tf chunk))); lia.
  - intros v Hv. cbn [app]. rewrite chunksWith_cons, holds_spec.
    rewrite bool_decide_eq_true_2 by exact Hv.
    pose proof (chunksWith_nonneg v (doc ++ rest)). lia.
Qed.

(** A term has no counter exactly when no chunk holds it. *)
Lemma counter_None term chunks :
  counter (chunksWith term chunks) = None ↔
  Forall (fun chunk => term ∉ JsMap.keys (tf chunk)) chunks.
Proof.
  assert (Hzero : ∀ n, counter n = None ↔ n = 0).
  { intros n. unfold counter. destruct (n =? 0) eqn:E.
    - apply Z.eqb_eq in E. tauto.
    - apply Z.eqb_neq in E. split; [discriminate|contradiction]. }
  rewrite Hzero. clear Hzero. induction chunks as [|chunk chunks IH].
  - split; [constructor|reflexivity].
  - rewrite chunksWith_cons, Forall_cons, holds_spec, <- IH.
    pose proof (chunksWith_nonneg term chunks).
    case_bool_decide as Hin; split; try tauto; try lia.
Qed.

Lemma consistent_new : consistent newTfIdfCalculator.
Proof.
  unfold consistent, newTfIdfCalculator, storedChunks; simpl.
  split; [constructor|]. split; [constructor|]. split; [reflexivity|].
  intros term. apply lookup_empty.
Qed.

Lemma NoDup_without (pre post : list string) k :
  NoDup (pre ++ k :: post) → NoDup (pre ++ post) ∧ (k ∉ pre) ∧ (k ∉ post).
Proof.
  rewrite !NoDup_app, NoDup_cons. intros (Hpre & Hdisjoint & Hk & Hpost).
  split; [split; [exact Hpre|split; [|exact Hpost]]|split].
  - intros x Hx Hx'. apply (Hdisjoint x Hx). right. exact Hx'.
  - intros Hin. apply (Hdisjoint k Hin). left.
  - exact Hk.
Qed.

Lemma consistent_deleteDocument k c : consistent c → consistent (deleteDocument k c).
Proof.
  intros (Hkeys & Hterms & Hcount & Hocc). unfold deleteDocument.
  destruct (JsMap.get k (documents c)) as [doc|] eqn:Hget;
    [|repeat split; assumption].
  destruct (JsMap_get_split k doc _ Hget) as (pre & post & Hdocs & Hdel).
  unfold consistent, storedChunks in *. cbn [documents chunkCount chunkOccurrences].
  rewrite Hdel. rewrite Hdocs in Hkeys, Hterms, Hcount, Hocc.
  rewrite flat_map_app in *. cbn [flat_map snd] in *.
  unfold JsMap.keys in *. rewrite map_app in *. cbn [map fst] in Hkeys.
  apply Forall_app in Hterms as [Hpre Hrest]. apply Forall_app in Hrest as [Hdoc Hpost].
  repeat split.
  - apply NoDup_without in Hkeys. tauto.
  - apply Forall_app. split; assumption.
  - rewrite Hcount, !length_app. lia.
  - intros term. apply (forgetChunks_counter doc); [exact Hdoc|].
    intros t. rewrite Hocc, !chunksWith_app. f_equal. lia.
Qed.

Lemma deleteDocument_keys k c x :
  consistent c →
  x ∈ JsMap.keys (documents (deleteDocument k c)) ↔
  x ∈ JsMap.keys (documents c) ∧ x ≠ k.
Proof.
  intros (Hkeys & _). unfold deleteDocument.
  destruct (JsMap.get k (documents c)) as [doc|] eqn:Hget.
  - destruct (JsMap_get_split k doc _ Hget) as (pre & post & Hdocs & Hdel).
    cbn [documents]. rewrite Hdel. rewrite Hdocs in Hkeys |- *.
    unfold JsMap.keys in *. rewrite !map_app in *. cbn [map fst] in *.
    apply NoDup_without in Hkeys as (_ & Hpre & Hpost).
    rewrite !elem_of_app, elem_of_cons. split.
    + intros Hx. split; [tauto|]. intros ->. tauto.
    + intros [[?|[?|?]] Hne]; [tauto|contradiction|tauto].
  - apply JsMap_get_None in Hget. split; [|tauto].
    intros Hx. split; [exact Hx|]. intros ->. contradiction.
Qed.

Section DeleteMany.
Context {X : Type} (g : X → string).

Lemma consistent_delete_many xs :
  ∀ c, consistent c →
    consistent (fold_left (fun c x => deleteDocument (g x) c) xs c) ∧
    ∀ k, k ∈ JsMap.keys (documents (fold_left (fun c x => deleteDocument (g x) c) xs c)) ↔
         k ∈ JsMap.keys (documents c) ∧ k ∉ map g xs.
Proof.
  induction xs as [|x xs IH]; intros c Hc; cbn [fold_left map].
  - split; [exact Hc|]. intros k. split; [|tauto].
    intros Hk. split; [exact Hk|]. intros Hin. inversion Hin.
  - destruct (IH _ (consistent_deleteDocument (g x) c Hc)) as [Hcons Hkeys].
    split; [exact Hcons|]. intros k. rewrite Hkeys, deleteDocument_keys by exact Hc.
    rewrite elem_of_cons. split.
    + intros [[Hk Hne] Hnot]. split; [exact Hk|]. intros [?|?]; contradiction.
    + intros [Hk Hnot]. split; [split; [exact Hk|]|]; intros ?; apply Hnot; auto.
Qed.

End DeleteMany.

(** The chunk entry that [updateDocuments] builds for a text. *)
Lemma addChunks_spec texts :
  ∀ chunks (occ : gmap string Z) f,
    (∀ t, occ !! t = counter (f t)) → (∀ t, 0 ≤ f t) →
    let acc := fold_left addChunk texts (chunks, occ) in
    fst acc = chunks ++ map (fun t => mkChunkEntry t (termFrequencies t)) texts ∧
    ∀ t, snd acc !! t
         = counter (f t + chunksWith t
                            (map (fun t => mkChunkEntry t (termFrequencies t)) texts)).
Proof.
  induction texts as [|txt texts IH]; intros chunks occ f Hocc Hpos; cbn [fold_left map].
  - cbn [fst snd]. rewrite app_nil_r. split; [reflexivity|].
    intros t. rewrite Hocc. f_equal. unfold chunksWith. simpl. lia.
  - unfold addChunk at 2. cbn [fst snd].
    destruct (IH (chunks ++ [mkChunkEntry txt (termFrequencies txt)])
                (fold_left countTerm (JsMap.keys (termFrequencies txt)) occ)
                (fun t => f t + (if bool_decide (t ∈ JsMap.keys (termFrequencies txt))
                                 then 1 else 0)))
      as [Hchunks Hcounts].
    + intros t. apply countTerms_counter; [apply countMapFrom_NoDup|exact Hocc|exact Hpos].
    + intros t. pose proof (Hpos t). destruct (bool_decide _); lia.
    + split; [rewrite Hchunks, <- app_assoc; reflexivity|].
      intros t. rewrite Hcounts. f_equal. rewrite chunksWith_cons, holds_spec.
      cbn [tf]. lia.
Qed.

Lemma consistent_addDocument c doc :
  consistent c → key doc ∉ JsMap.keys (documents c) →
  consistent (addDocument c doc) ∧
  documents (addDocument c doc) =
    documents c ++ [(key doc, map (fun t => mkChunkEntry t (termFrequencies t))
                                  (textChunks doc))].
Proof.
  intros (Hkeys & Hterms & Hcount & Hocc) Hfresh. unfold addDocument.
  destruct (addChunks_spec (textChunks doc) [] (chunkOccurrences c)
              (fun t => chunksWith t (storedChunks c)) Hocc
              (fun t => chunksWith_nonneg t _)) as [Hchunks Hcounts].
  cbn [app] in Hchunks. rewrite Hchunks.
  rewrite JsMap_set_fresh by exact Hfresh.
  split; [|reflexivity].
  unfold consistent, storedChunks in *. cbn [documents chunkCount chunkOccurrences].
  rewrite flat_map_app. cbn [flat_map snd]. rewrite app_nil_r.
  unfold JsMap.keys in *. rewrite map_app. cbn [map fst].
  repeat split.
  - apply NoDup_app. split; [exact Hkeys|]. split; [|apply NoDup_singleton].
    intros x Hx Hx'. apply list_elem_of_singleton in Hx' as ->. contradiction.
  - apply Forall_app. split; [exact Hterms|].
    apply Forall_map, Forall_forall. intros t _. cbn [tf]. apply countMapFrom_NoDup.
  - rewrite Hcount, length_app. lia.
  - intros term. rewrite Hcounts, chunksWith_app. reflexivity.
Qed.

Lemma consistent_add_many docs :
  ∀ c, consistent c → NoDup (map key docs) →
    (∀ d, d ∈ docs → key d ∉ JsMap.keys (documents c)) →
    consistent (fold_left addDocument docs c) ∧
    documents (fold_left addDocument docs c) =
      documents c ++ map (fun d => (key d, map (fun t => mkChunkEntry t (termFrequencies t))
                                               (textChunks d))) docs.
Proof.
  induction docs as [|doc docs IH]; intros c Hc Hnodup Hfresh; cbn [fold_left map].
  - rewrite app_nil_r. auto.
  - apply NoDup_cons in Hnodup as [Hdoc Hnodup].
    destruct (consistent_addDocument c doc Hc) as [Hc' Hdocs]; [apply Hfresh; left|].
    destruct (IH _ Hc' Hnodup) as [Hcons Hall].
    + intros d Hd. rewrite Hdocs. unfold JsMap.keys. rewrite map_app. cbn [map fst].
      rewrite elem_of_app, list_elem_of_singleton. intros [Hin|Heq].
      * apply (Hfresh d); [right; exact Hd|exact Hin].
      * apply Hdoc. rewrite <- Heq. apply list_elem_of_fmap_2. exact Hd.
    + split; [exact Hcons|]. rewrite Hall, Hdocs, <- app_assoc. reflexivity.
Qed.

(** Starting from the empty calculator, deleting documents and updating with
    batches that name each key once keeps the counters as documented; an
    update stores, for each document of the batch, one chunk per text; and
    when no document is left the chunk count is 0 and the occurrence map is
    empty. *)
Lemma counters_consistent_for_distinct_keys :
  consistent newTfIdfCalculator ∧
  (∀ k c, consistent c → consistent (deleteDocument k c)) ∧
  (∀ docs c, consistent c → NoDup (map key docs) →
     consistent (updateDocuments docs c) ∧
     ∀ d, d ∈ docs →
       ∃ chunks, JsMap.get (key d) (documents (updateDocuments docs c)) = Some chunks ∧
                 length chunks = length (textChunks d)) ∧
  (∀ c, consistent c →
     chunkCount c = Z.of_nat (length (storedChunks c)) ∧
     ∀ term, chunkOccurrences c !! term = None ↔
             Forall (fun chunk => term ∉ JsMap.keys (tf chunk)) (storedChunks c)) ∧
  (∀ c, consistent c →
     let c' := fold_left (fun c k => deleteDocument k c) (JsMap.keys (documents c)) c in
     documents c' = [] ∧ chunkCount c' = 0 ∧ chunkOccurrences c' = ∅).
Proof.
  split; [exact consistent_new|]. split; [exact consistent_deleteDocument|].
  split; [|split].
  - intros docs c Hc Hnodup. unfold updateDocuments.
    destruct (consistent_delete_many key docs c Hc) as [Hdel Hkeys].
    destruct (consistent_add_many docs _ Hdel Hnodup) as [Hcons Hdocs].
    { intros d Hd Hin. apply Hkeys in Hin as [_ Hnot]. apply Hnot.
      apply list_elem_of_fmap_2. exact Hd. }
    split; [exact Hcons|]. intros d Hd.
    exists (map (fun t => mkChunkEntry t (termFrequencies t)) (textChunks d)).
    split; [|apply length_map].
    apply JsMap_get_elem_of; [apply Hcons|].
    rewrite Hdocs, elem_of_app. right.
    apply (list_elem_of_fmap_2
             (fun d => (key d, map (fun t => mkChunkEntry t (termFrequencies t))
                                   (textChunks d)))).
    exact Hd.
  - intros c (_ & _ & Hcount & Hocc). split; [exact Hcount|].
    intros term. rewrite Hocc. apply counter_None.
  - intros c Hc.
    destruct (consistent_delete_many (fun k => k) (JsMap.keys (documents c)) c Hc)
      as [Hcons Hkeys].
    cbv zeta. set (c' := fold_left _ _ c) in *.
    assert (Hnone : documents c' = []).
    { destruct (documents c') as [|[k v] rest] eqn:E; [reflexivity|].
      exfalso. destruct (Hkeys k) as [Hk _].
      destruct Hk as [Hin Hnot]; [left|]. apply Hnot. rewrite map_id. exact Hin. }
    split; [exact Hnone|].
    destruct Hcons as (_ & _ & Hcount & Hocc). unfold storedChunks in *.
    rewrite Hnone in *. split; [exact Hcount|].
    apply map_eq. intros term. rewrite Hocc, lookup_empty. reflexivity.
Qed.

(** C6 fails on the code when one batch names a key twice: after
    [updateDocuments([{key: 'k', textChunks: ['aaa']}, {key: 'k', textChunks: ['bbb']}])]
    one chunk is stored but the chunk count is 2 and the term ['aaa'], which is
    in no stored chunk, still has an occurrence counter; after
    [deleteDocument('k')] no document is left, yet the chunk count is 1 and
    the occurrence map still holds ['aaa']. *)
Theorem C6_duplicate_keys_break_counters :
  let c := updateDocuments duplicateKeyBatch newTfIdfCalculator in
  let c' := deleteDocument "k" c in
  documents c = [("k", [mkChunkEntry "bbb" [("bbb", 1)]])] ∧
  chunkCount c = 2 ∧
  chunkOccurrences c !! "aaa" = Some 1 ∧
  documents c' = [] ∧
  chunkCount c' = 1 ∧
  chunkOccurrences c' = {[ "aaa" := 1 ]}.
Proof. vm_compute. repeat split. Qed.

End TfIdfClaims.

(** ** Prompt building *)

Section PromptClaims.
Import Prompt.

(** C4 fails on the code in its second half.  For a model without a system
    role [buildPrompt] returns no system message, but the user message is the
    one a model with a system role would get, preceded by two line feeds and
    nothing else: the system text of the template is not in it.  With the
    default template and the query ['hi'] the user message is two line feeds
    and ['hi']. *)
Theorem C4_system_text_not_prepended :
  (∀ template query snippets info window output,
     let unsupported :=
       buildPrompt template
         (mkContext query snippets info (Some (mkCapabilities window false output))) in
     let supported :=
       buildPrompt template
         (mkContext query snippets info (Some (mkCapabilities window true output))) in
     result_systemMessage unsupported = None ∧
     userMessage unsupported = LF +:+ LF +:+ userMessage supported) ∧
  userMessage
    (buildPrompt defaultTemplate
       (mkContext "hi" [] None (Some (mkCapabilities 4000 false None))))
  = LF +:+ LF +:+ "hi".
Proof.
  split; [|reflexivity].
  intros template query snippets info window output. split; reflexivity.
Qed.

End PromptClaims.

(** ** Cancellation *)

Section CancellationClaims.
Import Cancellation.

(** A token whose flag is set is the token [Cancelled]. *)
Lemma cancelled_token token :
  isCancellationRequested token = true → token = Cancelled.
Proof. destruct token as [[|]]; [reflexivity|discriminate]. Qed.

(** C7: called with a token that is already cancelled, [calculateScores],
    [indexFile] and [search] return the empty array, [indexContent] returns
    [null], and [buildPrompt] returns the bare query with no system message
    and all three counters at 0; none of them throws, and the facade is left
    as it was. *)
Theorem C7_cancelled_calls_return_neutral :
  (∀ query c, TfIdf.calculateScores query Cancelled c = []) ∧
  (∀ fuel now filePath content options v,
     Orchestrator.indexFile fuel now filePath content options (Some Cancelled) v
       = Ok ([], v)) ∧
  (∀ query options v,
     Orchestrator.search query options (Some Cancelled) v = Ok []) ∧
  (∀ service query providerId options e,
     Search.search service query providerId options (Some Cancelled) e = Ok []) ∧
  (∀ fuel content metadata options v,
     Orchestrator.indexContent fuel content metadata options (Some Cancelled) v
       = Ok (None, v)) ∧
  (∀ query options v,
     Orchestrator.buildPrompt query options (Some Cancelled) v
       = Ok (Prompt.mkPromptResult None query (Prompt.mkPromptMetadata 0 0 0))).
Proof.
  repeat split.
  intros query c. unfold TfIdf.calculateScores.
  destruct (TfIdf.documents c) as [|[k doc] rest]; reflexivity.
Qed.

End CancellationClaims.

(** ** Fixed-size chunking *)

Section ChunkingClaims.
Import Cancellation Chunking.

Lemma chunkLoop_unfold fuel content metadata token maxChunkSize minChunkSize overlap
    currentPosition chunkIndex chunks :
  chunkLoop fuel content metadata token maxChunkSize minChunkSize overlap
    currentPosition chunkIndex chunks =
  if currentPosition <? Str.len content then
    match fuel with
    | O => NoReturn
    | S fuel' =>
        if requested token then Ok chunks
        else
          let endPosition := chunkEnd content maxChunkSize minChunkSize currentPosition in
          let chunkContent := substring content currentPosition endPosition in
          let chunk :=
            mkChunk (generateChunkId chunkContent chunkIndex metadata) chunkContent
              (chunkMetadata (getLineNumberAtOffset content currentPosition)
                             (getLineNumberAtOffset content endPosition) metadata) in
          chunkLoop fuel' content metadata token maxChunkSize minChunkSize overlap
            (endPosition - overlap) (chunkIndex + 1) (chunks ++ [chunk])
    end
  else Ok chunks.
Proof. destruct fuel; reflexivity. Qed.

(** On ["abc"] with [maxChunkSize = 2], [minChunkSize = 2], [overlap = 1] the
    chunks end at 2, 3 and 3, so the positions go 0, 1, 2, 2, 2, ... *)
Lemma abc_positions :
  chunkEnd "abc" 2 2 0 - 1 = 1 ∧ chunkEnd "abc" 2 2 1 - 1 = 2 ∧ chunkEnd "abc" 2 2 2 - 1 = 2.
Proof. repeat split. Qed.

Lemma abc_loop_never_returns fuel :
  ∀ currentPosition chunkIndex chunks,
    0 ≤ currentPosition ≤ 2 →
    chunkLoop fuel "abc" None None 2 2 1 currentPosition chunkIndex chunks = NoReturn.
Proof.
  destruct abc_positions as (H0 & H1 & H2).
  induction fuel as [|fuel IH]; intros currentPosition chunkIndex chunks Hpos;
    rewrite chunkLoop_unfold;
    assert (Hlt : (currentPosition <? Str.len "abc") = true)
      by (apply Z.ltb_lt; change (Str.len "abc") with 3; lia);
    rewrite Hlt; [reflexivity|].
  cbn [requested]. cbv zeta. apply IH.
  assert (currentPosition = 0 ∨ currentPosition = 1 ∨ currentPosition = 2)
    as [->|[->| ->]] by lia; lia.
Qed.

Lemma String_prefix_length p s :
  String.prefix p s = true → (String.length p ≤ String.length s)%nat.
Proof.
  revert p. induction s as [|c s IH]; intros [|d p]; simpl; try discriminate; try lia.
  destruct (ascii_dec d c); [|discriminate]. intros Hp. apply IH in Hp. lia.
Qed.

Lemma String_substring_length s :
  ∀ n m, (n + m ≤ String.length s)%nat → String.length (String.substring n m s) = m.
Proof.
  induction s as [|c s IH]; intros [|n] [|m]; simpl; intros Hle; try lia.
  - rewrite IH by lia. reflexivity.
  - apply IH. lia.
  - apply IH. lia.
Qed.

(** The length of a JavaScript [substring] whose ends come in order. *)
Lemma substring_len s start stop :
  0 ≤ start → start ≤ stop → stop ≤ Str.len s →
  Str.len (substring s start stop) = stop - start.
Proof.
  intros H0 Hle Hlen. unfold substring, Str.len in *.
  rewrite String_substring_length by lia. lia.
Qed.

Lemma lastIndexOf_from_bound s pattern :
  ∀ i last,
    lastIndexOf_from i s pattern last = last ∨
    (i ≤ lastIndexOf_from i s pattern last ∧
     lastIndexOf_from i s pattern last + Str.len pattern ≤ i + Str.len s).
Proof.
  unfold Str.len. induction s as [|c s IH]; intros i last.
  - cbn [lastIndexOf_from]. destruct (String.prefix pattern "") eqn:Hp; [|auto].
    apply String_prefix_length in Hp. right. lia.
  - cbn [lastIndexOf_from].
    destruct (IH (i + 1) (if String.prefix pattern (String c s) then i else last))
      as [->|[Hlo Hhi]].
    + destruct (String.prefix pattern (String c s)) eqn:Hp; [|auto].
      apply String_prefix_length in Hp. right. lia.
    + right. cbn [String.length] in *. lia.
Qed.

(** [lastIndexOf] is [-1] or the start of an occurrence inside the string. *)
Lemma lastIndexOf_bound s pattern :
  lastIndexOf s pattern = -1 ∨
  (0 ≤ lastIndexOf s pattern ∧ lastIndexOf s pattern + Str.len pattern ≤ Str.len s).
Proof. apply lastIndexOf_from_bound. Qed.

Lemma len_nonneg s : 0 ≤ Str.len s.
Proof. unfold Str.len. lia. Qed.

(** A split point lies beyond [currentPosition + minChunkSize]; when the
    search window is inside the content, it lies inside the content too. *)
Lemma findSplit_bound content currentPosition minChunkSize endPosition candidates :
  let r := findSplit content currentPosition minChunkSize endPosition candidates in
  r = endPosition ∨
  (currentPosition + minChunkSize < r ∧
   (0 ≤ currentPosition + minChunkSize → currentPosition + minChunkSize ≤ endPosition →
    endPosition ≤ Str.len content → r ≤ Str.len content)).
Proof.
  induction candidates as [|breakpoint rest IH]; cbn [findSplit]; [auto|].
  cbv zeta in *.
  set (searchStart := Z.max (endPosition - 100) (currentPosition + minChunkSize)).
  set (searchEnd := Z.min (endPosition + 100) (Str.len content)).
  set (breakpointIndex := lastIndexOf (substring content searchStart searchEnd) breakpoint).
  destruct (negb (breakpointIndex =? -1)
            && (currentPosition + minChunkSize <? searchStart + breakpointIndex)) eqn:Hfound;
    [|exact IH].
  apply andb_true_iff in Hfound as [Hidx Hfar].
  apply negb_true_iff, Z.eqb_neq in Hidx. apply Z.ltb_lt in Hfar.
  destruct (lastIndexOf_bound (substring content searchStart searchEnd) breakpoint)
    as [Hnone|[Hlo Hhi]]; [contradiction|].
  fold breakpointIndex in Hlo, Hhi.
  pose proof (len_nonneg breakpoint) as Hbp. right. split; [lia|].
  intros Hnonneg Hmin Hend.
  rewrite substring_len in Hhi by (unfold searchStart, searchEnd; lia).
  unfold searchEnd in *. lia.
Qed.

(** Where a chunk ends: beyond its start, and not beyond the content. *)
Lemma chunkEnd_bound content maxChunkSize minChunkSize currentPosition :
  0 ≤ currentPosition < Str.len content →
  0 ≤ minChunkSize ≤ maxChunkSize → 0 < maxChunkSize →
  let endPosition := chunkEnd content maxChunkSize minChunkSize currentPosition in
  endPosition ≤ Str.len content ∧
  (endPosition = Str.len content ∨
   currentPosition + minChunkSize < endPosition ∨
   endPosition = currentPosition + maxChunkSize).
Proof.
  intros Hpos Hmin Hmax. unfold chunkEnd.
  destruct (Z.min (currentPosition + maxChunkSize) (Str.len content) <? Str.len content)
    eqn:Hshort.
  - apply Z.ltb_lt in Hshort.
    assert (Heq : Z.min (currentPosition + maxChunkSize) (Str.len content)
                  = currentPosition + maxChunkSize) by lia.
    rewrite Heq.
    destruct (findSplit_bound content currentPosition minChunkSize
                (currentPosition + maxChunkSize) breakpoints) as [->|[Hfar Hin]].
    + split; [lia|]. right. right. reflexivity.
    + split; [apply Hin; lia|]. right. left. exact Hfar.
  - apply Z.ltb_ge in Hshort. split; [lia|]. left. lia.
Qed.

(** With an overlap, the loop never reaches the end of a content that is
    longer than one chunk: the position stays inside the content for ever. *)
Lemma chunkLoop_overlap_never_returns content metadata token maxChunkSize minChunkSize
    overlap fuel :
  requested token = false →
  0 < overlap < minChunkSize → minChunkSize ≤ maxChunkSize →
  maxChunkSize < Str.len content →
  ∀ currentPosition chunkIndex chunks,
    0 ≤ currentPosition < Str.len content →
    chunkLoop fuel content metadata token maxChunkSize minChunkSize overlap
      currentPosition chunkIndex chunks = NoReturn.
Proof.
  intros Htoken Hoverlap Hmin Hlong.
  induction fuel as [|fuel IH]; intros currentPosition chunkIndex chunks Hpos;
    rewrite chunkLoop_unfold;
    (replace (currentPosition <? Str.len content) with true
       by (symmetry; apply Z.ltb_lt; lia)); [reflexivity|].
  rewrite Htoken. cbv zeta. apply IH.
  destruct (chunkEnd_bound content maxChunkSize minChunkSize currentPosition)
    as (Hend & Hcases); lia.
Qed.

(** Under the constraint of C9 every overlap above 0 keeps [chunk] from
    returning, on every content that does not fit into one chunk. *)
Lemma FixedSize_chunk_overlap_never_returns options fuel content metadata token :
  requested token = false →
  0 < overlap options < minChunkSize options →
  minChunkSize options ≤ maxChunkSize options →
  maxChunkSize options < Str.len content →
  FixedSize_chunk options fuel content metadata token = NoReturn.
Proof.
  intros Htoken Hoverlap Hmin Hlong. unfold FixedSize_chunk. rewrite Htoken.
  replace (minChunkSize options =? 0) with false by (symmetry; apply Z.eqb_neq; lia).
  replace (Str.len content <=? maxChunkSize options) with false
    by (symmetry; apply Z.leb_gt; lia).
  apply chunkLoop_overlap_never_returns; try assumption.
  pose proof (len_nonneg content). lia.
Qed.

(** Without overlap every iteration moves the position forward, and [chunk]
    returns within as many iterations as the content has characters. *)
Lemma chunkLoop_without_overlap_returns content metadata token maxChunkSize minChunkSize :
  0 ≤ minChunkSize ≤ maxChunkSize → 0 < maxChunkSize →
  ∀ fuel currentPosition chunkIndex chunks,
    0 ≤ currentPosition →
    Str.len content - currentPosition ≤ Z.of_nat fuel →
    ∃ result,
      chunkLoop fuel content metadata token maxChunkSize minChunkSize 0
        currentPosition chunkIndex chunks = Ok result.
Proof.
  intros Hmin Hmax.
  induction fuel as [|fuel IH]; intros currentPosition chunkIndex chunks Hpos Hfuel;
    rewrite chunkLoop_unfold;
    destruct (currentPosition <? Str.len content) eqn:Hlt; eauto;
    apply Z.ltb_lt in Hlt; [lia|].
  destruct (requested token); [eauto|]. cbv zeta. apply IH.
  - destruct (chunkEnd_bound content maxChunkSize minChunkSize currentPosition)
      as (Hend & Hcases); lia.
  - destruct (chunkEnd_bound content maxChunkSize minChunkSize currentPosition)
      as (Hend & Hcases); lia.
Qed.

Lemma FixedSize_chunk_without_overlap_returns options content metadata token :
  overlap options = 0 →
  0 < minChunkSize options ≤ maxChunkSize options →
  ∀ fuel, (String.length content ≤ fuel)%nat →
    ∃ result, FixedSize_chunk options fuel content metadata token = Ok result.
Proof.
  intros Hoverlap Hmin fuel Hfuel. unfold FixedSize_chunk.
  destruct (requested token); [eauto|].
  replace (minChunkSize options =? 0) with false by (symmetry; apply Z.eqb_neq; lia).
  destruct (Str.len content <=? maxChunkSize options); [eauto|].
  rewrite Hoverlap. apply chunkLoop_without_overlap_returns; try lia.
  unfold Str.len. lia.
Qed.

(** C9 fails on the code.  The configuration [maxChunkSize = 2],
    [minChunkSize = 2], [overlap = 1] meets [0 <= overlap < minChunkSize <=
    maxChunkSize]; on the content ["abc"] the iteration that starts at
    position 2 ends the chunk at the end of the content and moves to position
    [3 - 1 = 2] again, and however many iterations are allowed the call does
    not return. *)
Theorem C9_overlap_stalls_at_end :
  let options := withDefaults (mkPartialOptions (Some 2) (Some 2) (Some 1)) in
  (0 ≤ overlap options < minChunkSize options ∧
   minChunkSize options ≤ maxChunkSize options) ∧
  chunkEnd "abc" (maxChunkSize options) (minChunkSize options) 2 - overlap options = 2 ∧
  ∀ fuel, FixedSize_chunk options fuel "abc" None None = NoReturn.
Proof.
  cbv zeta. change (withDefaults _) with (mkOptions 2 2 1).
  cbn [maxChunkSize minChunkSize overlap].
  split; [lia|]. split; [reflexivity|].
  intros fuel. unfold FixedSize_chunk. cbn [requested maxChunkSize minChunkSize overlap].
  change (2 =? 0) with false. change (Str.len "abc" <=? 2) with false. cbv iota.
  apply abc_loop_never_returns. lia.
Qed.

End ChunkingClaims.

(** ** Sorting, filtering and slicing *)

Section ArrayFacts.
Context {A : Type} (key : A → R).

Local Abbreviation cmp := (fun a b : A => (key b - key a)%R).

Lemma insert_head x l :
  Forall (fun y => (key y <= key x)%R) l → Arr.insert cmp x l = x :: l.
Proof.
  destruct l as [|y l]; [reflexivity|]. intros Hall. apply Forall_cons in Hall as [Hy _].
  simpl. destruct (Rgt_dec _ 0) as [Hgt|_]; [|reflexivity].
  lra.
Qed.

(** A list whose keys never go up is left as it is. *)
Lemma sort_sorted l :
  StronglySorted (fun a b => (key a >= key b)%R) l → Arr.sort cmp l = l.
Proof.
  induction 1 as [|x l _ IH Hall]; [reflexivity|].
  simpl. rewrite IH. apply insert_head.
  eapply Forall_impl; [exact Hall|]. simpl. intros y Hy. lra.
Qed.

Lemma insert_perm x l : Permutation (Arr.insert cmp x l) (x :: l).
Proof.
  induction l as [|y l IH]; [reflexivity|]. simpl.
  destruct (Rgt_dec _ 0); [|reflexivity].
  rewrite IH. apply perm_swap.
Qed.

Lemma sort_perm l : Permutation (Arr.sort cmp l) l.
Proof.
  induction l as [|x l IH]; [reflexivity|]. simpl.
  rewrite insert_perm. constructor. exact IH.
Qed.

Lemma insert_descending x l :
  StronglySorted (fun a b => (key a >= key b)%R) l →
  StronglySorted (fun a b => (key a >= key b)%R) (Arr.insert cmp x l).
Proof.
  induction 1 as [|y l Hl IH Hall]; simpl.
  - repeat constructor.
  - destruct (Rgt_dec _ 0) as [Hgt|Hle].
    + constructor; [exact IH|].
      rewrite insert_perm. constructor; [lra|exact Hall].
    + constructor; [constructor; assumption|].
      constructor; [lra|].
      eapply Forall_impl; [exact Hall|]. simpl. intros z Hz. lra.
Qed.

Lemma sort_descending l :
  StronglySorted (fun a b => (key a >= key b)%R) (Arr.sort cmp l).
Proof.
  induction l as [|x l IH]; simpl; [constructor|]. apply insert_descending, IH.
Qed.

Lemma slice0_length (l : list A) n : 0 ≤ n → (length (Arr.slice0 l n) ≤ Z.to_nat n)%nat.
Proof.
  intros Hn. unfold Arr.slice0. destruct (n <? 0) eqn:E; [apply Z.ltb_lt in E; lia|].
  rewrite length_take. lia.
Qed.

Lemma slice0_sublist (l : list A) n : sublist (Arr.slice0 l n) l.
Proof.
  unfold Arr.slice0. destruct (n <? 0); apply sublist_take.
Qed.

End ArrayFacts.

(** ** Ranking *)

Section RankingClaims.
Import Cancellation Ranking.
Context {T : Type}.

Lemma weighted_zero options : calculateWeightedScore options zeroFactors = 0%R.
Proof. unfold calculateWeightedScore, zeroFactors; simpl. ring. Qed.

Lemma scoreItems_zero options (items : list T) query scoreFn :
  (∀ x, x ∈ items → scoreFn x query = zeroFactors) →
  scoreItems options items query scoreFn = map (fun x => mkScored x 0%R zeroFactors) items.
Proof.
  intros Hzero. unfold scoreItems. apply map_ext_in. intros x Hx.
  rewrite Hzero by (apply list_elem_of_In; exact Hx).
  rewrite weighted_zero. reflexivity.
Qed.

Lemma minimum_zero (xs : list (ScoredContext T)) :
  Forall (fun x => score x = 0%R) xs → minimum 0 (map score xs) = 0%R.
Proof.
  unfold minimum. induction 1 as [|x xs Hx _ IH]; [reflexivity|].
  simpl. rewrite Hx. replace (Rmin 0 0) with 0%R; [exact IH|].
  unfold Rmin. destruct (Rle_dec 0 0); reflexivity.
Qed.

Lemma maximum_zero (xs : list (ScoredContext T)) :
  Forall (fun x => score x = 0%R) xs → maximum 0 (map score xs) = 0%R.
Proof.
  unfold maximum. induction 1 as [|x xs Hx _ IH]; [reflexivity|].
  simpl. rewrite Hx. replace (Rmax 0 0) with 0%R; [exact IH|].
  unfold Rmax. destruct (Rle_dec 0 0); reflexivity.
Qed.

Lemma filter_all {B : Type} (f : B → bool) l :
  Forall (fun x => f x = true) l → List.filter f l = l.
Proof.
  induction 1 as [|x l Hx _ IH]; [reflexivity|]. simpl. rewrite Hx, IH. reflexivity.
Qed.

Lemma filter_none {B : Type} (f : B → bool) l :
  Forall (fun x => f x = false) l → List.filter f l = [].
Proof.
  induction 1 as [|x l Hx _ IH]; [reflexivity|]. simpl. rewrite Hx, IH. reflexivity.
Qed.

Lemma constant_scores_sorted (items : list T) s :
  StronglySorted (fun a b : ScoredContext T => (score a >= score b)%R)
    (map (fun x => mkScored x s zeroFactors) items).
Proof.
  induction items as [|x items IH]; simpl; constructor; [exact IH|].
  apply Forall_map, Forall_forall. intros y _. simpl. lra.
Qed.

Lemma rankItems_zero_scored options (items : list T) query scoreFn :
  (∀ x, x ∈ items → scoreFn x query = zeroFactors) →
  rankItems options items query scoreFn None =
    Arr.sort (fun a b => (score b - score a)%R)
      (List.filter (fun x => Arr.Rgeb (score x) (minScore options))
         (normalizeScores options (map (fun x => mkScored x 0%R zeroFactors) items))).
Proof.
  intros Hzero. unfold rankItems. cbn [requested].
  rewrite scoreItems_zero by exact Hzero. reflexivity.
Qed.

Lemma normalize_minMax_zero options (items : list T) :
  normalizationStrategy options = minMax →
  normalizeScores options (map (fun x => mkScored x 0%R zeroFactors) items)
    = map (fun x => mkScored x 1%R zeroFactors) items.
Proof.
  intros Hs. destruct items as [|x items]; [reflexivity|].
  unfold normalizeScores. cbn [map]. rewrite Hs. cbn [score].
  rewrite minimum_zero, maximum_zero
    by (apply Forall_map, Forall_forall; intros y _; reflexivity).
  destruct (Req_dec_T 0 0) as [_|Hne]; [|congruence].
  cbn [map withScore item factors]. f_equal.
  rewrite map_map. reflexivity.
Qed.

(** C3 (amended): when the score function returns 0 for all five factors of
    every item, every weighted score is 0.  Without normalisation
    ([normalizationStrategy = 'none']) and with [minScore > 0], [rankItems]
    returns the empty list.  With min-max normalisation the equal scores all
    become 1: [rankItems] returns every item, in the order given, with score
    1, as long as [minScore <= 1]. *)
Theorem C3_all_zero_factors :
  ∀ options (items : list T) query scoreFn token,
    (∀ x, x ∈ items → scoreFn x query = zeroFactors) →
    (0 < minScore options)%R →
    (normalizationStrategy options = none →
       rankItems options items query scoreFn token = []) ∧
    (normalizationStrategy options = minMax → (minScore options <= 1)%R →
       rankItems options items query scoreFn None
         = map (fun x => mkScored x 1%R zeroFactors) items).
Proof.
  intros options items query scoreFn token Hzero Hmin. split.
  - intros Hs. unfold rankItems. destruct (requested token); [reflexivity|].
    rewrite scoreItems_zero by exact Hzero.
    replace (normalizeScores options (map (fun x => mkScored x 0%R zeroFactors) items))
      with (map (fun x : T => mkScored x 0%R zeroFactors) items)
      by (unfold normalizeScores; rewrite Hs; destruct items; reflexivity).
    rewrite filter_none; [reflexivity|].
    apply Forall_map, Forall_forall. intros x _. cbn [score]. unfold Arr.Rgeb.
    destruct (Rge_dec 0 (minScore options)) as [Hge|_]; [lra|reflexivity].
  - intros Hs Hle. rewrite rankItems_zero_scored by exact Hzero.
    rewrite normalize_minMax_zero by exact Hs.
    rewrite filter_all.
    + apply (sort_sorted score), constant_scores_sorted.
    + apply Forall_map, Forall_forall. intros x _. cbn [score]. unfold Arr.Rgeb.
      destruct (Rge_dec 1 (minScore options)) as [_|Hn]; [reflexivity|lra].
Qed.

End RankingClaims.

(** C3, as stated, fails with the defaults of the ranker ([minScore = 0.2],
    min-max normalisation): one item whose five factors are 0 comes back,
    with score 1. *)
Lemma C3_all_zero_counterexample :
  Ranking.rankItems Ranking.defaultOptions [tt] "q" (fun _ _ => Ranking.zeroFactors) None
    = [Ranking.mkScored tt 1%R Ranking.zeroFactors] ∧
  (0 < Ranking.minScore Ranking.defaultOptions)%R.
Proof.
  split; [|simpl; lra].
  rewrite rankItems_zero_scored by reflexivity.
  rewrite normalize_minMax_zero by reflexivity.
  cbn [map List.filter Ranking.score Ranking.minScore Ranking.defaultOptions].
  unfold Arr.Rgeb. settle_real_test. reflexivity.
Qed.

(** The first half at the default weights, [minScore = 0.2] and no
    normalisation. *)
Lemma C3_all_zero_factors_witness :
  Ranking.rankItems
    (Ranking.mkRankerOptions (4 / 10) (2 / 10) (15 / 100) (15 / 100) (1 / 10) (2 / 10)
       Ranking.none)
    [tt] "q" (fun _ _ => Ranking.zeroFactors) None = [].
Proof.
  refine (proj1 (C3_all_zero_factors
            (Ranking.mkRankerOptions (4 / 10) (2 / 10) (15 / 100) (15 / 100) (1 / 10)
               (2 / 10) Ranking.none)
            [tt] "q" (fun _ _ => Ranking.zeroFactors) None _ _) _).
  - reflexivity.
  - simpl. lra.
  - reflexivity.
Defined.

(** ** Semantic search *)

Section SearchClaims.
Import Cancellation Embeddings Search.

Lemma axisService_default : providers axisService !! "default" = Some axisProvider.
Proof. unfold axisService, registerProvider. cbn [providers]. apply lookup_insert_eq. Qed.

Lemma oneDocumentEngine_eq :
  oneDocumentEngine = mkEngine [("d1", mkIndexed "document" (Some [0; 1]%R) None)].
Proof.
  unfold oneDocumentEngine, addDocument, computeEmbeddings. cbn [requested].
  rewrite axisService_default. reflexivity.
Qed.

Lemma orthogonal_axes : Vec.cosineSimilarity (Some [1; 0]%R) (Some [0; 1]%R) = Ok 0%R.
Proof.
  unfold Vec.cosineSimilarity, Vec.sums. cbn [length Nat.eqb negb combine fold_left fst snd].
  do 2 settle_real_test.
  f_equal. unfold Rdiv.
  replace (0 + 1 * 0 + 0 * 1)%R with 0%R by ring. apply Rmult_0_l.
Qed.

Lemma oneDocumentEngine_search :
  search axisService "query" "default" noOptions None oneDocumentEngine
    = Ok [mkResult "d1" 0%R "document" None].
Proof.
  rewrite oneDocumentEngine_eq. unfold search, computeEmbeddings.
  cbn [requested noOptions topK threshold includeSimilarity includeContent
       includeMetadata default].
  rewrite axisService_default.
  cbn [bind provider_computeEmbeddings axisProvider map String.eqb Ascii.eqb Bool.eqb
       head documents mapM fst snd embedding text doc_metadata].
  rewrite orthogonal_axes.
  cbn [bind List.filter score]. unfold Arr.Rgeb. settle_real_test. reflexivity.
Qed.

(** C5, as stated, fails on the code: with no options the threshold is 0, not
    0.7.  A document whose embedding is orthogonal to the embedding of the
    query is returned, with similarity 0. *)
Lemma C5_default_threshold_counterexample :
  search axisService "query" "default" noOptions None oneDocumentEngine
    = Ok [mkResult "d1" 0%R "document" None] ∧
  (0 < 7 / 10)%R.
Proof. split; [exact oneDocumentEngine_search|lra]. Qed.

Lemma sorted_sublist {A : Type} (R : A → A → Prop) l l' :
  sublist l l' → StronglySorted R l' → StronglySorted R l.
Proof.
  intros Hsub Hsorted. revert l Hsub.
  induction Hsorted as [|x l' Hl' IH Hall]; intros l Hsub.
  - apply sublist_nil_r in Hsub as ->. constructor.
  - apply sublist_cons_r in Hsub as [Hsub|(k & -> & Hsub)]; [auto|].
    constructor; [auto|].
    apply Forall_forall. intros y Hy. rewrite Forall_forall in Hall. apply Hall.
    eapply sublist_submseteq, elem_of_submseteq in Hsub; eassumption.
Qed.

(** What every answer of the engine looks like, whatever its options. *)
Lemma search_shape service query providerId options token e results :
  search service query providerId options token e = Ok results →
  default true (includeSimilarity options) = true →
  0 ≤ default 5 (topK options) →
  (length results ≤ Z.to_nat (default 5%Z (topK options)))%nat ∧
  Forall (fun r => (score r >= default 0 (threshold options))%R) results ∧
  StronglySorted (fun a b => (score a >= score b)%R) results.
Proof.
  unfold search. destruct (requested token).
  { intros [= <-] _ _. split; [simpl; lia|split; constructor]. }
  destruct (computeEmbeddings providerId [query] token service) as [embeddings| |];
    cbn [bind]; try discriminate.
  destruct (mapM _ (documents e)) as [scored| |]; cbn [bind]; try discriminate.
  intros [= <-] -> Htop.
  set (kept := List.filter _ scored).
  set (sorted := Arr.sort _ kept).
  split; [apply slice0_length; exact Htop|]. split.
  - eapply Forall_forall. intros r Hr.
    apply (elem_of_submseteq _ sorted) in Hr;
      [|apply sublist_submseteq, slice0_sublist].
    assert (Hin : r ∈ kept).
    { pose proof (sort_perm score kept) as Hperm. fold sorted in Hperm.
      rewrite <- Hperm. exact Hr. }
    apply list_elem_of_In, filter_In in Hin as [_ Hge]. unfold Arr.Rgeb in Hge.
    destruct (Rge_dec _ _); [assumption|discriminate].
  - eapply sorted_sublist; [apply slice0_sublist|]. apply (sort_descending score).
Qed.

(** C5 (amended): when [search] is called with no options, the defaults
    [topK = 5] and [threshold = 0] apply: at most 5 results are returned, none
    has a similarity below 0, and they are sorted by descending similarity.
    This holds for the engine and for the facade in front of it. *)
Theorem C5_search_defaults :
  (∀ service query providerId token e results,
     search service query providerId noOptions token e = Ok results →
     (length results ≤ 5)%nat ∧
     Forall (fun r => (score r >= 0)%R) results ∧
     StronglySorted (fun a b => (score a >= score b)%R) results) ∧
  (∀ query token v results,
     Orchestrator.search query noOptions token v = Ok results →
     (length results ≤ 5)%nat ∧
     Forall (fun r => (Orchestrator.score r >= 0)%R) results ∧
     StronglySorted (fun a b => (Orchestrator.score a >= Orchestrator.score b)%R) results).
Proof.
  split.
  - intros service query providerId token e results Hsearch.
    apply (search_shape _ _ _ _ _ _ _ Hsearch); [reflexivity|simpl; lia].
  - intros query token v results. unfold Orchestrator.search.
    destruct (requested token).
    { intros [= <-]. split; [simpl; lia|split; constructor]. }
    destruct (search _ query _ noOptions token _) as [found| |] eqn:Hsearch;
      cbn [bind]; try discriminate.
    intros [= <-].
    destruct (search_shape _ _ _ _ _ _ _ Hsearch) as (Hlen & Hge & Hsorted);
      [reflexivity|simpl; lia|].
    split; [rewrite length_map; exact Hlen|]. split.
    + apply Forall_map. eapply Forall_impl; [exact Hge|]. intros r Hr. exact Hr.
    + clear Hsearch Hlen Hge. induction Hsorted as [|r found _ IH Hall]; simpl.
      * constructor.
      * constructor; [exact IH|]. apply Forall_map.
        eapply Forall_impl; [exact Hall|]. intros r' Hr'. exact Hr'.
Qed.

(** The first half at the engine with one document. *)
Lemma C5_search_defaults_witness :
  (length [mkResult "d1" 0%R "document" None] ≤ 5)%nat ∧
  Forall (fun r => (score r >= 0)%R) [mkResult "d1" 0%R "document" None].
Proof.
  destruct (proj1 C5_search_defaults axisService "query" "default" None
              oneDocumentEngine _ oneDocumentEngine_search) as (Hlen & Hge & _).
  split; assumption.
Defined.

End SearchClaims.

(** ** The facade *)

Section JsMapFacts.
Context {K V : Type} `{EqDecision K}.

Lemma JsMap_get_set_eq (k : K) (v : V) m : JsMap.get k (JsMap.set k v m) = Some v.
Proof.
  induction m as [|[k' v'] m IH]; simpl.
  - destruct (decide (k = k)); congruence.
  - destruct (decide (k = k')) as [->|Hne]; simpl.
    + destruct (decide (k' = k')); congruence.
    + destruct (decide (k = k')); [contradiction|exact IH].
Qed.

Lemma JsMap_get_set_ne (k k' : K) (v : V) m :
  k ≠ k' → JsMap.get k (JsMap.set k' v m) = JsMap.get k m.
Proof.
  intros Hne. induction m as [|[k'' v''] m IH]; simpl.
  - destruct (decide (k = k')); [contradiction|reflexivity].
  - destruct (decide (k' = k'')) as [->|Hne']; simpl.
    + destruct (decide (k = k'')); [contradiction|reflexivity].
    + destruct (decide (k = k'')); [reflexivity|exact IH].
Qed.

Lemma JsMap_get_set_is_Some (k k' : K) (v : V) m :
  is_Some (JsMap.get k m) → is_Some (JsMap.get k (JsMap.set k' v m)).
Proof.
  intros Hk. destruct (decide (k = k')) as [->|Hne].
  - rewrite JsMap_get_set_eq. eauto.
  - rewrite JsMap_get_set_ne by exact Hne. exact Hk.
Qed.

End JsMapFacts.

Section FacadeClaims.
Import Cancellation Chunking Embeddings Orchestrator.

(** The storing loop writes to the storage adapter and to nothing else. *)
Lemma storeChunks_spec providerId token chunks :
  ∀ v stored v',
    storeChunks providerId token chunks v = Ok (stored, v') →
    semanticSearch v' = semanticSearch v ∧
    embeddingService v' = embeddingService v ∧
    chunkingStrategies v' = chunkingStrategies v ∧
    (∀ k, is_Some (Storage.retrieveDocument k (storage v)) →
          is_Some (Storage.retrieveDocument k (storage v'))) ∧
    (stored = true →
       ∀ chunk, chunk ∈ chunks →
         is_Some (Storage.retrieveDocument (Chunking.id chunk) (storage v'))).
Proof.
  induction chunks as [|chunk chunks IH]; intros v stored v'; simpl.
  - intros [= <- <-]. repeat split; auto. intros _ chunk Hin. inversion Hin.
  - destruct (requested token).
    { intros [= <- <-]. repeat split; auto. discriminate. }
    destruct (computeEmbeddings _ _ token _) as [embeddings| |]; cbn [bind];
      try discriminate.
    intros Hrest. apply IH in Hrest as (Hsearch & Hservice & Hstrategies & Hkeep & Hall).
    cbn [semanticSearch embeddingService chunkingStrategies storage] in *.
    repeat split; try assumption.
    + intros k Hk. apply Hkeep. unfold Storage.retrieveDocument, Storage.storeDocument.
      cbn [Storage.documents]. apply JsMap_get_set_is_Some. exact Hk.
    + intros Hstored c Hin. apply elem_of_cons in Hin as [->|Hin]; [|auto].
      apply Hkeep. unfold Storage.retrieveDocument, Storage.storeDocument.
      cbn [Storage.documents]. rewrite JsMap_get_set_eq. eauto.
Qed.

Lemma indexFile_spec fuel now filePath content options token v chunks v' :
  indexFile fuel now filePath content options token v = Ok (chunks, v') →
  semanticSearch v' = semanticSearch v ∧
  ∀ chunk, chunk ∈ chunks →
    is_Some (Storage.retrieveDocument (Chunking.id chunk) (storage v')).
Proof.
  unfold indexFile. destruct (requested token) eqn:Htoken.
  { intros [= <- <-]. split; [reflexivity|]. intros chunk Hin. inversion Hin. }
  destruct (strategyFor options v) as [strategy| |]; cbn [bind]; try discriminate.
  destruct (strategy fuel content _ token) as [made| |]; cbn [bind]; try discriminate.
  destruct (getProvider _ _); [|discriminate].
  destruct (storeChunks _ token made v) as [[stored v'']| |] eqn:Hstore; cbn [bind];
    try discriminate.
  cbn [fst snd]. intros [= <- <-].
  apply storeChunks_spec in Hstore as (Hsearch & _ & _ & _ & Hall).
  split; [exact Hsearch|]. destruct stored; [auto|].
  intros chunk Hin. inversion Hin.
Qed.

Lemma indexContent_semanticSearch fuel content metadata options token v chunk v' :
  indexContent fuel content metadata options token v = Ok (chunk, v') →
  semanticSearch v' = semanticSearch v.
Proof.
  unfold indexContent. destruct (requested token).
  { intros [= <- <-]. reflexivity. }
  destruct (strategyFor options v) as [strategy| |]; cbn [bind]; try discriminate.
  destruct (strategy fuel content _ token) as [[|first made]| |]; cbn [bind];
    try discriminate.
  { intros [= <- <-]. reflexivity. }
  destruct (computeEmbeddings _ _ token _); cbn [bind]; try discriminate.
  intros [= <- <-]. reflexivity.
Qed.

(** No call on the facade gives the search engine a document. *)
Lemma reachable_engine_empty v :
  reachable v → Search.documents (semanticSearch v) = [].
Proof.
  induction 1 as [config semantic|v c v' _ IH Hrun]; [reflexivity|].
  destruct c; simpl in Hrun.
  - injection Hrun as <-. exact IH.
  - unfold setDefaultProviderId in Hrun. destruct (getProvider _ _); [|discriminate].
    injection Hrun as <-. exact IH.
  - injection Hrun as <-. exact IH.
  - destruct (indexFile _ _ _ _ _ _ v) as [[chunks v'']| |] eqn:Hindex; cbn [bind] in Hrun;
      try discriminate.
    injection Hrun as <-. apply indexFile_spec in Hindex as [-> _]. exact IH.
  - destruct (indexContent _ _ _ _ _ v) as [[chunk v'']| |] eqn:Hindex; cbn [bind] in Hrun;
      try discriminate.
    injection Hrun as <-. apply indexContent_semanticSearch in Hindex as ->. exact IH.
Qed.

Lemma search_empty_engine query options token v results :
  Search.documents (semanticSearch v) = [] →
  search query options token v = Ok results → results = [].
Proof.
  intros Hempty. unfold search, Search.search. rewrite Hempty.
  destruct (requested token); [intros [= <-]; reflexivity|].
  destruct (computeEmbeddings _ _ token _); cbn [bind mapM]; try discriminate.
  unfold Arr.slice0. cbn [List.filter Arr.sort fold_right]. rewrite !take_nil.
  destruct (_ <? 0); destruct (default true _); cbn [map]; intros [= <-]; reflexivity.
Qed.

Lemma exampleFacade_reachable : reachable exampleFacade.
Proof. apply reachable_new. Defined.

Lemma exampleIndexed_eq :
  indexFile 1 "2024-01-01T00:00:00.000Z" "src/a.ts" "query" noIndexingOptions None
    exampleFacade = Ok exampleIndexed.
Proof. reflexivity. Defined.

Lemma same_axis : Vec.cosineSimilarity (Some [1; 0]%R) (Some [1; 0]%R) = Ok 1%R.
Proof.
  unfold Vec.cosineSimilarity, Vec.sums. cbn [length Nat.eqb negb combine fold_left fst snd].
  settle_real_test.
  f_equal. replace (0 + 1 * 1 + 0 * 0)%R with 1%R by ring.
  rewrite sqrt_1. field.
Qed.

(** The search that the storage adapter offers does find the chunk that
    [indexFile] stored in the example: [findSimilar] with the embedding of the
    query and the defaults of the facade returns it, with similarity 1. *)
Lemma exampleIndexed_findSimilar :
  ∃ found,
    Storage.findSimilar (Some [1; 0]%R) 5 None (storage (snd exampleIndexed)) = Ok [found] ∧
    Storage.id found = "chunk-a_ts-0-66f18c8" ∧
    Storage.similar_content found = "query" ∧
    Storage.score found = 1%R.
Proof.
  assert (Hdocs : ∃ metadata,
            Storage.documents (storage (snd exampleIndexed)) =
              [("chunk-a_ts-0-66f18c8", Storage.mkStored "query" (Some [1; 0]%R) metadata)])
    by (eexists; reflexivity).
  destruct Hdocs as [metadata Hdocs].
  exists (Storage.mkSimilar "chunk-a_ts-0-66f18c8" "query" metadata 1%R).
  split; [|repeat split].
  unfold Storage.findSimilar. rewrite Hdocs.
  cbn [mapM fst snd Storage.embedding Storage.content Storage.metadata default].
  rewrite same_axis. cbn [bind List.filter Storage.score]. unfold Arr.Rgeb.
  settle_real_test. reflexivity.
Qed.

(** C1 fails on the code.  Whatever the facade has been through, [indexFile]
    puts every chunk it returns into the storage adapter, and the semantic
    search engine, from whose documents [search] answers, still has none: every
    [search] that returns, returns the empty list. *)
Theorem C1_search_never_sees_indexed_chunks :
  ∀ v fuel now filePath content options token chunks v',
    reachable v →
    indexFile fuel now filePath content options token v = Ok (chunks, v') →
    (∀ chunk, chunk ∈ chunks →
       is_Some (Storage.retrieveDocument (Chunking.id chunk) (storage v'))) ∧
    Search.documents (semanticSearch v') = [] ∧
    (∀ query options' token' results,
       search query options' token' v' = Ok results → results = []).
Proof.
  intros v fuel now filePath content options token chunks v' Hreach Hindex.
  pose proof (indexFile_spec _ _ _ _ _ _ _ _ _ Hindex) as [Hsearch Hstored].
  assert (Hempty : Search.documents (semanticSearch v') = []).
  { rewrite Hsearch. apply reachable_engine_empty, Hreach. }
  split; [exact Hstored|]. split; [exact Hempty|].
  intros query options' token' results. apply search_empty_engine, Hempty.
Qed.

(** At the example: the chunk of ["src/a.ts"] is in the storage adapter, the
    engine has no document, and the search for the very text of the chunk
    returns nothing. *)
Lemma C1_search_never_sees_indexed_chunks_witness :
  is_Some (Storage.retrieveDocument "chunk-a_ts-0-66f18c8" (storage (snd exampleIndexed))) ∧
  Search.documents (semanticSearch (snd exampleIndexed)) = [] ∧
  search "query" Search.noOptions None (snd exampleIndexed) = Ok [].
Proof.
  destruct (C1_search_never_sees_indexed_chunks exampleFacade 1
              "2024-01-01T00:00:00.000Z" "src/a.ts" "query" noIndexingOptions None
              (fst exampleIndexed) (snd exampleIndexed)
              exampleFacade_reachable exampleIndexed_eq)
    as (Hstored & Hempty & Hsearch).
  split; [|split; [exact Hempty|]].
  - refine (Hstored (mkChunk "chunk-a_ts-0-66f18c8" "query" _) _).
    apply list_elem_of_In. left. reflexivity.
  - destruct (search "query" Search.noOptions None (snd exampleIndexed))
      as [results| |] eqn:Hresults.
    + f_equal. eapply Hsearch. exact Hresults.
    + discriminate Hresults.
    + discriminate Hresults.
Defined.

End FacadeClaims.

(** ** Context keys: hierarchy, collection and identifiers *)

Section ContextHierarchy.
Import ContextKeys.

Lemma setValue_other_key h c key v key' :
  key' ≠ key →
  ∀ c', Context_getValue (snd (Context_setValue h c key v)) c' key'
        = Context_getValue h c' key'.
Proof.
  intros Hne c'. unfold Context_getValue, Context_setValue. cbn [snd].
  rewrite size_alter.
  change (alter (λ o, mkContext (id o) (<[key:=v]> (_value o)) (_parent o)) c h)
    with (snd (Context_setValue h c key v)).
  apply getValue_fuel_ext. intros r.
  rewrite Context_setValue_spec.
  destruct (h !! c) as [o|] eqn:Ec.
  - destruct (decide (c = r)) as [<-|Hr].
    + rewrite lookup_insert_eq, Ec. simpl. rewrite lookup_insert_ne by done. done.
    + rewrite lookup_insert_ne by done. destruct (h !! r); done.
  - destruct (h !! r); done.
Qed.

Lemma removeValue_other_key h c key key' :
  key' ≠ key →
  ∀ c', Context_getValue (snd (Context_removeValue h c key)) c' key'
        = Context_getValue h c' key'.
Proof.
  intros Hne c'. unfold Context_removeValue.
  destruct (h !! c) as [o|] eqn:Ec; simpl; [|reflexivity].
  destruct (_value o !! key) eqn:Ev; simpl; [|reflexivity].
  unfold Context_getValue. rewrite (size_insert_present _ _ _ _ Ec).
  apply getValue_fuel_ext. intros r.
  destruct (decide (c = r)) as [<-|Hr].
  - rewrite lookup_insert_eq, Ec. simpl. rewrite lookup_delete_ne by done. done.
  - rewrite lookup_insert_ne by done. destruct (h !! r); done.
Qed.

(** X1: a context key is alone on its name.  [set] and [reset] of the key
    named [k] leave the value that every context reads under any other name
    as it was. *)
Theorem X1_contextkey_writes_one_name :
  ∀ s k v key' c,
    key' ≠ _key k →
    Context_getValue (objects (ContextKey_set k v s)) c key'
      = Context_getValue (objects s) c key' ∧
    Context_getValue (objects (ContextKey_reset k s)) c key'
      = Context_getValue (objects s) c key'.
Proof.
  intros s k v key' c Hne.
  assert (Hset : ∀ w, Context_getValue (objects (setContext (_key k) w s)) c key'
                      = Context_getValue (objects s) c key').
  { intros w. unfold setContext. destruct (_contexts s !! 1%nat); [|reflexivity].
    cbn [objects]. apply setValue_other_key. exact Hne. }
  split; [apply Hset|].
  unfold ContextKey_reset. destruct (_defaultValue k); try apply Hset.
  unfold removeContext. destruct (_contexts s !! 1%nat); [|reflexivity].
  cbn [objects]. apply removeValue_other_key. exact Hne.
Qed.

Lemma X1_contextkey_writes_one_name_witness :
  Context_getValue
    (objects (ContextKey_set (mkContextKey "a" VUndefined) (VBoolean true) serviceWithChild))
    2%nat "b"
  = Context_getValue (objects serviceWithChild) 2%nat "b".
Proof.
  refine (proj1 (X1_contextkey_writes_one_name serviceWithChild
                   (mkContextKey "a" VUndefined) (VBoolean true) "b" 2%nat _)).
  discriminate.
Defined.

(** In a store where parents are older than their children, the ancestors
    of a context are not younger than the context. *)
Lemma ancestor_ordered h c a : ordered h → ancestor h c a → (a ≤ c)%nat.
Proof.
  intros Hord. induction 1 as [|c o p a Hc Hp _ IH]; [lia|].
  pose proof (Hord _ _ _ Hc Hp). lia.
Qed.

(** Every call except [updateParent] keeps parents older than children. *)
Lemma run_ordered s c s' :
  wf s → ordered (objects s) → keepsParents c = true → run c s = Ok s' →
  ordered (objects s').
Proof.
  intros Hwf Hord Hkeep Hrun.
  assert (Hvalue : ∀ x key v,
            ordered (snd (Context_setValue (objects s) x key v))).
  { intros x key v r o p Hr Hp. rewrite Context_setValue_spec in Hr.
    destruct (objects s !! x) as [ox|] eqn:Ex; [|eapply Hord; eassumption].
    destruct (decide (x = r)) as [->|Hne].
    - rewrite lookup_insert_eq in Hr. injection Hr as <-. simpl in Hp.
      eapply Hord; eassumption.
    - rewrite lookup_insert_ne in Hr by done. eapply Hord; eassumption. }
  assert (Hremove : ∀ x key, ordered (snd (Context_removeValue (objects s) x key))).
  { intros x key r o p Hr Hp. unfold Context_removeValue in Hr.
    destruct (objects s !! x) as [ox|] eqn:Ex; [|eapply Hord; eassumption].
    destruct (_value ox !! key); [|eapply Hord; eassumption]. simpl in Hr.
    destruct (decide (x = r)) as [->|Hne].
    - rewrite lookup_insert_eq in Hr. injection Hr as <-. simpl in Hp.
      eapply Hord; eassumption.
    - rewrite lookup_insert_ne in Hr by done. eapply Hord; eassumption. }
  assert (Hset : ∀ key v, ordered (objects (setContext key v s))).
  { intros key v. unfold setContext. destruct (_contexts s !! 1%nat); [|exact Hord].
    apply Hvalue. }
  assert (Hrem : ∀ key, ordered (objects (removeContext key s))).
  { intros key. unfold removeContext. destruct (_contexts s !! 1%nat); [|exact Hord].
    apply Hremove. }
  destruct c; simpl in Hrun, Hkeep; try discriminate.
  - injection Hrun as <-. unfold ContextKey_reset; simpl.
    destruct defaultValue; auto.
  - injection Hrun as <-. apply Hset.
  - injection Hrun as <-. unfold ContextKey_reset; simpl.
    destruct (_defaultValue k); auto.
  - injection Hrun as <-. apply Hset.
  - injection Hrun as <-. apply Hrem.
  - unfold createChildContext, getContextValuesContainer in Hrun.
    destruct (_contexts s !! default 1%nat parentContextId) as [par|] eqn:Epar;
      simpl in Hrun; [|discriminate].
    injection Hrun as <-. simpl. destruct Hwf as (Hobj & Hctx & _).
    destruct (Hctx _ _ Epar) as [_ [opar Hopar]].
    intros r o p Hr Hp. destruct (decide (S (_lastContextId s) = r)) as [<-|Hne].
    + rewrite lookup_insert_eq in Hr. injection Hr as <-. simpl in Hp.
      injection Hp as <-. apply Hobj in Hopar. lia.
    + rewrite lookup_insert_ne in Hr by done. eapply Hord; eassumption.
  - injection Hrun as <-. exact Hord.
  - injection Hrun as <-. apply Hvalue.
  - injection Hrun as <-. apply Hremove.
Qed.

Lemma runAll_ordered cs :
  ∀ s s', wf s → ordered (objects s) →
    Forall (fun call => keepsParents call = true) cs → runAll cs s = Ok s' →
    wf s' ∧ ordered (objects s').
Proof.
  induction cs as [|c cs IH]; intros s s' Hwf Hord Hall Hrun; simpl in Hrun.
  - injection Hrun as <-. auto.
  - apply Forall_cons in Hall as [Hc Hall].
    destruct (run c s) as [s1| |] eqn:E1; simpl in Hrun; try discriminate.
    apply (IH s1 s'); [eapply wf_run; eassumption| |assumption|assumption].
    eapply run_ordered; eassumption.
Qed.

(** A service on which [updateParent] was never called. *)
Lemma runAll_new_ordered cs s :
  runAll cs newContextKeyService = Ok s →
  Forall (fun call => keepsParents call = true) cs →
  wf s ∧ ordered (objects s).
Proof.
  intros Hrun Hall. apply (runAll_ordered cs newContextKeyService); auto using wf_new.
  intros r o p Hr Hp. simpl in Hr.
  apply lookup_singleton_Some in Hr as [_ <-]. discriminate.
Qed.

(** X2: a value set on a context shadows the inherited one there, and is
    seen by that context and its descendants only.  After
    [setValue(key, v)] on the context object [c], [c] reads [v]; a context
    that does not have [c] on its chain of parents reads under every name
    what it read before, and so does the service through
    [getContextKeyValue] when [c] is not on the chain of the root.  In a
    store where every parent is older than its children (the case until
    [updateParent] is called, see [runAll_new_ordered]) this covers every
    context created before [c]. *)
Theorem X2_child_value_shadows_and_stays_local :
  ∀ s c o key v s',
    objects s !! c = Some o →
    run (SetValue c key v) s = Ok s' →
    Context_getValue (objects s') c key = Some v ∧
    (∀ c' key', ¬ ancestor (objects s) c' c →
       Context_getValue (objects s') c' key' = Context_getValue (objects s) c' key') ∧
    (∀ r, _contexts s !! 1%nat = Some r → ¬ ancestor (objects s) r c →
       ∀ key', getContextKeyValue key' s' = getContextKeyValue key' s) ∧
    (ordered (objects s) →
       ∀ c' key', (c' < c)%nat →
         Context_getValue (objects s') c' key' = Context_getValue (objects s) c' key').
Proof.
  intros s c o key v s' Hc [= <-]. cbn [objects _contexts].
  change (alter (λ o, mkContext (id o) (<[key:=v]> (_value o)) (_parent o)) c (objects s))
    with (snd (Context_setValue (objects s) c key v)).
  assert (Hsize : size (snd (Context_setValue (objects s) c key v)) = size (objects s)).
  { apply size_alter. }
  rewrite Context_setValue_spec, Hc in *.
  set (h' := <[c := mkContext (id o) (<[key := v]> (_value o)) (_parent o)]> (objects s))
    in *.
  assert (Haway : ∀ c' key', ¬ ancestor (objects s) c' c →
            Context_getValue h' c' key' = Context_getValue (objects s) c' key').
  { intros c' key' Hnot. unfold Context_getValue. rewrite Hsize.
    apply (getValue_fuel_frame (objects s) h' key'
             (fun x => ¬ ancestor (objects s) x c)); [| |exact Hnot].
    - intros x Hx. unfold h'. rewrite lookup_insert_ne; [reflexivity|].
      intros <-. apply Hx, ancestor_self.
    - intros x ox p Hx Hox Hp Hanc. apply Hx. eapply ancestor_up; eassumption. }
  split; [|split; [exact Haway|split]].
  - erewrite getValue_unfold by apply lookup_insert_eq. simpl.
    rewrite lookup_insert_eq. reflexivity.
  - intros r Hr Hnot key'. unfold getContextKeyValue. cbn [_contexts objects].
    rewrite Hr. apply Haway, Hnot.
  - intros Hord c' key' Hlt. apply Haway. intros Hanc.
    apply (ancestor_ordered _ _ _ Hord) in Hanc. lia.
Qed.

Lemma X2_child_value_shadows_and_stays_local_witness :
  Context_getValue
    (snd (Context_setValue (objects serviceWithChild) 2%nat "k" (VString "child")))
    2%nat "k" = Some (VString "child").
Proof.
  refine (proj1 (X2_child_value_shadows_and_stays_local serviceWithChild 2%nat
                   (mkContext 2 ∅ (Some 1%nat)) "k" (VString "child") _ _ eq_refl)).
  reflexivity.
Defined.

(** What [collectAllValues] returns holds, under each name, what [getValue]
    returns with the same fuel. *)
Lemma collectAllValues_fuel_spec h :
  ∀ fuel c m, Context_collectAllValues_fuel fuel h c = Some m →
    ∀ key, Context_getValue_fuel fuel h c key = Some (default VUndefined (m !! key)).
Proof.
  induction fuel as [|fuel IH]; intros c m Hm key; [discriminate|].
  simpl in Hm. rewrite getValue_fuel_step.
  destruct (h !! c) as [o|]; [|discriminate].
  destruct (_parent o) as [p|].
  - destruct (Context_collectAllValues_fuel fuel h p) as [inherited|] eqn:E;
      [|discriminate].
    injection Hm as <-. unfold Object_assign.
    destruct (_value o !! key) as [w|] eqn:Ev.
    + erewrite lookup_union_Some_l by exact Ev. reflexivity.
    + rewrite lookup_union_r by exact Ev. rewrite (right_id ∅ (∪) inherited).
      apply IH, E.
  - injection Hm as <-. unfold Object_assign.
    rewrite (right_id ∅ (∪) (_value o)). destruct (_value o !! key); reflexivity.
Qed.

Lemma collectAllValues_fuel_rooted h :
  ∀ fuel c m, Context_collectAllValues_fuel fuel h c = Some m → rooted h c.
Proof.
  induction fuel as [|fuel IH]; intros c m Hm; [discriminate|].
  simpl in Hm. destruct (h !! c) as [o|] eqn:Ec; [|discriminate].
  destruct (_parent o) as [p|] eqn:Ep.
  - destruct (Context_collectAllValues_fuel fuel h p) as [inherited|] eqn:E;
      [|discriminate].
    eapply rooted_up; [exact Ec|exact Ep|]. eapply IH, E.
  - eapply rooted_top; eassumption.
Qed.

Lemma rooted_climbs h c :
  rooted h c → ∃ n, climbs h (fun o => _parent o = None) c n.
Proof.
  induction 1 as [c o Hc Hp|c o p Hc Hp _ [n IH]].
  - exists 1%nat. eapply climbs_stop; eassumption.
  - exists (S n). eapply climbs_up; [exact Hc| |exact Hp|exact IH]. congruence.
Qed.

Lemma climbs_collectAllValues h c n :
  climbs h (fun o => _parent o = None) c n →
  is_Some (Context_collectAllValues_fuel n h c).
Proof.
  induction 1 as [c o Hc Hp|c o p n Hc _ Hp _ [m IH]].
  - simpl. rewrite Hc, Hp. eauto.
  - simpl. rewrite Hc, Hp, IH. eauto.
Qed.

(** In a store where parents are older than their children, every chain of
    parents ends. *)
Lemma ordered_rooted s c :
  wf s → ordered (objects s) → is_Some (objects s !! c) → rooted (objects s) c.
Proof.
  intros (Hobj & _) Hord. induction c as [c IH] using lt_wf_ind. intros [o Hc].
  destruct (_parent o) as [p|] eqn:Ep.
  - eapply rooted_up; [exact Hc|exact Ep|]. apply IH.
    + eapply Hord; eassumption.
    + destruct (Hobj _ _ Hc) as (_ & _ & Hp). apply Hp, Ep.
  - eapply rooted_top; eassumption.
Qed.

(** X3: [collectAllValues] and [getValue] agree.  [collectAllValues] of a
    context returns exactly when the chain of parents of the context ends at
    a context without parent, which it does for every context of a service on
    which [updateParent] was never called (a cycle of parents makes it call
    itself without end).  When it returns, it holds under each name exactly
    what [getValue] of that context returns for the name ([undefined] for a
    name it does not hold). *)
Theorem X3_collectAllValues_agrees_with_getValue :
  ∀ s c,
    (is_Some (Context_collectAllValues (objects s) c) ↔ rooted (objects s) c) ∧
    (∀ m, Context_collectAllValues (objects s) c = Some m →
       ∀ key, Context_getValue (objects s) c key
              = Some (default VUndefined (m !! key))) ∧
    (∀ cs, runAll cs newContextKeyService = Ok s →
       Forall (fun call => keepsParents call = true) cs →
       is_Some (objects s !! c) → rooted (objects s) c).
Proof.
  intros s c. split; [split|split].
  - intros [m Hm]. eapply collectAllValues_fuel_rooted, Hm.
  - intros Hrooted. destruct (rooted_climbs _ _ Hrooted) as [n Hclimb].
    destruct (climbs_collectAllValues _ _ _ Hclimb) as [m Hm].
    exists m. unfold Context_collectAllValues.
    apply (collectAllValues_fuel_mono _ _ _ _ Hm). eapply climbs_bound, Hclimb.
  - intros m Hm key. apply collectAllValues_fuel_spec, Hm.
  - intros cs Hrun Hall Hc.
    destruct (runAll_new_ordered cs s Hrun Hall) as [Hwf Hord].
    apply ordered_rooted; assumption.
Qed.

Lemma X3_collectAllValues_agrees_with_getValue_witness :
  is_Some (Context_collectAllValues (objects serviceWithChild) 2%nat).
Proof.
  destruct (X3_collectAllValues_agrees_with_getValue serviceWithChild 2%nat)
    as (Hreturns & _ & Hordered).
  apply Hreturns. apply (Hordered [CreateChildContext None]).
  - reflexivity.
  - repeat constructor.
  - simpl. eauto.
Defined.

(** With the root and its child as each other's parent, a lookup of a name
    that neither binds does not return, and neither does
    [collectAllValues]; a name that one of them binds is still found. *)
Lemma serviceWithCycle_lookups :
  reachable serviceWithCycle ∧
  Context_getValue (objects serviceWithCycle) 2%nat "k" = None ∧
  Context_collectAllValues (objects serviceWithCycle) 2%nat = None ∧
  Context_getValue
    (snd (Context_setValue (objects serviceWithCycle) 1%nat "k" (VString "v")))
    2%nat "k" = Some (VString "v").
Proof.
  split; [|repeat split].
  eapply reachable_run; [apply serviceWithChild_reachable|].
  instantiate (1 := UpdateParent 1%nat 2%nat). reflexivity.
Qed.

(** X4: a new child starts as a view of its parent.  When
    [createChildContext(p)] returns, the id is one above the last id and was
    bound to no context before, the service finds the new context under it,
    the new context reads under every name what its parent reads, and every
    other context reads what it read before.  When [p] is not registered the
    call throws. *)
Theorem X4_createChildContext_fresh_view_of_parent :
  ∀ s p,
    reachable s →
    match createChildContext p s with
    | Ok (i, s') =>
        i = S (_lastContextId s) ∧
        _contexts s !! i = None ∧ objects s !! i = None ∧
        getContextValuesContainer i s' = Ok i ∧
        (∀ key, Context_getValue (objects s') i key
                = Context_getValue (objects s) (default 1%nat p) key) ∧
        (∀ c key, c ≠ i →
           Context_getValue (objects s') c key = Context_getValue (objects s) c key)
    | Throw _ => _contexts s !! default 1%nat p = None
    | NoReturn => False
    end.
Proof.
  intros s p Hreach. pose proof (reachable_wf _ Hreach) as Hwf.
  pose proof Hwf as (Hobj & Hctx & _ & Hlast).
  unfold createChildContext, getContextValuesContainer.
  destruct (_contexts s !! default 1%nat p) as [par|] eqn:Epar; simpl; [|reflexivity].
  destruct (Hctx _ _ Epar) as [-> [opar Hopar]].
  assert (Hfresh : objects s !! S (_lastContextId s) = None).
  { destruct (objects s !! S (_lastContextId s)) eqn:E; [|reflexivity].
    apply Hobj in E. lia. }
  set (i := S (_lastContextId s)) in *.
  set (h' := <[i := mkContext i ∅ (Some (default 1%nat p))]> (objects s)).
  assert (Hold : ∀ fuel c key, is_Some (objects s !! c) →
            Context_getValue_fuel fuel h' c key
            = Context_getValue_fuel fuel (objects s) c key).
  { intros fuel c key Hc.
    apply (getValue_fuel_frame (objects s) h' key
             (fun x => is_Some (objects s !! x))); [| |exact Hc].
    - intros x [ox Hx]. unfold h'. rewrite lookup_insert_ne; [reflexivity|].
      intros <-. congruence.
    - intros x ox q _ Hox Hq. destruct (Hobj _ _ Hox) as (_ & _ & Hpar).
      apply Hpar, Hq. }
  assert (Hsize : size h' = S (size (objects s))).
  { apply size_insert_fresh, Hfresh. }
  split; [reflexivity|]. split; [|split; [exact Hfresh|split; [|split]]].
  - destruct (_contexts s !! i) eqn:E; [|reflexivity].
    apply Hctx in E as [-> [o Ho]]. congruence.
  - rewrite lookup_insert_eq. reflexivity.
  - intros key. unfold Context_getValue at 1. fold h'. rewrite Hsize.
    rewrite getValue_fuel_step. unfold h' at 1. rewrite lookup_insert_eq.
    cbn [_value _parent]. rewrite lookup_empty. lazy beta match.
    apply Hold. eauto.
  - intros c key Hc. fold h'. destruct (objects s !! c) as [o|] eqn:Ec.
    + unfold Context_getValue at 1. rewrite Hsize, Hold by eauto.
      apply getValue_fuel_saturated. lia.
    + rewrite !getValue_absent; [reflexivity|exact Ec|].
      unfold h'. rewrite lookup_insert_ne by done. exact Ec.
Qed.

Lemma X4_createChildContext_fresh_view_of_parent_witness :
  Context_getValue (objects serviceWithChild) 2%nat "k"
    = Context_getValue (objects newContextKeyService) 1%nat "k".
Proof.
  pose proof (X4_createChildContext_fresh_view_of_parent newContextKeyService None
                reachable_new) as H.
  change (createChildContext None newContextKeyService)
    with (Ok (2%nat, serviceWithChild)) in H.
  exact (proj1 (proj2 (proj2 (proj2 (proj2 H)))) "k").
Defined.

(** No call lowers [_lastContextId]. *)
Lemma run_lastContextId s c s' :
  run c s = Ok s' → (_lastContextId s ≤ _lastContextId s')%nat.
Proof.
  destruct c; simpl; try (intros [= <-]; simpl; lia).
  - intros [= <-]. unfold ContextKey_reset, setContext, removeContext.
    destruct defaultValue, (_contexts s !! 1%nat); simpl; lia.
  - intros [= <-]. unfold ContextKey_set, setContext.
    destruct (_contexts s !! 1%nat); simpl; lia.
  - intros [= <-]. unfold ContextKey_reset, setContext, removeContext.
    destruct (_defaultValue k), (_contexts s !! 1%nat); simpl; lia.
  - intros [= <-]. unfold setContext. destruct (_contexts s !! 1%nat); simpl; lia.
  - intros [= <-]. unfold removeContext. destruct (_contexts s !! 1%nat); simpl; lia.
  - unfold createChildContext.
    destruct (getContextValuesContainer (default 1%nat parentContextId) s); simpl;
      try discriminate.
    intros [= <-]. simpl. lia.
  - destruct (objects s !! parent); intros [= <-]; simpl; lia.
Qed.

Lemma runAll_lastContextId cs :
  ∀ s s', runAll cs s = Ok s' → (_lastContextId s ≤ _lastContextId s')%nat.
Proof.
  induction cs as [|c cs IH]; intros s s' Hrun; simpl in Hrun.
  - injection Hrun as <-. lia.
  - destruct (run c s) as [s1| |] eqn:E1; simpl in Hrun; try discriminate.
    apply run_lastContextId in E1. apply IH in Hrun. lia.
Qed.

(** X5: context ids are never handed out twice.  Whatever calls are made
    between two calls of [createChildContext], disposals included, the
    second id is greater than the first. *)
Theorem X5_context_ids_strictly_increase :
  ∀ s p i s1 cs s2 q j s3,
    createChildContext p s = Ok (i, s1) →
    runAll cs s1 = Ok s2 →
    createChildContext q s2 = Ok (j, s3) →
    (i < j)%nat.
Proof.
  intros s p i s1 cs s2 q j s3 H1 Hrun H2.
  unfold createChildContext in H1, H2.
  destruct (getContextValuesContainer (default 1%nat p) s); simpl in H1; try discriminate.
  destruct (getContextValuesContainer (default 1%nat q) s2); simpl in H2; try discriminate.
  injection H1 as <- <-. injection H2 as <- <-.
  apply runAll_lastContextId in Hrun. simpl in Hrun. lia.
Qed.

Lemma X5_context_ids_strictly_increase_witness : (2 < 3)%nat.
Proof.
  refine (X5_context_ids_strictly_increase newContextKeyService None 2%nat _
            [DisposeContext 2%nat] _ None 3%nat _ eq_refl eq_refl eq_refl).
Defined.

End ContextHierarchy.

(** ** The sparse index: what its counters mean and which chunks score *)

Section TfIdfMore.
Import Cancellation TfIdf.

Lemma storedChunks_delete (P : DocumentChunkEntry → Prop) k
    (m : list (string * list DocumentChunkEntry)) :
  Forall P (flat_map snd m) → Forall P (flat_map snd (JsMap.delete k m)).
Proof.
  induction m as [|[k' v] m IH]; simpl; [auto|].
  rewrite Forall_app. intros [Hv Hm].
  destruct (decide (k = k')); [exact Hm|].
  simpl. rewrite Forall_app. auto.
Qed.

Lemma storedChunks_deleteDocument (P : DocumentChunkEntry → Prop) k c :
  Forall P (storedChunks c) → Forall P (storedChunks (deleteDocument k c)).
Proof.
  unfold storedChunks, deleteDocument. intros H.
  destruct (JsMap.get k (documents c)); [|exact H].
  simpl. apply storedChunks_delete, H.
Qed.

Lemma storedChunks_delete_many (P : DocumentChunkEntry → Prop) (docs : list TfIdfDocument) :
  ∀ c, Forall P (storedChunks c) →
    Forall P (storedChunks (fold_left (fun c doc => deleteDocument (key doc) c) docs c)).
Proof.
  induction docs as [|d docs IH]; intros c H; simpl; [exact H|].
  apply IH, storedChunks_deleteDocument, H.
Qed.

(** In the states of [reachable] the counters are as documented, and every
    stored chunk carries the term frequencies of its text. *)
Lemma reachable_consistent c :
  reachable c →
  consistent c ∧
  Forall (fun chunk => tf chunk = termFrequencies (text chunk)) (storedChunks c).
Proof.
  induction 1 as [|c docs _ [Hc Htf] Hnodup|c k _ [Hc Htf]].
  - split; [apply consistent_new|constructor].
  - unfold updateDocuments.
    destruct (consistent_delete_many key docs c Hc) as [Hdel Hkeys].
    destruct (consistent_add_many docs _ Hdel Hnodup) as [Hcons Hdocs].
    { intros d Hd Hin. apply Hkeys in Hin as [_ Hnot]. apply Hnot.
      apply list_elem_of_fmap_2. exact Hd. }
    split; [exact Hcons|]. unfold storedChunks. rewrite Hdocs, flat_map_app, Forall_app.
    split; [apply storedChunks_delete_many, Htf|].
    clear. induction docs as [|d docs IH]; simpl; [constructor|].
    rewrite Forall_app. split; [|exact IH].
    induction (textChunks d) as [|t ts IHt]; simpl; constructor; auto.
  - split; [apply consistent_deleteDocument, Hc|apply storedChunks_deleteDocument, Htf].
Qed.

(** X6: the two counters of the index mean what their comments say.  In
    every state that the calculator reaches when no batch names a key twice,
    [chunkCount] is the number of stored chunks and [chunkOccurrences] maps
    each term to the number of stored chunks that hold it, with no entry for
    a term that no chunk holds; the document keys are distinct. *)
Theorem X6_counters_count_stored_chunks :
  ∀ c, reachable c →
    chunkCount c = Z.of_nat (length (storedChunks c)) ∧
    (∀ term, chunkOccurrences c !! term = counter (chunksWith term (storedChunks c))) ∧
    NoDup (JsMap.keys (documents c)).
Proof.
  intros c Hc. destruct (reachable_consistent c Hc) as [(Hkeys & _ & Hcount & Hocc) _].
  auto.
Qed.

Lemma twoChunkIndex_reachable : reachable twoChunkIndex.
Proof.
  apply (reachable_update newTfIdfCalculator [mkDocument "doc" ["cat"; "cat cat"]]).
  - apply reachable_new.
  - apply NoDup_singleton.
Defined.

Lemma X6_counters_count_stored_chunks_witness :
  chunkCount twoChunkIndex = Z.of_nat (length (storedChunks twoChunkIndex)).
Proof.
  exact (proj1 (X6_counters_count_stored_chunks twoChunkIndex twoChunkIndex_reachable)).
Defined.

(** The counts of [countMapFrom] are positive and its keys are the values. *)
Lemma countMapFrom_spec values :
  (∀ t n, JsMap.get t (countMapFrom values) = Some n → 1 ≤ n) ∧
  (∀ t, t ∈ JsMap.keys (countMapFrom values) ↔ t ∈ values).
Proof.
  unfold countMapFrom.
  assert (Hgen : ∀ (acc : list (string * Z)),
            (∀ t n, JsMap.get t acc = Some n → 1 ≤ n) →
            let r := fold_left
                       (fun map value =>
                          JsMap.set value (default 0 (JsMap.get value map) + 1) map)
                       values acc in
            (∀ t n, JsMap.get t r = Some n → 1 ≤ n) ∧
            (∀ t, t ∈ JsMap.keys r ↔ t ∈ JsMap.keys acc ∨ t ∈ values)).
  { induction values as [|value values IH]; intros acc Hacc; simpl.
    - split; [exact Hacc|]. intros t. rewrite elem_of_nil. tauto.
    - destruct (IH (JsMap.set value (default 0 (JsMap.get value acc) + 1) acc))
        as [Hpos Hkeys].
      + intros t n. destruct (decide (t = value)) as [->|Hne].
        * rewrite JsMap_get_set_eq. intros [= <-].
          destruct (JsMap.get value acc) as [m|] eqn:E; simpl; [|lia].
          apply Hacc in E. lia.
        * rewrite JsMap_get_set_ne by done. apply Hacc.
      + split; [exact Hpos|]. intros t. rewrite Hkeys, JsMap_keys_set, elem_of_cons.
        case_bool_decide as E.
        * split; [intros [?|?]; auto|intros [?|[->|?]]; auto].
        * rewrite elem_of_app, list_elem_of_singleton. tauto. }
  destruct (Hgen [] ltac:(intros t n; discriminate)) as [Hpos Hkeys].
  split; [exact Hpos|]. intros t. rewrite Hkeys, elem_of_nil. tauto.
Qed.

Lemma chunksWith_bounds term chunk chunks :
  chunk ∈ chunks → term ∈ JsMap.keys (tf chunk) →
  1 ≤ chunksWith term chunks ≤ Z.of_nat (length chunks).
Proof.
  intros Hin Hterm. unfold chunksWith.
  pose proof (List.filter_length_le (holds term) chunks) as Hle.
  assert (Hmem : In chunk (List.filter (holds term) chunks)).
  { apply filter_In. split; [apply list_elem_of_In, Hin|].
    unfold holds. apply bool_decide_eq_true_2, Hterm. }
  destruct (List.filter (holds term) chunks); [destruct Hmem|]. simpl in *. lia.
Qed.

(** A term of a stored chunk has a positive inverse document frequency. *)
Lemma computeIdf_pos c chunk term :
  consistent c → chunk ∈ storedChunks c → term ∈ JsMap.keys (tf chunk) →
  (0 < computeIdf c term)%R.
Proof.
  intros (_ & _ & Hcount & Hocc) Hin Hterm.
  pose proof (chunksWith_bounds term chunk _ Hin Hterm) as [Hlo Hhi].
  unfold computeIdf. rewrite Hocc. unfold counter.
  destruct (chunksWith term (storedChunks c) =? 0) eqn:E; [lia|]. simpl.
  destruct (0 <? chunksWith term (storedChunks c)) eqn:E'; [|lia].
  rewrite Hcount. rewrite <- ln_1. apply ln_increasing; [lra|].
  assert (0 < IZR (chunksWith term (storedChunks c)))%R by (apply IZR_lt; lia).
  assert (IZR (chunksWith term (storedChunks c))
            <= IZR (Z.of_nat (length (storedChunks c))))%R by (apply IZR_le; lia).
  apply Rmult_lt_reg_r with (IZR (chunksWith term (storedChunks c))); [assumption|].
  unfold Rdiv. rewrite Rmult_assoc, Rinv_l by lra. lra.
Qed.

(** The query embedding holds the terms of the term frequencies that have a
    positive inverse document frequency, each with a positive weight. *)
Lemma computeTfidf_spec c termFrequencies :
  (∀ t n, (t, n) ∈ termFrequencies → 1 ≤ n) →
  (∀ e, e ∈ computeTfidf c termFrequencies →
     (0 < snd e)%R ∧ fst e ∈ JsMap.keys termFrequencies) ∧
  (∀ t, t ∈ JsMap.keys termFrequencies → (0 < computeIdf c t)%R →
     t ∈ JsMap.keys (computeTfidf c termFrequencies)).
Proof.
  induction termFrequencies as [|[word occurrences] rest IH]; intros Hpos; simpl.
  - split; [intros e He; apply elem_of_nil in He; tauto|].
    intros t Ht. apply elem_of_nil in Ht. tauto.
  - destruct IH as [IH1 IH2].
    { intros t n Hin. apply (Hpos t n). right. exact Hin. }
    assert (1 ≤ occurrences) by (apply (Hpos word); left).
    assert (0 < IZR occurrences)%R by (apply IZR_lt; lia).
    destruct (Rlt_dec 0 (computeIdf c word)) as [Hidf|Hidf]; split.
    + intros e He. apply elem_of_cons in He as [->|He]; simpl.
      * split; [apply Rmult_lt_0_compat; assumption|left].
      * destruct (IH1 e He). split; [assumption|right; assumption].
    + intros t Ht Hidft. simpl. apply elem_of_cons in Ht as [->|Ht]; [left|right; auto].
    + intros e He. destruct (IH1 e He). split; [assumption|right; assumption].
    + intros t Ht Hidft. apply elem_of_cons in Ht as [->|Ht]; [contradiction|auto].
Qed.

Lemma JsMap_get_Some_keys {V : Type} (t : string) (v : V) (m : list (string * V)) :
  JsMap.get t m = Some v → t ∈ JsMap.keys m.
Proof.
  intros Hget. destruct (decide (t ∈ JsMap.keys m)) as [Hin|Hnot]; [exact Hin|].
  apply JsMap_get_None in Hnot. congruence.
Qed.

(** The score of a chunk is a sum of positive contributions, one for each
    term of the query embedding that the chunk holds. *)
Lemma chunkScore_sign c chunk :
  (∀ t n, JsMap.get t (tf chunk) = Some n → 1 ≤ n ∧ (0 < computeIdf c t)%R) →
  ∀ queryEmbedding sum,
    (∀ e, e ∈ queryEmbedding → (0 < snd e)%R) →
    let r := fold_left
               (fun sum entry =>
                  match JsMap.get (fst entry) (tf chunk) with
                  | Some chunkTf =>
                      if chunkTf =? 0 then sum
                      else (sum + IZR chunkTf * computeIdf c (fst entry) * snd entry)%R
                  | None => sum
                  end)
               queryEmbedding sum in
    (sum <= r)%R ∧
    ((∃ e, e ∈ queryEmbedding ∧ fst e ∈ JsMap.keys (tf chunk)) → (sum < r)%R) ∧
    ((∀ e, e ∈ queryEmbedding → fst e ∉ JsMap.keys (tf chunk)) → r = sum).
Proof.
  intros Hchunk. induction queryEmbedding as [|[t w] rest IH]; intros sum Hpos; simpl.
  - split; [lra|]. split; [|reflexivity].
    intros (e & He & _). apply elem_of_nil in He. tauto.
  - assert (Hrest : ∀ e, e ∈ rest → (0 < snd e)%R) by (intros e He; apply Hpos; right; exact He).
    destruct (JsMap.get t (tf chunk)) as [n|] eqn:Eget.
    + destruct (Hchunk _ _ Eget) as [Hn Hidf].
      destruct (n =? 0) eqn:En; [lia|].
      assert (0 < IZR n)%R by (apply IZR_lt; lia).
      assert (0 < w)%R by exact (Hpos (t, w) ltac:(left)).
      assert (0 < IZR n * computeIdf c t * w)%R
        by (repeat apply Rmult_lt_0_compat; assumption).
      destruct (IH (sum + IZR n * computeIdf c t * w)%R Hrest) as (Hle & _ & _).
      split; [lra|]. split; [intros _; lra|].
      intros Hnone. exfalso. apply (Hnone (t, w)); [left|]. simpl.
      eapply JsMap_get_Some_keys, Eget.
    + destruct (IH sum Hrest) as (Hle & Hlt & Heq).
      split; [exact Hle|]. split.
      * intros (e & He & Hin). apply Hlt.
        apply elem_of_cons in He as [->|He]; [|eauto].
        simpl in Hin. apply JsMap_get_None in Eget. contradiction.
      * intros Hnone. apply Heq. intros e He. apply Hnone. right. exact He.
Qed.

Lemma elem_of_keys {V : Type} (t : string) (m : list (string * V)) :
  t ∈ JsMap.keys m ↔ ∃ v, (t, v) ∈ m.
Proof.
  unfold JsMap.keys. rewrite list_elem_of_fmap. split.
  - intros ([t' v] & -> & Hin). eauto.
  - intros (v & Hin). exists (t, v). auto.
Qed.

(** A stored chunk scores against a query exactly when the two share a
    term. *)
Lemma chunkScore_positive_iff c chunk query :
  consistent c → chunk ∈ storedChunks c →
  tf chunk = termFrequencies (text chunk) →
  (if Rgt_dec (chunkScore c chunk (computeEmbedding c query)) 0 then true else false)
    = sharesTerm query chunk.
Proof.
  intros Hc Hin Htf.
  destruct (countMapFrom_spec (splitTerms (text chunk))) as [Hpos_c Hkeys_c].
  destruct (countMapFrom_spec (splitTerms query)) as [Hpos_q Hkeys_q].
  destruct (computeTfidf_spec c (termFrequencies query)) as [Hemb Hemb'].
  { intros t n Htn. apply (Hpos_q t). apply JsMap_get_elem_of; [|exact Htn].
    apply countMapFrom_NoDup. }
  assert (Hchunk : ∀ t n, JsMap.get t (tf chunk) = Some n →
                     1 ≤ n ∧ (0 < computeIdf c t)%R).
  { intros t n Hget. split; [rewrite Htf in Hget; eapply Hpos_c; exact Hget|].
    apply (computeIdf_pos c chunk); [exact Hc|exact Hin|].
    eapply JsMap_get_Some_keys, Hget. }
  destruct (chunkScore_sign c chunk Hchunk (computeEmbedding c query) 0%R)
    as (_ & Hlt & Heq).
  { intros e He. apply Hemb, He. }
  fold (chunkScore c chunk (computeEmbedding c query)) in Hlt, Heq.
  unfold sharesTerm.
  destruct (existsb _ (splitTerms query)) eqn:Eshare.
  - apply existsb_exists in Eshare as (t & Htq & Htc).
    apply bool_decide_eq_true_1 in Htc.
    assert (Hkey : t ∈ JsMap.keys (tf chunk)) by (rewrite Htf; apply Hkeys_c, Htc).
    destruct (Rgt_dec _ 0) as [_|Hn]; [reflexivity|]. exfalso. apply Hn.
    apply Hlt.
    assert (Hemb_t : t ∈ JsMap.keys (computeEmbedding c query)).
    { apply Hemb'; [apply Hkeys_q, list_elem_of_In, Htq|].
      apply (computeIdf_pos c chunk); assumption. }
    apply elem_of_keys in Hemb_t as (w & Hw). exists (t, w). auto.
  - destruct (Rgt_dec _ 0) as [Hp|_]; [|reflexivity]. exfalso.
    rewrite Heq in Hp; [lra|].
    intros e He Hkey. destruct (Hemb e He) as [_ Hq].
    apply Hkeys_q in Hq. rewrite Htf in Hkey. apply Hkeys_c in Hkey.
    apply list_elem_of_In in Hq.
    assert (existsb (fun term => bool_decide (term ∈ splitTerms (text chunk)))
              (splitTerms query) = true).
    { apply existsb_exists. exists (fst e). split; [exact Hq|].
      apply bool_decide_eq_true_2, Hkey. }
    congruence.
Qed.

Lemma flat_map_ext_Forall {A B : Type} (f g : A → list B) l :
  Forall (fun a => f a = g a) l → flat_map f l = flat_map g l.
Proof. induction 1 as [|a l Ha _ IH]; simpl; congruence. Qed.

(** X7: a chunk is returned exactly when it shares a term with the query.
    In every state that the calculator reaches when no batch names a key
    twice, [calculateScores] returns, in the order of the documents and of
    their chunks, one entry for each stored chunk whose text has a term in
    common with the query, and no other entry; every score is positive. *)
Theorem X7_chunk_scores_iff_it_shares_a_term :
  ∀ c query, reachable c →
    calculateScores query None_ c =
      flat_map
        (fun entry =>
           flat_map
             (fun chunk =>
                if sharesTerm query chunk
                then [mkScore (fst entry) (chunkScore c chunk (computeEmbedding c query))]
                else [])
             (snd entry))
        (documents c) ∧
    Forall (fun s => (0 < score s)%R) (calculateScores query None_ c).
Proof.
  intros c query Hreach. destruct (reachable_consistent c Hreach) as [Hc Htf].
  rewrite calculateScores_spec. unfold positiveChunkScores. split.
  - apply flat_map_ext_Forall, Forall_forall. intros [k chunks] Hentry. simpl.
    apply flat_map_ext_Forall, Forall_forall. intros chunk Hchunk.
    assert (Hin : chunk ∈ storedChunks c).
    { apply list_elem_of_In, in_flat_map. exists (k, chunks).
      split; apply list_elem_of_In; assumption. }
    rewrite <- (chunkScore_positive_iff c chunk query Hc Hin).
    + cbv zeta. destruct (Rgt_dec _ 0); reflexivity.
    + rewrite Forall_forall in Htf. apply Htf, Hin.
  - apply Forall_forall. intros s Hs. apply list_elem_of_In in Hs.
    apply in_flat_map in Hs as (entry & _ & Hs).
    apply in_flat_map in Hs as (chunk & _ & Hs). cbv zeta in Hs.
    destruct (Rgt_dec _ 0) as [Hp|_]; [|destruct Hs].
    destruct Hs as [<-|[]]. simpl. lra.
Qed.

Lemma X7_chunk_scores_iff_it_shares_a_term_witness :
  Forall (fun s => (0 < score s)%R) (calculateScores "cat" None_ twoChunkIndex).
Proof.
  exact (proj2 (X7_chunk_scores_iff_it_shares_a_term twoChunkIndex "cat"
                  twoChunkIndex_reachable)).
Defined.

(** X8: scores only name documents of the index, so a deleted document no
    longer scores.  Every entry that [calculateScores] returns carries the
    key of a current document; after [deleteDocument(k)] no entry carries
    [k], whatever the query. *)
Theorem X8_deleted_document_never_scores :
  ∀ c k query, reachable c →
    Forall (fun s => score_key s ∈ JsMap.keys (documents c))
      (calculateScores query None_ c) ∧
    Forall (fun s => score_key s ≠ k)
      (calculateScores query None_ (deleteDocument k c)).
Proof.
  assert (Hkeys : ∀ c query,
            Forall (fun s => score_key s ∈ JsMap.keys (documents c))
              (calculateScores query None_ c)).
  { intros c query. rewrite calculateScores_spec. unfold positiveChunkScores.
    apply Forall_forall. intros s Hs. apply list_elem_of_In in Hs.
    apply in_flat_map in Hs as (entry & Hentry & Hs).
    apply in_flat_map in Hs as (chunk & _ & Hs). cbv zeta in Hs.
    destruct (Rgt_dec _ 0); [|destruct Hs]. destruct Hs as [<-|[]]. simpl.
    apply elem_of_keys. exists (snd entry). destruct entry. apply list_elem_of_In, Hentry. }
  intros c k query Hreach. split; [apply Hkeys|].
  destruct (reachable_consistent c Hreach) as [Hc _].
  eapply Forall_impl; [apply Hkeys|]. intros s Hs. simpl in Hs.
  apply (deleteDocument_keys k c _ Hc) in Hs. tauto.
Qed.

Lemma X8_deleted_document_never_scores_witness :
  Forall (fun s => score_key s ≠ "doc")
    (calculateScores "cat" None_ (deleteDocument "doc" twoChunkIndex)).
Proof.
  exact (proj2 (X8_deleted_document_never_scores twoChunkIndex "doc" "cat"
                  twoChunkIndex_reachable)).
Defined.

End TfIdfMore.

(** ** Normalised scores *)

Section TfIdfNormalizeFacts.
Import TfIdf TfIdfNormalize.

Lemma StronglySorted_impl_in {A : Type} (R R' : A → A → Prop) l :
  (∀ a b, a ∈ l → b ∈ l → R a b → R' a b) →
  StronglySorted R l → StronglySorted R' l.
Proof.
  intros Himpl Hsorted. induction Hsorted as [|a l Hl IH Ha]; constructor.
  - apply IH. intros x y Hx Hy. apply Himpl; right; assumption.
  - apply Forall_forall. intros b Hb. rewrite Forall_forall in Ha.
    apply Himpl; [left|right; exact Hb|apply Ha, Hb].
Qed.

(** Dividing each object of a list of distinct references once. *)
Lemma fold_alter_spec (f : TfIdfScore → TfIdfScore) (l : list nat) :
  ∀ h : gmap nat TfIdfScore, NoDup l →
    let h' := fold_left (fun h r => alter f r h) l h in
    (∀ r, r ∈ l → h' !! r = f <$> h !! r) ∧ (∀ r, r ∉ l → h' !! r = h !! r).
Proof.
  induction l as [|x l IH]; intros h Hnodup; simpl.
  - split; [intros r Hr; apply elem_of_nil in Hr; tauto|reflexivity].
  - apply NoDup_cons in Hnodup as [Hx Hl].
    destruct (IH (alter f x h) Hl) as [Hin Hout]. split.
    + intros r Hr. apply elem_of_cons in Hr as [->|Hr].
      * rewrite Hout by exact Hx. apply lookup_alter_eq.
      * rewrite Hin by exact Hr. rewrite lookup_alter_ne; [reflexivity|].
        intros ->. contradiction.
    + intros r Hr. apply not_elem_of_cons in Hr as [Hne Hr].
      rewrite Hout by exact Hr. apply lookup_alter_ne. congruence.
Qed.

(** X9: [normalizeTfIdfScores] sorts and scales.  For an array of distinct
    score objects with scores that are not negative, the result holds the
    same objects in descending order of score, every score lies between 0
    and 1 afterwards, and the first is exactly 1 as soon as one score was
    positive.  No key changes, and no object outside the array is touched;
    the objects of the array are the caller's, whose scores change with
    them. *)
Theorem X9_normalizeTfIdfScores_sorts_and_scales :
  ∀ h scores,
    NoDup scores →
    (∀ r, r ∈ scores → is_Some (h !! r) ∧ (0 <= scoreAt h r)%R) →
    let result := fst (normalizeTfIdfScores h scores) in
    let h' := snd (normalizeTfIdfScores h scores) in
    Permutation result scores ∧
    StronglySorted (fun a b => (scoreAt h' a >= scoreAt h' b)%R) result ∧
    Forall (fun r => (0 <= scoreAt h' r <= 1)%R ∧
                     score_key <$> h' !! r = score_key <$> h !! r) result ∧
    ((∃ r, r ∈ scores ∧ (0 < scoreAt h r)%R) →
       ∃ first rest, result = first :: rest ∧ scoreAt h' first = 1%R) ∧
    (∀ r, r ∉ scores → h' !! r = h !! r).
Proof.
  intros h scores Hnodup Hscores. unfold normalizeTfIdfScores.
  pose proof (sort_perm (scoreAt h) scores) as Hperm.
  pose proof (sort_descending (scoreAt h) scores) as Hsorted.
  cbv beta in Hperm, Hsorted.
  set (sorted := Arr.sort (fun a b => (scoreAt h b - scoreAt h a)%R) scores) in *.
  assert (Hin : ∀ r, r ∈ sorted ↔ r ∈ scores).
  { intros r. split; intros Hr; [rewrite <- Hperm|rewrite Hperm]; exact Hr. }
  assert (Hnodup' : NoDup sorted) by (rewrite Hperm; exact Hnodup).
  destruct sorted as [|first rest] eqn:Esorted.
  - destruct (Rgt_dec 0 0) as [Habs|_]; [lra|]. cbv zeta. cbn [fst snd].
    split; [exact Hperm|]. split; [constructor|]. split; [constructor|].
    split; [|reflexivity].
    intros (r & Hr & _). apply Hin in Hr. apply elem_of_nil in Hr. tauto.
  - assert (Hmax : ∀ r, r ∈ first :: rest → (scoreAt h r <= scoreAt h first)%R).
    { intros r Hr. apply elem_of_cons in Hr as [->|Hr]; [lra|].
      apply StronglySorted_inv in Hsorted as [_ Hall].
      rewrite Forall_forall in Hall. apply Rge_le, Hall, Hr. }
    assert (Hnonneg : ∀ r, r ∈ first :: rest → (0 <= scoreAt h r)%R).
    { intros r Hr. apply Hin in Hr. apply Hscores, Hr. }
    destruct (Rgt_dec (scoreAt h first) 0) as [Hpos|Hzero]; cbv zeta; cbn [fst snd].
    + destruct (fold_alter_spec
                  (fun s => mkScore (score_key s) (score s / scoreAt h first)%R)
                  (first :: rest) h Hnodup') as [Hdiv Hkeep].
      cbv zeta in Hdiv, Hkeep.
      set (h' := fold_left _ (first :: rest) h) in *.
      assert (Hscore : ∀ r, r ∈ first :: rest →
                scoreAt h' r = (scoreAt h r / scoreAt h first)%R ∧
                score_key <$> h' !! r = score_key <$> h !! r).
      { intros r Hr. unfold scoreAt at 1 2. rewrite (Hdiv r Hr).
        destruct (Hscores r (proj1 (Hin r) Hr)) as [[s Hs] _]. rewrite Hs. simpl. auto. }
      split; [exact Hperm|]. split; [|split; [|split]].
      * eapply StronglySorted_impl_in; [|exact Hsorted].
        intros a b Ha Hb Hab. cbv beta in Hab. cbv beta.
        rewrite (proj1 (Hscore a Ha)), (proj1 (Hscore b Hb)).
        apply Rle_ge. apply Rmult_le_compat_r; [|lra].
        apply Rlt_le, Rinv_0_lt_compat. lra.
      * apply Forall_forall. intros r Hr. destruct (Hscore r Hr) as [-> Hkey].
        split; [|exact Hkey].
        pose proof (Hmax r Hr). pose proof (Hnonneg r Hr).
        split.
        -- apply Rmult_le_pos; [assumption|]. apply Rlt_le, Rinv_0_lt_compat. lra.
        -- apply Rmult_le_reg_r with (scoreAt h first); [lra|].
           unfold Rdiv. rewrite Rmult_assoc, Rinv_l by lra. lra.
      * intros _. exists first, rest. split; [reflexivity|].
        rewrite (proj1 (Hscore first ltac:(left))). apply Rdiv_diag. lra.
      * intros r Hr. apply Hkeep. rewrite Hin. exact Hr.
    + split; [exact Hperm|]. split; [exact Hsorted|]. split; [|split; [|reflexivity]].
      * apply Forall_forall. intros r Hr. split; [|reflexivity].
        pose proof (Hmax r Hr). pose proof (Hnonneg r Hr). lra.
      * intros (r & Hr & Hp). apply Hin in Hr. pose proof (Hmax r Hr). lra.
Qed.

Lemma X9_normalizeTfIdfScores_sorts_and_scales_witness :
  Permutation
    (fst (normalizeTfIdfScores
            {[ 0%nat := mkScore "a" 1; 1%nat := mkScore "b" 2 ]} [0%nat; 1%nat]))
    [0%nat; 1%nat].
Proof.
  refine (proj1 (X9_normalizeTfIdfScores_sorts_and_scales
                   {[ 0%nat := mkScore "a" 1; 1%nat := mkScore "b" 2 ]} [0%nat; 1%nat]
                   _ _)).
  - repeat constructor; rewrite ?elem_of_cons, ?elem_of_nil; intuition discriminate.
  - intros r Hr. rewrite !elem_of_cons, elem_of_nil in Hr.
    destruct Hr as [->|[->|[]]]; unfold scoreAt.
    + rewrite lookup_insert_eq. simpl. split; [eauto|lra].
    + rewrite lookup_insert_ne, lookup_singleton_eq by done. simpl. split; [eauto|lra].
Defined.

End TfIdfNormalizeFacts.

(** ** Cosine similarity *)

Section CosineFacts.

Lemma sums_swap a b :
  length a = length b →
  let '(d, A, B) := Vec.sums a b in Vec.sums b a = (d, B, A).
Proof.
  unfold Vec.sums. intros Hlen.
  assert (Hgen : ∀ (a b : list R) d A B, length a = length b →
            let '(d', A', B') :=
              fold_left
                (fun acc ab =>
                   let '(dotProduct, normA, normB) := acc in
                   (dotProduct + fst ab * snd ab, normA + fst ab * fst ab,
                    normB + snd ab * snd ab)%R)
                (combine a b) (d, A, B) in
            fold_left
              (fun acc ab =>
                 let '(dotProduct, normA, normB) := acc in
                 (dotProduct + fst ab * snd ab, normA + fst ab * fst ab,
                  normB + snd ab * snd ab)%R)
              (combine b a) (d, B, A) = (d', B', A')).
  { clear. induction a as [|x a IH]; intros [|y b] d A B Hlen; simpl in *;
      try discriminate; [reflexivity|].
    replace (d + y * x)%R with (d + x * y)%R by ring.
    apply IH. lia. }
  apply (Hgen a b 0%R 0%R 0%R Hlen).
Qed.

Lemma cosineSimilarity_comm a b : Vec.cosineSimilarity a b = Vec.cosineSimilarity b a.
Proof.
  destruct a as [a|], b as [b|]; try reflexivity. unfold Vec.cosineSimilarity.
  destruct (decide (length a = length b)) as [Hlen|Hlen].
  - pose proof (sums_swap a b Hlen) as Hswap.
    rewrite Hlen, Nat.eqb_refl. simpl.
    destruct (Vec.sums a b) as [[d A] B]. rewrite Hswap.
    destruct (Req_dec_T A 0), (Req_dec_T B 0); try reflexivity.
    rewrite (Rmult_comm (sqrt B)). reflexivity.
  - apply Nat.eqb_neq in Hlen as Hab. rewrite Hab.
    assert (Hba : (length b =? length a)%nat = false) by (apply Nat.eqb_neq; congruence).
    rewrite Hba. reflexivity.
Qed.

Lemma cosineSimilarity_zero a b :
  length a = length b → Forall (fun x => x = 0%R) a →
  Vec.cosineSimilarity (Some a) (Some b) = Ok 0%R.
Proof.
  intros Hlen Hzero. unfold Vec.cosineSimilarity. rewrite Hlen, Nat.eqb_refl. simpl.
  assert (Hsum : ∃ d B, Vec.sums a b = (d, 0%R, B)).
  { unfold Vec.sums.
    assert (Hgen : ∀ (a b : list R) d B, Forall (fun x => x = 0%R) a →
              ∃ d' B',
                fold_left
                  (fun acc ab =>
                     let '(dotProduct, normA, normB) := acc in
                     (dotProduct + fst ab * snd ab, normA + fst ab * fst ab,
                      normB + snd ab * snd ab)%R)
                  (combine a b) (d, 0%R, B) = (d', 0%R, B')).
    { clear. induction a as [|x a IH]; intros b d B Hz; simpl; [eauto|].
      destruct b as [|y b]; simpl; [eauto|].
      apply Forall_cons in Hz as [-> Hz].
      replace (0 + 0 * 0)%R with 0%R by ring. apply IH, Hz. }
    apply Hgen, Hzero. }
  destruct Hsum as (d & B & ->). destruct (Req_dec_T 0 0); [reflexivity|lra].
Qed.

Lemma cosineSimilarity_returns a b :
  length a = length b → ∃ r, Vec.cosineSimilarity (Some a) (Some b) = Ok r.
Proof.
  intros Hlen. unfold Vec.cosineSimilarity. rewrite Hlen, Nat.eqb_refl. simpl.
  destruct (Vec.sums a b) as [[d A] B].
  destruct (Req_dec_T A 0), (Req_dec_T B 0); eauto.
Qed.

Lemma cosineSimilarity_throws a b :
  length a ≠ length b →
  Vec.cosineSimilarity (Some a) (Some b) = Throw "Vectors must have the same dimensions".
Proof.
  intros Hlen. unfold Vec.cosineSimilarity.
  apply Nat.eqb_neq in Hlen. rewrite Hlen. reflexivity.
Qed.

(** X10: what [cosineSimilarity] guarantees whatever the numbers are.  It
    does not depend on the order of its two vectors; for vectors of
    different lengths it throws, and for vectors of one length it returns;
    and it returns 0 as soon as one of the two vectors is zero. *)
Theorem X10_cosineSimilarity_contract :
  (∀ a b, Vec.cosineSimilarity a b = Vec.cosineSimilarity b a) ∧
  (∀ a b, length a = length b →
     ∃ r, Vec.cosineSimilarity (Some a) (Some b) = Ok r) ∧
  (∀ a b, length a ≠ length b →
     Vec.cosineSimilarity (Some a) (Some b) = Throw "Vectors must have the same dimensions") ∧
  (∀ a b, length a = length b → Forall (fun x => x = 0%R) a →
     Vec.cosineSimilarity (Some a) (Some b) = Ok 0%R ∧
     Vec.cosineSimilarity (Some b) (Some a) = Ok 0%R).
Proof.
  split; [exact cosineSimilarity_comm|split; [|split]].
  - exact cosineSimilarity_returns.
  - exact cosineSimilarity_throws.
  - intros a b Hlen Hzero.
    rewrite (cosineSimilarity_comm (Some b) (Some a)).
    split; apply cosineSimilarity_zero; assumption.
Qed.

End CosineFacts.

(** ** Ordered maps, and the pipeline filter, sort, slice *)

Section JsMapMore.
Context {K V : Type} `{EqDecision K}.

Lemma JsMap_get_delete_ne (k k' : K) (m : list (K * V)) :
  k ≠ k' → JsMap.get k (JsMap.delete k' m) = JsMap.get k m.
Proof.
  intros Hne. induction m as [|[x v] m IH]; simpl; [reflexivity|].
  destruct (decide (k' = x)) as [->|Hx]; simpl.
  - destruct (decide (k = x)); [contradiction|reflexivity].
  - destruct (decide (k = x)); [reflexivity|exact IH].
Qed.

Lemma JsMap_keys_delete_subseteq (k x : K) (m : list (K * V)) :
  x ∈ JsMap.keys (JsMap.delete k m) → x ∈ JsMap.keys m.
Proof.
  induction m as [|[y v] m IH]; simpl; [auto|].
  destruct (decide (k = y)); simpl; rewrite ?elem_of_cons; [auto|].
  intros [?|?]; auto.
Qed.

Lemma JsMap_NoDup_delete (k : K) (m : list (K * V)) :
  NoDup (JsMap.keys m) →
  NoDup (JsMap.keys (JsMap.delete k m)) ∧ k ∉ JsMap.keys (JsMap.delete k m).
Proof.
  induction m as [|[y v] m IH]; simpl; intros Hnodup.
  - split; [constructor|apply not_elem_of_nil].
  - apply NoDup_cons in Hnodup as [Hy Hm]. destruct (IH Hm) as [IH1 IH2].
    destruct (decide (k = y)) as [->|Hne]; simpl; [auto|]. split.
    + apply NoDup_cons. split; [|exact IH1].
      intros Hin. apply Hy. eapply JsMap_keys_delete_subseteq, Hin.
    + apply not_elem_of_cons. auto.
Qed.

Lemma JsMap_keys_set_elem (k x : K) (v : V) (m : list (K * V)) :
  x ∈ JsMap.keys (JsMap.set k v m) ↔ x = k ∨ x ∈ JsMap.keys m.
Proof.
  induction m as [|[y w] m IH]; simpl.
  - rewrite list_elem_of_singleton, elem_of_nil. tauto.
  - destruct (decide (k = y)) as [->|Hne]; simpl; rewrite !elem_of_cons; [tauto|].
    rewrite IH. tauto.
Qed.

Lemma JsMap_NoDup_set (k : K) (v : V) (m : list (K * V)) :
  NoDup (JsMap.keys m) → NoDup (JsMap.keys (JsMap.set k v m)).
Proof.
  induction m as [|[y w] m IH]; simpl; intros Hnodup.
  - apply NoDup_singleton.
  - apply NoDup_cons in Hnodup as [Hy Hm].
    destruct (decide (k = y)) as [->|Hne]; simpl; apply NoDup_cons.
    + auto.
    + split; [|auto]. rewrite JsMap_keys_set_elem. intros [?|?]; [congruence|contradiction].
Qed.

Lemma JsMap_get_not_in (k : K) (m : list (K * V)) :
  k ∉ JsMap.keys m → JsMap.get k m = None.
Proof.
  induction m as [|[y w] m IH]; simpl; [reflexivity|].
  rewrite not_elem_of_cons. intros [Hne Hm].
  destruct (decide (k = y)); [contradiction|auto].
Qed.

End JsMapMore.

Section TopK.
Context {A : Type} (key : A → R).

Lemma List_filter_sublist (f : A → bool) l : sublist (List.filter f l) l.
Proof.
  induction l as [|x l IH]; simpl; [constructor|].
  destruct (f x); [apply sublist_skip|apply sublist_cons]; exact IH.
Qed.

(** What is left of a list after keeping the elements at or above a
    threshold, sorting them in descending order and cutting after [n]. *)
Lemma top_shape (t : R) (l : list A) (n : Z) :
  let out :=
    Arr.slice0
      (Arr.sort (fun a b => (key b - key a)%R)
         (List.filter (fun x => Arr.Rgeb (key x) t) l)) n in
  (0 ≤ n → (length out ≤ Z.to_nat n)%nat) ∧
  Forall (fun x => (key x >= t)%R) out ∧
  StronglySorted (fun a b => (key a >= key b)%R) out ∧
  out ⊆+ l.
Proof.
  cbv zeta. set (kept := List.filter _ l). set (sorted := Arr.sort _ kept).
  assert (Hperm : Permutation sorted kept) by apply (sort_perm key).
  split; [apply slice0_length|]. split; [|split].
  - apply Forall_forall. intros r Hr.
    apply (elem_of_submseteq _ sorted) in Hr;
      [|apply sublist_submseteq, slice0_sublist].
    rewrite Hperm in Hr.
    apply list_elem_of_In, filter_In in Hr as [_ Hge]. unfold Arr.Rgeb in Hge.
    destruct (Rge_dec _ _); [assumption|discriminate].
  - eapply sorted_sublist; [apply slice0_sublist|]. apply (sort_descending key).
  - etransitivity; [apply sublist_submseteq, slice0_sublist|].
    rewrite Hperm. apply sublist_submseteq, List_filter_sublist.
Qed.

(** In a list in descending order, what comes first is at least what comes
    later. *)
Lemma StronglySorted_app_ge (l1 l2 : list A) :
  StronglySorted (fun a b => (key a >= key b)%R) (l1 ++ l2) →
  ∀ x y, x ∈ l1 → y ∈ l2 → (key x >= key y)%R.
Proof.
  induction l1 as [|a l1 IH]; intros Hsorted x y Hx Hy.
  - apply elem_of_nil in Hx. tauto.
  - simpl in Hsorted. apply StronglySorted_inv in Hsorted as [Hrest Hall].
    apply elem_of_cons in Hx as [->|Hx].
    + rewrite Forall_forall in Hall. apply Hall. apply elem_of_app. right. exact Hy.
    + apply (IH Hrest x y Hx Hy).
Qed.

(** The cut keeps the best: an element of the list is kept, or lies below
    the threshold, or is matched by each of the [n] elements kept. *)
Lemma top_complete (t : R) (l : list A) (n : Z) x :
  0 ≤ n → x ∈ l →
  let out :=
    Arr.slice0
      (Arr.sort (fun a b => (key b - key a)%R)
         (List.filter (fun x => Arr.Rgeb (key x) t) l)) n in
  x ∈ out ∨ (key x < t)%R ∨
  (length out = Z.to_nat n ∧ Forall (fun y => (key y >= key x)%R) out).
Proof.
  intros Hn Hx. cbv zeta.
  set (kept := List.filter _ l). set (sorted := Arr.sort _ kept).
  assert (Hperm : Permutation sorted kept) by apply (sort_perm key).
  assert (Hsorted : StronglySorted (fun a b => (key a >= key b)%R) sorted)
    by apply (sort_descending key).
  destruct (Rlt_dec (key x) t) as [Hlt|Hge]; [right; left; exact Hlt|].
  assert (Hin : x ∈ sorted).
  { rewrite Hperm. apply list_elem_of_In, filter_In. split; [apply list_elem_of_In, Hx|].
    unfold Arr.Rgeb. destruct (Rge_dec _ _); [reflexivity|lra]. }
  unfold Arr.slice0. destruct (n <? 0) eqn:En; [apply Z.ltb_lt in En; lia|].
  rewrite <- (firstn_skipn (Z.to_nat n) sorted) in Hin, Hsorted.
  apply elem_of_app in Hin as [Hin|Hin]; [left; exact Hin|].
  right. right. split.
  - rewrite length_firstn. apply Nat.min_l.
    destruct (decide (Z.to_nat n ≤ length sorted)%nat) as [Hle|Hgt]; [exact Hle|].
    rewrite skipn_all2 in Hin by lia. apply elem_of_nil in Hin. tauto.
  - apply Forall_forall. intros y Hy.
    apply (StronglySorted_app_ge _ _ Hsorted y x Hy Hin).
Qed.

End TopK.

Lemma mapM_Forall2 {A B : Type} (f : A → Result B) l :
  ∀ rs, mapM f l = Ok rs → Forall2 (fun x r => f x = Ok r) l rs.
Proof.
  induction l as [|x l IH]; simpl; intros rs.
  - intros [= <-]. constructor.
  - destruct (f x) as [r| |] eqn:Ef; simpl; try discriminate.
    destruct (mapM f l) as [rs'| |]; simpl; try discriminate.
    intros [= <-]. constructor; auto.
Qed.

Lemma NoDup_submseteq_inv {A : Type} (l k : list A) : l ⊆+ k → NoDup k → NoDup l.
Proof.
  intros Hsub Hk. apply submseteq_Permutation in Hsub as [rest Hperm].
  rewrite Hperm in Hk. apply NoDup_app in Hk. tauto.
Qed.

(** ** The in-memory storage adapter *)

Section StorageFacts.
Import Chunking.

Lemma storage_reachable_NoDup s :
  Storage.reachable s → NoDup (JsMap.keys (Storage.documents s)).
Proof.
  induction 1 as [|s c _ IH]; [constructor|].
  destruct c; simpl.
  - apply JsMap_NoDup_set, IH.
  - apply JsMap_NoDup_delete, IH.
  - constructor.
Qed.

(** X11: the adapter is a map from ids to documents.  In every state of an
    adapter: a stored document is retrieved as it was stored, under its id;
    [deleteDocument] says whether the id was there and afterwards the id
    retrieves nothing; neither call changes what another id retrieves; after
    [clear] no id retrieves anything. *)
Theorem X11_storage_round_trip :
  ∀ s id id' content embedding metadata,
    Storage.reachable s →
    Storage.retrieveDocument id (Storage.storeDocument id content embedding metadata s)
      = Some (Storage.mkStored content embedding metadata) ∧
    Storage.retrieveDocument id (snd (Storage.deleteDocument id s)) = None ∧
    (fst (Storage.deleteDocument id s) = true ↔ is_Some (Storage.retrieveDocument id s)) ∧
    (id' ≠ id →
       Storage.retrieveDocument id' (Storage.storeDocument id content embedding metadata s)
         = Storage.retrieveDocument id' s ∧
       Storage.retrieveDocument id' (snd (Storage.deleteDocument id s))
         = Storage.retrieveDocument id' s) ∧
    Storage.retrieveDocument id (Storage.clear s) = None.
Proof.
  intros s id id' content embedding metadata Hreach.
  pose proof (storage_reachable_NoDup s Hreach) as Hnodup.
  unfold Storage.retrieveDocument, Storage.storeDocument, Storage.deleteDocument; simpl.
  split; [apply JsMap_get_set_eq|]. split; [|split; [|split]].
  - apply JsMap_get_not_in. apply JsMap_NoDup_delete, Hnodup.
  - apply bool_decide_eq_true.
  - intros Hne. split; [apply JsMap_get_set_ne|apply JsMap_get_delete_ne]; exact Hne.
  - reflexivity.
Qed.

Lemma X11_storage_round_trip_witness :
  Storage.retrieveDocument "a"
    (Storage.storeDocument "a" "text" None noMetadata Storage.newInMemoryStorageAdapter)
  = Some (Storage.mkStored "text" None noMetadata).
Proof.
  exact (proj1 (X11_storage_round_trip Storage.newInMemoryStorageAdapter "a" "b" "text"
                  None noMetadata Storage.reachable_new)).
Defined.

(** X12: what [findSimilar] returns.  Whenever it returns, at most [limit]
    documents come back, in descending order of similarity, none below the
    threshold (0.7 when none is given); each carries the id, content and
    metadata of a stored document together with the cosine similarity of
    that document to the query, and in a state of the adapter no id comes
    back twice. *)
Theorem X12_findSimilar_shape :
  ∀ s embedding limit threshold results,
    Storage.findSimilar embedding limit threshold s = Ok results →
    0 ≤ limit →
    (length results ≤ Z.to_nat limit)%nat ∧
    Forall (fun r => (Storage.score r >= default (7 / 10)%R threshold)%R) results ∧
    StronglySorted (fun a b => (Storage.score a >= Storage.score b)%R) results ∧
    Forall (fun r =>
              ∃ d, (Storage.id r, d) ∈ Storage.documents s ∧
                   Storage.similar_content r = Storage.content d ∧
                   Storage.similar_metadata r = Storage.metadata d ∧
                   Vec.cosineSimilarity embedding (Storage.embedding d)
                     = Ok (Storage.score r))
           results ∧
    (Storage.reachable s → NoDup (map Storage.id results)).
Proof.
  intros s embedding limit threshold results. unfold Storage.findSimilar.
  destruct (mapM _ (Storage.documents s)) as [scored| |] eqn:Escored; cbn [bind];
    try discriminate.
  intros [= <-] Hlimit.
  destruct (top_shape Storage.score (default (7 / 10)%R threshold) scored limit)
    as (Hlen & Hge & Hsorted & Hsub).
  apply mapM_Forall2 in Escored.
  split; [auto|]. split; [exact Hge|]. split; [exact Hsorted|]. split.
  - apply Forall_forall. intros r Hr. apply (elem_of_submseteq _ _ _ Hr) in Hsub.
    clear -Escored Hsub. induction Escored as [|[k d] r' docs rs Hr' _ IH].
    + apply elem_of_nil in Hsub. tauto.
    + apply elem_of_cons in Hsub as [->|Hin].
      * exists d. simpl in Hr'.
        destruct (Vec.cosineSimilarity embedding (Storage.embedding d)) as [x| |];
          simpl in Hr'; try discriminate.
        injection Hr' as <-. simpl. split; [left|auto].
      * destruct (IH Hin) as (d' & Hd' & Hrest). exists d'. split; [right; exact Hd'|].
        exact Hrest.
  - intros Hreach. pose proof (storage_reachable_NoDup s Hreach) as Hnodup.
    apply (NoDup_submseteq_inv _ (map Storage.id scored));
      [apply (fmap_submseteq Storage.id), Hsub|].
    replace (map Storage.id scored) with (JsMap.keys (Storage.documents s));
      [exact Hnodup|].
    clear -Escored. unfold JsMap.keys.
    induction Escored as [|[k d] r docs rs Hr _ IH]; simpl; [reflexivity|].
    rewrite IH. f_equal. simpl in Hr.
    destruct (Vec.cosineSimilarity embedding (Storage.embedding d)); simpl in Hr;
      try discriminate.
    injection Hr as <-. reflexivity.
Qed.

End StorageFacts.

Section StorageWitness.
Import Orchestrator.

Lemma X12_findSimilar_shape_witness :
  ∃ found,
    Storage.findSimilar (Some [1; 0]%R) 5 None (storage (snd exampleIndexed)) = Ok [found] ∧
    (Storage.score found >= 7 / 10)%R.
Proof.
  destruct exampleIndexed_findSimilar as (found & Hfind & _).
  exists found. split; [exact Hfind|].
  pose proof (X12_findSimilar_shape _ _ _ _ _ Hfind ltac:(lia)) as (_ & Hge & _).
  apply Forall_cons in Hge as [Hge _]. exact Hge.
Defined.

End StorageWitness.

(** ** The semantic search engine *)

Section SearchMore.
Import Cancellation Chunking Embeddings Search.

Lemma Forall2_elem_of_l {A B : Type} (P : A → B → Prop) l rs x :
  Forall2 P l rs → x ∈ l → ∃ r, r ∈ rs ∧ P x r.
Proof.
  induction 1 as [|y r l rs Hy _ IH]; intros Hx.
  - apply elem_of_nil in Hx. tauto.
  - apply elem_of_cons in Hx as [->|Hx].
    + exists r. split; [left|exact Hy].
    + destruct (IH Hx) as (r' & Hr' & HP). exists r'. split; [right; exact Hr'|exact HP].
Qed.

Lemma Forall2_elem_of_r {A B : Type} (P : A → B → Prop) l rs r :
  Forall2 P l rs → r ∈ rs → ∃ x, x ∈ l ∧ P x r.
Proof.
  induction 1 as [|y r' l rs Hy _ IH]; intros Hr.
  - apply elem_of_nil in Hr. tauto.
  - apply elem_of_cons in Hr as [->|Hr].
    + exists y. split; [left|exact Hy].
    + destruct (IH Hr) as (x & Hx & HP). exists x. split; [right; exact Hx|exact HP].
Qed.

(** The steps of [search] up to the list it builds. *)
Lemma search_inv service query providerId options token e results :
  search service query providerId options token e = Ok results →
  requested token = true ∧ results = [] ∨
  ∃ embeddings scored,
    computeEmbeddings providerId [query] token service = Ok embeddings ∧
    Forall2
      (fun entry r =>
         ∃ s, Vec.cosineSimilarity (head embeddings) (embedding (snd entry)) = Ok s ∧
              r = mkResult (fst entry) s
                    (if default true (includeContent options) then text (snd entry) else "")
                    (if default true (includeMetadata options)
                     then doc_metadata (snd entry) else None))
      (documents e) scored ∧
    let top :=
      Arr.slice0
        (Arr.sort (fun a b => (score b - score a)%R)
           (List.filter (fun r => Arr.Rgeb (score r) (default 0%R (threshold options)))
              scored))
        (default 5 (topK options)) in
    results =
      if default true (includeSimilarity options) then top
      else map (fun r => mkResult (id r) 0%R (content r) (metadata r)) top.
Proof.
  unfold search. destruct (requested token); [intros [= <-]; auto|].
  destruct (computeEmbeddings providerId [query] token service) as [embeddings| |];
    cbn [bind]; try discriminate.
  destruct (mapM _ (documents e)) as [scored| |] eqn:Escored; cbn [bind];
    try discriminate.
  intros [= <-]. right. exists embeddings, scored. split; [reflexivity|].
  split; [|reflexivity].
  apply mapM_Forall2 in Escored. eapply Forall2_impl; [exact Escored|].
  intros entry r Hr. simpl in Hr.
  destruct (Vec.cosineSimilarity (head embeddings) (embedding (snd entry))) as [s| |];
    simpl in Hr; try discriminate.
  injection Hr as <-. eauto.
Qed.

Lemma engine_reachable_NoDup e : reachable e → NoDup (getDocumentIds e).
Proof.
  unfold getDocumentIds. induction 1 as [|e c e' _ IH Hrun]; [constructor|].
  destruct c as [service i t providerId m token|service docs providerId token|k|];
    simpl in Hrun.
  - unfold addDocument in Hrun. destruct (requested token); [injection Hrun as <-; exact IH|].
    destruct (computeEmbeddings providerId [t] token service); simpl in Hrun;
      try discriminate.
    injection Hrun as <-. apply JsMap_NoDup_set, IH.
  - unfold addDocuments in Hrun.
    destruct (requested token || (length docs =? 0)%nat);
      [injection Hrun as <-; exact IH|].
    destruct (computeEmbeddings providerId (map new_text docs) token service);
      simpl in Hrun; try discriminate.
    injection Hrun as <-. revert IH. generalize 0%nat. generalize e. clear.
    induction docs as [|doc docs IHd]; intros e i He; simpl; [exact He|].
    destruct (requested token); [exact He|].
    apply IHd. apply JsMap_NoDup_set, He.
  - injection Hrun as <-. apply JsMap_NoDup_delete, IH.
  - injection Hrun as <-. constructor.
Qed.

Lemma search_results_from_index service query providerId options token e results :
  search service query providerId options token e = Ok results →
  Forall (fun r =>
            ∃ d, (id r, d) ∈ documents e ∧
                 content r = (if default true (includeContent options)
                              then text d else "") ∧
                 metadata r = (if default true (includeMetadata options)
                               then doc_metadata d else None))
         results ∧
  map id results ⊆+ getDocumentIds e.
Proof.
  intros Hsearch.
  apply search_inv in Hsearch as [[_ ->]|(embeddings & scored & _ & Hscored & ->)].
  { split; [constructor|]. apply submseteq_nil_l. }
  cbv zeta.
  destruct (top_shape score (default 0%R (threshold options)) scored
              (default 5 (topK options))) as (_ & _ & _ & Hsub).
  cbv zeta in Hsub. set (top := Arr.slice0 _ _) in *.
  assert (Hentry : ∀ r, r ∈ scored →
            ∃ d, (id r, d) ∈ documents e ∧
                 content r = (if default true (includeContent options)
                              then text d else "") ∧
                 metadata r = (if default true (includeMetadata options)
                               then doc_metadata d else None)).
  { intros r Hr.
    destruct (Forall2_elem_of_r _ _ _ r Hscored Hr) as ([k d] & Hin & s & _ & ->).
    exists d. simpl. auto. }
  assert (Hids : map id scored = getDocumentIds e).
  { unfold getDocumentIds, JsMap.keys. clear -Hscored.
    induction Hscored as [|[k d] r docs rs (s & _ & ->) _ IH]; simpl; [reflexivity|].
    rewrite IH. reflexivity. }
  assert (Htop : Forall (fun r =>
                   ∃ d, (id r, d) ∈ documents e ∧
                        content r = (if default true (includeContent options)
                                     then text d else "") ∧
                        metadata r = (if default true (includeMetadata options)
                                      then doc_metadata d else None)) top
                 ∧ map id top ⊆+ getDocumentIds e).
  { split.
    - apply Forall_forall. intros r Hr. apply Hentry.
      eapply elem_of_submseteq; [exact Hr|exact Hsub].
    - rewrite <- Hids. apply (fmap_submseteq id), Hsub. }
  destruct (default true (includeSimilarity options)); [exact Htop|].
  destruct Htop as [Hall Hsubids]. split.
  - apply Forall_forall. intros r Hr. apply list_elem_of_In, in_map_iff in Hr
      as (r0 & <- & Hr0).
    rewrite Forall_forall in Hall. apply (Hall r0), list_elem_of_In, Hr0.
  - rewrite map_map. simpl. exact Hsubids.
Qed.

(** X14: a search only finds what is in the index.  In every state of an
    engine, each result of [search] carries the id of an indexed document
    with its text and metadata (or the empty text and no metadata, when the
    options leave them out), and no id comes back twice; after
    [removeDocument(k)] no result carries [k]. *)
Theorem X14_search_finds_only_indexed_documents :
  ∀ service query providerId options token e k results results',
    reachable e →
    search service query providerId options token e = Ok results →
    search service query providerId options token (snd (removeDocument k e)) = Ok results' →
    Forall (fun r =>
              ∃ d, JsMap.get (id r) (documents e) = Some d ∧
                   content r = (if default true (includeContent options)
                                then text d else "") ∧
                   metadata r = (if default true (includeMetadata options)
                                 then doc_metadata d else None))
           results ∧
    NoDup (map id results) ∧
    Forall (fun r => id r ≠ k) results'.
Proof.
  intros service query providerId options token e k results results' Hreach Hs Hs'.
  pose proof (engine_reachable_NoDup e Hreach) as Hnodup.
  destruct (search_results_from_index _ _ _ _ _ _ _ Hs) as [Hall Hsub].
  destruct (search_results_from_index _ _ _ _ _ _ _ Hs') as [_ Hsub'].
  split; [|split].
  - eapply Forall_impl; [exact Hall|]. intros r (d & Hd & Hrest). exists d.
    split; [|exact Hrest]. apply JsMap_get_elem_of; assumption.
  - eapply NoDup_submseteq_inv; eassumption.
  - apply Forall_forall. intros r Hr Heq.
    assert (Hin : id r ∈ getDocumentIds (snd (removeDocument k e))).
    { eapply elem_of_submseteq; [|exact Hsub']. apply list_elem_of_fmap_2, Hr. }
    unfold getDocumentIds, removeDocument in Hin. simpl in Hin.
    rewrite Heq in Hin. eapply JsMap_NoDup_delete; eassumption.
Qed.

Lemma oneDocumentEngine_reachable : reachable oneDocumentEngine.
Proof.
  apply (reachable_run newSemanticSearchEngine
           (AddDocument axisService "d1" "document" "default" None None)).
  - apply reachable_new.
  - rewrite oneDocumentEngine_eq. unfold run, addDocument, computeEmbeddings.
    cbn [requested]. rewrite axisService_default. reflexivity.
Qed.

Lemma emptiedEngine_search :
  search axisService "query" "default" noOptions None
    (snd (removeDocument "d1" oneDocumentEngine)) = Ok [].
Proof.
  rewrite oneDocumentEngine_eq. unfold search, computeEmbeddings. cbn [requested].
  rewrite axisService_default. reflexivity.
Qed.

Lemma X14_search_finds_only_indexed_documents_witness :
  NoDup (map id [mkResult "d1" 0%R "document" None]).
Proof.
  exact (proj1 (proj2 (X14_search_finds_only_indexed_documents axisService "query"
                         "default" noOptions None oneDocumentEngine "d1" _ []
                         oneDocumentEngine_reachable oneDocumentEngine_search
                         emptiedEngine_search))).
Defined.

End SearchMore.

Section SearchBatch.
Import Cancellation Chunking Embeddings Search.

Lemma JsMap_length_set {V : Type} (k : string) (v : V) m :
  (length m ≤ length (JsMap.set k v m) ≤ S (length m))%nat.
Proof.
  induction m as [|[y w] m IH]; simpl; [lia|].
  destruct (decide (k = y)); simpl; lia.
Qed.

Lemma setEach_spec docs :
  ∀ i embeddings e,
    let e' := setEach docs i embeddings None e in
    (∀ k, k ∈ getDocumentIds e' ↔ k ∈ getDocumentIds e ∨ k ∈ map new_id docs) ∧
    (length (documents e) ≤ length (documents e')
       ≤ length (documents e) + length docs)%nat ∧
    (NoDup (map new_id docs) →
       (∀ j d, nth_error docs j = Some d →
          JsMap.get (new_id d) (documents e')
            = Some (mkIndexed (new_text d) (nth_error embeddings (i + j))
                      (new_metadata d))) ∧
       (∀ k, k ∉ map new_id docs →
          JsMap.get k (documents e') = JsMap.get k (documents e))).
Proof.
  unfold getDocumentIds.
  induction docs as [|doc docs IH]; intros i embeddings e; cbn [setEach requested].
  - cbv zeta. split; [|split; [simpl; lia|]].
    + intros k. simpl. rewrite elem_of_nil. tauto.
    + intros _. split; [|reflexivity]. intros [|j] d; discriminate.
  - set (e1 := mkEngine (JsMap.set (new_id doc) _ (documents e))).
    destruct (IH (S i) embeddings e1) as (Hkeys & Hlen & Hget). cbv zeta in *.
    pose proof (JsMap_length_set (new_id doc)
                  (mkIndexed (new_text doc) (nth_error embeddings i) (new_metadata doc))
                  (documents e)) as Hlen1.
    split; [|split].
    + intros k. rewrite Hkeys. subst e1. cbn [documents].
      rewrite JsMap_keys_set_elem. simpl. rewrite elem_of_cons. tauto.
    + subst e1. cbn [documents] in *. simpl. lia.
    + intros Hnodup. simpl in Hnodup. apply NoDup_cons in Hnodup as [Hfresh Hnodup].
      destruct (Hget Hnodup) as [Hin Hout]. split.
      * intros [|j] d Hd; simpl in Hd.
        -- injection Hd as <-. rewrite Hout by exact Hfresh. subst e1. cbn [documents].
           rewrite JsMap_get_set_eq, Nat.add_0_r. reflexivity.
        -- rewrite (Hin j d Hd). do 3 f_equal. lia.
      * intros k Hk. simpl in Hk. apply not_elem_of_cons in Hk as [Hne Hk].
        rewrite Hout by exact Hk. subst e1. cbn [documents].
        apply JsMap_get_set_ne. exact Hne.
Qed.

(** X15: [addDocuments] indexes a whole batch with one call of the provider.
    With a registered provider and a token that is not cancelled it returns;
    afterwards the ids of the index are the old ones and those of the batch,
    at most one new entry per document of the batch; and when the batch
    names each id once, the document at position [j] is stored with its
    text, its metadata and the vector at position [j] of what the provider
    returned for the texts of the batch (no vector when the provider
    returned fewer). *)
Theorem X15_addDocuments_indexes_the_batch :
  ∀ service provider docs providerId e,
    providers service !! providerId = Some provider →
    ∃ e', addDocuments service docs providerId None e = Ok e' ∧
      (∀ k, k ∈ getDocumentIds e' ↔ k ∈ getDocumentIds e ∨ k ∈ map new_id docs) ∧
      getDocumentCount e ≤ getDocumentCount e'
        ≤ getDocumentCount e + Z.of_nat (length docs) ∧
      (NoDup (map new_id docs) →
         ∀ j d, nth_error docs j = Some d →
           JsMap.get (new_id d) (documents e')
             = Some (mkIndexed (new_text d)
                       (nth_error (provider_computeEmbeddings provider (map new_text docs)) j)
                       (new_metadata d))).
Proof.
  intros service provider docs providerId e Hprovider.
  unfold addDocuments, computeEmbeddings, getDocumentCount. cbn [requested orb].
  destruct docs as [|doc docs].
  - exists e. simpl. split; [reflexivity|]. split; [|split; [lia|]].
    + intros k. rewrite elem_of_nil. tauto.
    + intros _ [|j] d; discriminate.
  - cbn [length Nat.eqb]. rewrite Hprovider. cbn [bind].
    eexists; split; [reflexivity|].
    destruct (setEach_spec (doc :: docs) 0
                (provider_computeEmbeddings provider (map new_text (doc :: docs))) e)
      as (Hkeys & Hlen & Hget). cbv zeta in *.
    split; [exact Hkeys|]. split; [cbn [length] in Hlen; lia|].
    intros Hnodup j d Hd. destruct (Hget Hnodup) as [Hin _]. exact (Hin j d Hd).
Qed.

Lemma X15_addDocuments_indexes_the_batch_witness :
  ∃ e', addDocuments axisService [mkNewDocument "a" "query" None] "default" None
          newSemanticSearchEngine = Ok e' ∧
        JsMap.get "a" (documents e') = Some (mkIndexed "query" (Some [1; 0]%R) None).
Proof.
  destruct (X15_addDocuments_indexes_the_batch axisService axisProvider
              [mkNewDocument "a" "query" None] "default" newSemanticSearchEngine
              axisService_default) as (e' & Hadd & _ & _ & Hget).
  exists e'. split; [exact Hadd|].
  apply (Hget ltac:(apply NoDup_singleton) 0%nat (mkNewDocument "a" "query" None) eq_refl).
Defined.

End SearchBatch.

(** ** Best matches: what the two vector searches leave out *)

Section ScoringAll.

(** Scoring a list of entries against a query vector: every similarity is
    computed when every vector has the length of the query vector, and the
    first vector of another length makes the whole call throw. *)
Lemma mapM_cosine_returns {E B : Type} (emb : E → option (list R)) (mk : E → R → B)
    (query : list R) (docs : list E) :
  Forall (fun entry => ∃ v, emb entry = Some v ∧ length v = length query) docs →
  ∃ scored,
    mapM (fun entry =>
            let* score := Vec.cosineSimilarity (Some query) (emb entry) in
            Ok (mk entry score)) docs = Ok scored.
Proof.
  induction 1 as [|entry docs (v & Hv & Hlen) _ [scored IH]]; [eexists; reflexivity|].
  cbn [mapM]. rewrite Hv.
  destruct (cosineSimilarity_returns query v (eq_sym Hlen)) as [r ->]. cbn [bind].
  rewrite IH. cbn [bind]. eauto.
Qed.

Lemma mapM_cosine_throws {E B : Type} (emb : E → option (list R)) (mk : E → R → B)
    (query : list R) (docs : list E) :
  Forall (fun entry => is_Some (emb entry)) docs →
  Exists (fun entry => ∃ v, emb entry = Some v ∧ length v ≠ length query) docs →
  mapM (fun entry =>
          let* score := Vec.cosineSimilarity (Some query) (emb entry) in
          Ok (mk entry score)) docs
  = Throw "Vectors must have the same dimensions".
Proof.
  induction docs as [|entry docs IH]; intros Hall Hex; [inversion Hex|].
  apply Forall_cons in Hall as [[v Hv] Hall]. cbn [mapM]. rewrite Hv.
  destruct (decide (length query = length v)) as [Hlen|Hlen].
  - destruct (cosineSimilarity_returns query v Hlen) as [r ->]. cbn [bind].
    rewrite IH; [reflexivity|exact Hall|].
    apply Exists_cons in Hex as [(w & Hw & Hne)|Hex]; [|exact Hex].
    congruence.
  - rewrite (cosineSimilarity_throws query v Hlen). reflexivity.
Qed.

End ScoringAll.

Section StorageBest.
Import Chunking.

(** X31: [findSimilar] returns the best matches, and says when it cannot.
    When every stored vector has the length of the query vector it returns,
    and a stored document that it leaves out scored below the threshold, or
    no higher than each of the [limit] documents returned.  When every
    stored document has a vector and one of them is of another length, it
    throws. *)
Theorem X31_findSimilar_returns_the_best :
  ∀ s query limit threshold,
    0 ≤ limit →
    (Forall (fun entry => ∃ v, Storage.embedding (snd entry) = Some v ∧
                               length v = length query)
       (Storage.documents s) →
     ∃ results,
       Storage.findSimilar (Some query) limit threshold s = Ok results ∧
       ∀ k d, (k, d) ∈ Storage.documents s →
         ∃ x, Vec.cosineSimilarity (Some query) (Storage.embedding d) = Ok x ∧
              (k ∈ map Storage.id results ∨
               (x < default (7 / 10)%R threshold)%R ∨
               (length results = Z.to_nat limit ∧
                Forall (fun r => (Storage.score r >= x)%R) results))) ∧
    (Forall (fun entry => is_Some (Storage.embedding (snd entry))) (Storage.documents s) →
     Exists (fun entry => ∃ v, Storage.embedding (snd entry) = Some v ∧
                               length v ≠ length query)
       (Storage.documents s) →
     Storage.findSimilar (Some query) limit threshold s
       = Throw "Vectors must have the same dimensions").
Proof.
  intros s query limit threshold Hlimit. split.
  - intros Hall.
    destruct (mapM_cosine_returns (fun entry => Storage.embedding (snd entry))
                (fun entry score =>
                   Storage.mkSimilar (fst entry) (Storage.content (snd entry))
                     (Storage.metadata (snd entry)) score)
                query (Storage.documents s) Hall) as [scored Hscored].
    unfold Storage.findSimilar. cbv zeta. rewrite Hscored. cbn [bind].
    eexists; split; [reflexivity|]. intros k d Hin.
    apply mapM_Forall2 in Hscored.
    destruct (Forall2_elem_of_l _ _ _ (k, d) Hscored Hin) as (r & Hr & Hscore).
    cbn [fst snd] in Hscore.
    destruct (Vec.cosineSimilarity (Some query) (Storage.embedding d)) as [x| |];
      cbn [bind] in Hscore; try discriminate.
    injection Hscore as <-. exists x. split; [reflexivity|].
    destruct (top_complete Storage.score (default (7 / 10)%R threshold) scored limit _
                Hlimit Hr) as [Hkept|[Hlow|Hfull]].
    + left. apply list_elem_of_fmap. eexists; split; [|exact Hkept]. reflexivity.
    + right. left. exact Hlow.
    + right. right. exact Hfull.
  - intros Hall Hex. unfold Storage.findSimilar. cbv zeta.
    rewrite (mapM_cosine_throws (fun entry => Storage.embedding (snd entry))
               (fun entry score =>
                  Storage.mkSimilar (fst entry) (Storage.content (snd entry))
                    (Storage.metadata (snd entry)) score)
               query (Storage.documents s) Hall Hex).
    reflexivity.
Qed.

Lemma X31_findSimilar_returns_the_best_witness :
  ∃ results,
    Storage.findSimilar (Some [1; 0]%R) 5 None
      (Storage.mkStorage [("a", Storage.mkStored "text" (Some [0; 1]%R) noMetadata)])
    = Ok results.
Proof.
  destruct (proj1 (X31_findSimilar_returns_the_best
                     (Storage.mkStorage
                        [("a", Storage.mkStored "text" (Some [0; 1]%R) noMetadata)])
                     [1; 0]%R 5 None ltac:(lia)))
    as (results & Hresults & _).
  - apply Forall_singleton. eexists; split; reflexivity.
  - exists results. exact Hresults.
Defined.

End StorageBest.

Section SearchBest.
Import Cancellation Chunking Embeddings Search.

(** X32: [search] returns the best matches, and says when it cannot.  With a
    registered provider, a token that is not cancelled and a query that the
    provider maps to a vector: when every indexed vector has the length of
    the query vector, [search] returns, and an indexed document that it
    leaves out scored below the threshold, or no higher than each of the
    [topK] documents returned; when every indexed document has a vector and
    one of them is of another length, it throws. *)
Theorem X32_search_returns_the_best :
  ∀ service provider query providerId options e q,
    providers service !! providerId = Some provider →
    head (provider_computeEmbeddings provider [query]) = Some q →
    0 ≤ default 5 (topK options) →
    (Forall (fun entry => ∃ v, embedding (snd entry) = Some v ∧ length v = length q)
       (documents e) →
     ∃ results,
       search service query providerId options None e = Ok results ∧
       ∀ k d, (k, d) ∈ documents e →
         ∃ x, Vec.cosineSimilarity (Some q) (embedding d) = Ok x ∧
              (k ∈ map id results ∨
               (x < default 0%R (threshold options))%R ∨
               (length results = Z.to_nat (default 5 (topK options)) ∧
                (default true (includeSimilarity options) = true →
                 Forall (fun r => (score r >= x)%R) results)))) ∧
    (Forall (fun entry => is_Some (embedding (snd entry))) (documents e) →
     Exists (fun entry => ∃ v, embedding (snd entry) = Some v ∧ length v ≠ length q)
       (documents e) →
     search service query providerId options None e
       = Throw "Vectors must have the same dimensions").
Proof.
  intros service provider query providerId options e q Hprovider Hq Htop.
  assert (Hsearch :
    search service query providerId options None e =
      let* scored :=
        mapM (fun entry =>
                let* score := Vec.cosineSimilarity (Some q) (embedding (snd entry)) in
                Ok (mkResult (fst entry) score
                      (if default true (includeContent options)
                       then text (snd entry) else "")
                      (if default true (includeMetadata options)
                       then doc_metadata (snd entry) else None)))
             (documents e) in
      let results :=
        Arr.slice0
          (Arr.sort (fun a b => (score b - score a)%R)
             (List.filter
                (fun result => Arr.Rgeb (score result) (default 0%R (threshold options)))
                scored))
          (default 5 (topK options)) in
      Ok (if default true (includeSimilarity options) then results
          else map (fun result =>
                      mkResult (id result) 0%R (content result) (metadata result))
                   results)).
  { unfold search, computeEmbeddings. cbn [requested]. rewrite Hprovider. cbn [bind].
    rewrite Hq. reflexivity. }
  rewrite Hsearch. clear Hsearch. split.
  - intros Hall.
    destruct (mapM_cosine_returns (fun entry => embedding (snd entry))
                (fun entry score =>
                   mkResult (fst entry) score
                     (if default true (includeContent options)
                      then text (snd entry) else "")
                     (if default true (includeMetadata options)
                      then doc_metadata (snd entry) else None))
                q (documents e) Hall) as [scored Hscored].
    rewrite Hscored. cbn [bind]. cbv zeta.
    eexists; split; [reflexivity|]. intros k d Hin.
    apply mapM_Forall2 in Hscored.
    destruct (Forall2_elem_of_l _ _ _ (k, d) Hscored Hin) as (r & Hr & Hscore).
    cbn [fst snd] in Hscore.
    destruct (Vec.cosineSimilarity (Some q) (embedding d)) as [x| |];
      cbn [bind] in Hscore; try discriminate.
    injection Hscore as <-. exists x. split; [reflexivity|].
    set (top := Arr.slice0 _ _).
    destruct (top_complete score (default 0%R (threshold options)) scored
                (default 5 (topK options)) _ Htop Hr) as [Hkept|[Hlow|[Hlen Hfull]]].
    + left. destruct (default true (includeSimilarity options)).
      * apply list_elem_of_fmap. eexists; split; [|exact Hkept]. reflexivity.
      * rewrite map_map. cbn [id].
        apply list_elem_of_fmap. eexists; split; [|exact Hkept]. reflexivity.
    + right. left. exact Hlow.
    + right. right. destruct (default true (includeSimilarity options)).
      * split; [exact Hlen|]. intros _. exact Hfull.
      * split; [rewrite length_map; exact Hlen|]. discriminate.
  - intros Hall Hex.
    rewrite (mapM_cosine_throws (fun entry => embedding (snd entry))
               (fun entry score =>
                  mkResult (fst entry) score
                    (if default true (includeContent options)
                     then text (snd entry) else "")
                    (if default true (includeMetadata options)
                     then doc_metadata (snd entry) else None))
               q (documents e) Hall Hex).
    reflexivity.
Qed.

Lemma X32_search_returns_the_best_witness :
  ∃ results,
    search axisService "query" "default" noOptions None
      (mkEngine [("d1", mkIndexed "document" (Some [0; 1]%R) None)])
    = Ok results.
Proof.
  destruct (proj1 (X32_search_returns_the_best axisService axisProvider "query" "default"
                     noOptions
                     (mkEngine [("d1", mkIndexed "document" (Some [0; 1]%R) None)])
                     [1; 0]%R axisService_default eq_refl ltac:(simpl; lia)))
    as (results & Hresults & _).
  - apply Forall_singleton. eexists; split; reflexivity.
  - exists results. exact Hresults.
Defined.

End SearchBest.

(** ** Prompt building: which snippets go in, and where *)

Section PromptMore.
Import Prompt.

Lemma includeWhileFits_spec template availableTokens snippets :
  ∀ tokenCount,
    let included := includeWhileFits template availableTokens snippets tokenCount in
    let cost := fun snippet =>
      estimateTokens (formatSnippet snippet +:+ contextSeparator template) in
    ∃ rest,
      snippets = included ++ rest ∧
      (included = [] ∨
       tokenCount + fold_right Z.add 0 (map cost included) ≤ availableTokens) ∧
      match rest with
      | next :: _ =>
          availableTokens < tokenCount + fold_right Z.add 0 (map cost included) + cost next
      | [] => True
      end.
Proof.
  induction snippets as [|snippet snippets IH]; intros tokenCount; simpl.
  - exists []. auto.
  - destruct (_ <=? availableTokens) eqn:Efits.
    + destruct (IH (tokenCount
                    + estimateTokens (formatSnippet snippet +:+ contextSeparator template)))
        as (rest & Heq & Hfit & Hnext).
      cbv zeta in *. exists rest. split; [simpl; congruence|]. split.
      * right. simpl. destruct Hfit as [->|Hfit]; simpl; lia.
      * destruct rest; [exact I|]. simpl. lia.
    + exists (snippet :: snippets). split; [reflexivity|]. split; [left; reflexivity|].
      simpl. lia.
Qed.

(** X16: the snippets of a prompt are the most relevant ones that fit.
    [buildPrompt] orders the snippets by descending relevance and includes
    the longest initial run of that order whose estimated tokens fit in the
    context window less 500 and less the output tokens (4000 and 1000 when
    not given): the included snippets are a prefix of the sorted ones, the
    prefix fits unless it is empty, the next snippet would not fit, and the
    two counts of the result are the lengths of the prefix and of the input. *)
Theorem X16_prompt_includes_best_fitting_prefix :
  ∀ template context,
    let sorted :=
      Arr.sort (fun a b => (relevance b - relevance a)%R) (codeSnippets context) in
    let available :=
      orNumber (option_map contextWindow (modelCapabilities context)) 4000
      - (500 + orNumber (mbind maxOutputTokens (modelCapabilities context)) 1000) in
    let cost := fun snippet =>
      estimateTokens (formatSnippet snippet +:+ contextSeparator template) in
    Permutation sorted (codeSnippets context) ∧
    StronglySorted (fun a b => (relevance a >= relevance b)%R) sorted ∧
    ∃ included rest,
      sorted = included ++ rest ∧
      (included = [] ∨ fold_right Z.add 0 (map cost included) ≤ available) ∧
      match rest with
      | next :: _ => available < fold_right Z.add 0 (map cost included) + cost next
      | [] => True
      end ∧
      includedSnippets (result_metadata (buildPrompt template context))
        = Z.of_nat (length included) ∧
      totalSnippets (result_metadata (buildPrompt template context))
        = Z.of_nat (length (codeSnippets context)).
Proof.
  intros template context. cbv zeta.
  pose proof (sort_perm relevance (codeSnippets context)) as Hperm.
  split; [exact Hperm|]. split; [apply (sort_descending relevance)|].
  set (sorted := Arr.sort _ (codeSnippets context)) in *.
  destruct (includeWhileFits_spec template
              (orNumber (option_map contextWindow (modelCapabilities context)) 4000
               - (500 + orNumber (mbind maxOutputTokens (modelCapabilities context)) 1000))
              sorted 0) as (rest & Heq & Hfit & Hnext).
  cbv zeta in *.
  exists (includeWhileFits template
            (orNumber (option_map contextWindow (modelCapabilities context)) 4000
             - (500 + orNumber (mbind maxOutputTokens (modelCapabilities context)) 1000))
            sorted 0), rest.
  split; [exact Heq|]. split; [exact Hfit|]. split; [exact Hnext|].
  split; [reflexivity|]. unfold buildPrompt; simpl. fold sorted.
  rewrite (Permutation_length Hperm). reflexivity.
Qed.

Lemma append_nil_r s : s +:+ "" = s.
Proof. induction s as [|c s IH]; simpl; [reflexivity|]. unfold String.app in *. simpl. congruence. Qed.

Lemma expand_plain replacement before matched after :
  Forall (fun c => c ≠ "$"%char) replacement →
  expand replacement before matched after = string_of_list_ascii replacement.
Proof.
  induction 1 as [|c rest Hc _ IH]; [reflexivity|].
  simpl string_of_list_ascii. rewrite <- IH. clear IH.
  destruct c as [[] [] [] [] [] [] [] []]; try reflexivity.
  exfalso. apply Hc. reflexivity.
Qed.

(** X17: with the default template the code context never reaches the
    prompt.  The default user template is ['{{query}}'], which has no place
    for the context: for a query free of ['$'] and of the text
    ['{{context}}'], the user message of [buildPrompt] is the query alone
    (after two line feeds when the model has no system role), whatever
    snippets are passed and however many of them the result counts as
    included. *)
Theorem X17_default_template_drops_the_context :
  ∀ question snippets info capabilities,
    Forall (fun c => c ≠ "$"%char) (list_ascii_of_string question) →
    String.index 0 "{{context}}" question = None →
    userMessage
      (buildPrompt (newPromptBuilder noTemplate)
         (mkContext question snippets info capabilities))
    = match capabilities with
      | Some c => if supportsSystemMessage c then question else LF +:+ LF +:+ question
      | None => LF +:+ LF +:+ question
      end.
Proof.
  intros question snippets info capabilities Hplain Hcontext.
  assert (Hquery : replace "{{query}}" "{{query}}" question = question).
  { unfold replace. simpl String.index. cbn match. simpl String.substring.
    rewrite expand_plain by exact Hplain.
    rewrite string_of_list_ascii_of_string. simpl. apply append_nil_r. }
  unfold buildPrompt. cbn [userMessage userMessageTemplate newPromptBuilder noTemplate
    userMessageTemplate_opt default defaultTemplate query].
  assert (Hkeep : ∀ contextString, replace question "{{context}}" contextString = question).
  { intros contextString. unfold replace. rewrite Hcontext. reflexivity. }
  rewrite Hquery, Hkeep.
  cbn [modelCapabilities]. destruct capabilities as [c|]; [|reflexivity].
  destruct (supportsSystemMessage c); reflexivity.
Qed.

Lemma X17_default_template_drops_the_context_witness :
  userMessage
    (buildPrompt (newPromptBuilder noTemplate)
       (mkContext "why" [mkSnippet "let x = 1;" 0 0 1 0 None] None
          (Some (mkCapabilities 4000 true None))))
  = "why".
Proof.
  refine (X17_default_template_drops_the_context "why"
            [mkSnippet "let x = 1;" 0 0 1 0 None] None
            (Some (mkCapabilities 4000 true None)) _ eq_refl).
  repeat constructor; discriminate.
Defined.

End PromptMore.

(** ** Ranking: order, threshold and normalised scores *)

Section SortFilter.
Context {A : Type} (key : A → R).

Lemma sort_filter_shape (t : R) (l : list A) :
  let out :=
    Arr.sort (fun a b => (key b - key a)%R)
      (List.filter (fun x => Arr.Rgeb (key x) t) l) in
  Forall (fun x => (key x >= t)%R) out ∧
  StronglySorted (fun a b => (key a >= key b)%R) out ∧
  out ⊆+ l ∧
  (∀ x, x ∈ l → (key x >= t)%R →
     ∃ first rest, out = first :: rest ∧ (key first >= key x)%R).
Proof.
  cbv zeta. set (kept := List.filter _ l). set (sorted := Arr.sort _ kept).
  assert (Hperm : Permutation sorted kept) by apply (sort_perm key).
  assert (Hsorted : StronglySorted (fun a b => (key a >= key b)%R) sorted)
    by apply (sort_descending key).
  split; [|split; [exact Hsorted|split]].
  - apply Forall_forall. intros r Hr. rewrite Hperm in Hr.
    apply list_elem_of_In, filter_In in Hr as [_ Hge]. unfold Arr.Rgeb in Hge.
    destruct (Rge_dec _ _); [assumption|discriminate].
  - rewrite Hperm. apply sublist_submseteq, List_filter_sublist.
  - intros x Hx Hge.
    assert (Hin : x ∈ sorted).
    { rewrite Hperm. apply list_elem_of_In, filter_In.
      split; [apply list_elem_of_In, Hx|].
      unfold Arr.Rgeb. destruct (Rge_dec _ _); [reflexivity|contradiction]. }
    destruct sorted as [|first rest]; [apply elem_of_nil in Hin; tauto|].
    exists first, rest. split; [reflexivity|].
    apply elem_of_cons in Hin as [->|Hin]; [lra|].
    apply StronglySorted_inv in Hsorted as [_ Hall].
    rewrite Forall_forall in Hall. apply Hall, Hin.
Qed.

End SortFilter.

Section RankingMore.
Import Cancellation Ranking.
Context {T : Type}.

Lemma minimum_spec x xs :
  (∀ y, y ∈ x :: xs → (minimum x xs <= y)%R) ∧ minimum x xs ∈ x :: xs.
Proof.
  unfold minimum. revert x. induction xs as [|z xs IH]; intros x; simpl.
  - split; [|left]. intros y Hy. apply list_elem_of_singleton in Hy as ->. lra.
  - destruct (IH (Rmin x z)) as [Hle Hin]. split.
    + intros y Hy. rewrite !elem_of_cons in Hy.
      pose proof (Hle (Rmin x z) ltac:(left)) as Hm.
      pose proof (Rmin_l x z). pose proof (Rmin_r x z).
      destruct Hy as [->|[->|Hy]]; [lra|lra|]. apply Hle. right. exact Hy.
    + apply elem_of_cons in Hin as [Hin|Hin].
      * rewrite Hin. unfold Rmin. destruct (Rle_dec x z); [left|right; left].
      * right. right. exact Hin.
Qed.

Lemma maximum_spec x xs :
  (∀ y, y ∈ x :: xs → (y <= maximum x xs)%R) ∧ maximum x xs ∈ x :: xs.
Proof.
  unfold maximum. revert x. induction xs as [|z xs IH]; intros x; simpl.
  - split; [|left]. intros y Hy. apply list_elem_of_singleton in Hy as ->. lra.
  - destruct (IH (Rmax x z)) as [Hle Hin]. split.
    + intros y Hy. rewrite !elem_of_cons in Hy.
      pose proof (Hle (Rmax x z) ltac:(left)) as Hm.
      pose proof (Rmax_l x z). pose proof (Rmax_r x z).
      destruct Hy as [->|[->|Hy]]; [lra|lra|]. apply Hle. right. exact Hy.
    + apply elem_of_cons in Hin as [Hin|Hin].
      * rewrite Hin. unfold Rmax. destruct (Rle_dec x z); [right; left|left].
      * right. right. exact Hin.
Qed.

Lemma combine_map_r {B : Type} (f : ScoredContext T → B) l :
  combine l (map f l) = map (fun x => (x, f x)) l.
Proof. induction l as [|x l IH]; simpl; congruence. Qed.

(** Normalising changes scores only. *)
Lemma normalizeScores_items options (items : list (ScoredContext T)) :
  map item (normalizeScores options items) = map item items ∧
  map factors (normalizeScores options items) = map factors items.
Proof.
  unfold normalizeScores. destruct items as [|first others]; [auto|].
  destruct (normalizationStrategy options).
  - destruct (Req_dec_T _ _); rewrite !map_map; auto.
  - rewrite (combine_map_r (fun x => exp (score x))), !map_map. auto.
  - auto.
Qed.

Lemma scoreItems_items options (items : list T) query scoreFn :
  map item (scoreItems options items query scoreFn) = items.
Proof.
  unfold scoreItems. rewrite map_map. simpl. apply map_id.
Qed.

(** X18: what [rankItems] returns.  The result is in descending order of
    score, holds no item below [minScore], and holds items of the input
    only, none more often than the input does; a cancelled token gives the
    empty list. *)
Theorem X18_rankItems_shape :
  ∀ options (items : list T) query scoreFn token,
    let ranked := rankItems options items query scoreFn token in
    StronglySorted (fun a b => (score a >= score b)%R) ranked ∧
    Forall (fun x => (score x >= minScore options)%R) ranked ∧
    map item ranked ⊆+ items ∧
    (requested token = true → ranked = []).
Proof.
  intros options items query scoreFn token. cbv zeta. unfold rankItems.
  destruct (requested token).
  { split; [constructor|]. split; [constructor|]. split; [apply submseteq_nil_l|auto]. }
  destruct (sort_filter_shape score (minScore options)
              (normalizeScores options (scoreItems options items query scoreFn)))
    as (Hge & Hsorted & Hsub & _).
  cbv zeta in *. split; [exact Hsorted|]. split; [exact Hge|]. split; [|discriminate].
  apply (fmap_submseteq item) in Hsub.
  change (list_fmap _ _ item) with (map item) in Hsub.
  rewrite (proj1 (normalizeScores_items _ _)), scoreItems_items in Hsub. exact Hsub.
Qed.

(** X19: under min-max normalisation the best item always scores 1.  With
    the strategy ['minMax'], a threshold of at most 1, a token that is not
    cancelled and at least one item, [rankItems] returns at least one item,
    the first has score exactly 1, and every score lies between 0 and 1. *)
Theorem X19_minMax_best_item_scores_one :
  ∀ options (items : list T) query scoreFn,
    normalizationStrategy options = minMax →
    (minScore options <= 1)%R →
    items ≠ [] →
    ∃ first rest,
      rankItems options items query scoreFn None = first :: rest ∧
      score first = 1%R ∧
      Forall (fun x => (0 <= score x <= 1)%R) (first :: rest).
Proof.
  intros options items query scoreFn Hstrategy Hmin Hitems.
  unfold rankItems. cbn [requested].
  set (scored := scoreItems options items query scoreFn).
  assert (Hscored : scored ≠ []).
  { intros Habs. apply Hitems. rewrite <- (scoreItems_items options items query scoreFn).
    fold scored. rewrite Habs. reflexivity. }
  assert (Hnorm : Forall (fun x => (0 <= score x <= 1)%R) (normalizeScores options scored) ∧
                  ∃ x, x ∈ normalizeScores options scored ∧ score x = 1%R).
  { unfold normalizeScores. destruct scored as [|first others]; [congruence|].
    rewrite Hstrategy.
    destruct (minimum_spec (score first) (map score others)) as [Hlo Hlo_in].
    destruct (maximum_spec (score first) (map score others)) as [Hhi Hhi_in].
    set (lo := minimum _ _) in *. set (hi := maximum _ _) in *.
    change (score first :: map score others) with (map score (first :: others)) in *.
    destruct (Req_dec_T hi lo) as [Heq|Hne].
    - split.
      + apply Forall_forall. intros x Hx. apply list_elem_of_In, in_map_iff in Hx
          as (x0 & <- & _). simpl. lra.
      + exists (withScore first 1%R). split; [left|reflexivity].
    - assert (Hlt : (lo < hi)%R).
      { pose proof (Hlo hi Hhi_in). lra. }
      split.
      + apply Forall_forall. intros x Hx. apply list_elem_of_In, in_map_iff in Hx
          as (x0 & <- & Hx0). simpl.
        assert (Hsx : score x0 ∈ map score (first :: others))
          by (apply list_elem_of_fmap_2, list_elem_of_In, Hx0).
        pose proof (Hlo _ Hsx). pose proof (Hhi _ Hsx).
        split.
        * apply Rmult_le_pos; [lra|]. apply Rlt_le, Rinv_0_lt_compat. lra.
        * apply Rmult_le_reg_r with (hi - lo)%R; [lra|].
          unfold Rdiv. rewrite Rmult_assoc, Rinv_l by lra. lra.
      + apply list_elem_of_fmap in Hhi_in as (best & Hbest & Hin).
        exists (withScore best ((score best - lo) / (hi - lo))%R). split.
        * apply (list_elem_of_fmap_2
                   (fun x => withScore x ((score x - lo) / (hi - lo))%R)), Hin.
        * simpl. rewrite <- Hbest. apply Rdiv_diag. lra. }
  destruct Hnorm as [Hrange (best & Hbest & Hone)].
  destruct (sort_filter_shape score (minScore options) (normalizeScores options scored))
    as (_ & _ & Hsub & Hhead).
  cbv zeta in *.
  destruct (Hhead best Hbest ltac:(lra)) as (first & rest & Heq & Hge).
  exists first, rest. split; [exact Heq|].
  assert (Hall : Forall (fun x => (0 <= score x <= 1)%R) (first :: rest)).
  { rewrite Heq in Hsub. apply Forall_forall. intros x Hx.
    rewrite Forall_forall in Hrange. apply Hrange.
    eapply elem_of_submseteq; eassumption. }
  split; [|exact Hall].
  apply Forall_cons in Hall as [Hfirst _]. lra.
Qed.

End RankingMore.

Lemma X19_minMax_best_item_scores_one_witness :
  ∃ first rest,
    Ranking.rankItems Ranking.defaultOptions [tt] "q" (fun _ _ => Ranking.zeroFactors) None
      = first :: rest ∧
    Ranking.score first = 1%R ∧
    Forall (fun x => (0 <= Ranking.score x <= 1)%R) (first :: rest).
Proof.
  refine (X19_minMax_best_item_scores_one Ranking.defaultOptions [tt] "q"
            (fun _ _ => Ranking.zeroFactors) eq_refl _ _).
  - simpl. lra.
  - discriminate.
Defined.

(** ** Cancellation token sources *)

Section CancellationSource.
Import Cancellation.

(** The state of a source after a sequence of calls on a new one. *)
Lemma source_state cs :
  let s := fold_left runSource cs newCancellationTokenSource in
  if bool_decide (Dispose ∈ cs) then _token s = Some NoneRef
  else if bool_decide (Cancel ∈ cs)
       then _token s = Some CancelledRef ∨
            (_token s = Some MutableRef ∧ _isCancelled s = true)
       else _token s = None ∨ (_token s = Some MutableRef ∧ _isCancelled s = false).
Proof.
  induction cs as [|c cs IH] using rev_ind; [left; reflexivity|].
  cbv zeta in *. rewrite fold_left_app. simpl.
  set (s := fold_left runSource cs newCancellationTokenSource) in *.
  assert (Hd : Dispose ∈ cs ++ [c] ↔ Dispose ∈ cs ∨ c = Dispose).
  { rewrite elem_of_app, list_elem_of_singleton. split; intros [?|?]; auto. }
  assert (Hc : Cancel ∈ cs ++ [c] ↔ Cancel ∈ cs ∨ c = Cancel).
  { rewrite elem_of_app, list_elem_of_singleton. split; intros [?|?]; auto. }
  repeat case_bool_decide; destruct c; simpl;
    try (exfalso; tauto); try (exfalso; intuition discriminate);
    unfold token, cancel, dispose;
    repeat match goal with
           | H : _ ∨ _ |- _ => destruct H
           | H : _ ∧ _ |- _ => destruct H
           | H : _token s = _ |- _ => rewrite H
           | H : _isCancelled s = _ |- _ => rewrite H
           end; simpl; auto.
Qed.

(** X21: when a source's token is cancelled.  After any sequence of
    [token], [cancel] and [dispose] calls on a new source, the token that
    the source then returns has its flag set exactly when [cancel] was called
    and [dispose] never was. *)
Theorem X21_source_token_cancelled_iff :
  ∀ cs,
    let s := fold_left runSource cs newCancellationTokenSource in
    readToken (fst (token s)) (snd (token s)) = true ↔ Cancel ∈ cs ∧ Dispose ∉ cs.
Proof.
  intros cs. cbv zeta. pose proof (source_state cs) as Hs. cbv zeta in Hs.
  set (s := fold_left runSource cs newCancellationTokenSource) in *.
  unfold token. repeat case_bool_decide;
    repeat match goal with
           | H : _ ∨ _ |- _ => destruct H
           | H : _ ∧ _ |- _ => destruct H
           | H : _token s = _ |- _ => rewrite H
           end; simpl; try rewrite H1; try rewrite H2;
    split; try tauto; try discriminate; try (intros [? ?]; tauto); auto.
Qed.

(** X22: cancellation sticks, and disposal detaches.  A token handed out
    by a source that reads cancelled reads cancelled after every further call
    on the source; and after [dispose] a [cancel] no longer reaches a token
    that was handed out before, which keeps the flag it had. *)
Theorem X22_cancelled_stays_and_dispose_detaches :
  (∀ t s cs,
     (t = MutableRef → is_Some (_token s)) →
     readToken t s = true → readToken t (fold_left runSource cs s) = true) ∧
  (∀ t s cs, readToken t (fold_left runSource cs (dispose s)) = readToken t s).
Proof.
  split.
  - intros t s cs. revert s. induction cs as [|c cs IH]; intros s Hout Ht; [exact Ht|].
    simpl. destruct t; try (apply IH; [discriminate|exact Ht]).
    specialize (Hout eq_refl). destruct Hout as [held Hheld]. simpl in Ht.
    apply IH.
    + intros _. destruct c; unfold runSource, token, cancel, dispose; simpl;
        rewrite ?Hheld; simpl; destruct held; simpl; rewrite ?Hheld; eauto.
    + destruct c; unfold runSource, token, cancel, dispose; simpl;
        rewrite ?Hheld; simpl; destruct held; simpl; rewrite ?Ht; auto.
  - intros t s cs.
    assert (Hgen : ∀ s', _token s' = Some NoneRef →
              readToken t (fold_left runSource cs s') = readToken t s').
    { induction cs as [|c cs IH]; intros s' Hs'; [reflexivity|].
      simpl. rewrite IH.
      - destruct c; unfold runSource, token, cancel, dispose; simpl; rewrite ?Hs';
          destruct t; reflexivity.
      - destruct c; unfold runSource, token, cancel, dispose; simpl; rewrite ?Hs';
          auto. }
    rewrite Hgen by reflexivity. destruct t; reflexivity.
Qed.

Lemma X22_cancelled_stays_and_dispose_detaches_witness :
  readToken MutableRef
    (fold_left runSource [Dispose; Cancel]
       (cancel (snd (token newCancellationTokenSource)))) = true.
Proof.
  refine (proj1 X22_cancelled_stays_and_dispose_detaches MutableRef
            (cancel (snd (token newCancellationTokenSource))) [Dispose; Cancel] _ eq_refl).
  intros _. simpl. eauto.
Defined.

End CancellationSource.

(** ** Chunking: what the chunks of a content add up to *)

Section ChunkingMore.
Import Cancellation Chunking.

(** X23: an overlap keeps fixed-size chunking from returning.  For every
    content longer than [maxChunkSize] and every overlap with
    [0 < overlap < minChunkSize <= maxChunkSize], the loop of
    [FixedSizeChunkingStrategy.chunk] stays below the end of the content:
    however many iterations are allowed, the call does not return. *)
Theorem X23_fixed_size_overlap_never_returns :
  ∀ options fuel content metadata token,
    requested token = false →
    0 < overlap options < minChunkSize options →
    minChunkSize options ≤ maxChunkSize options →
    maxChunkSize options < Str.len content →
    FixedSize_chunk options fuel content metadata token = NoReturn.
Proof. exact FixedSize_chunk_overlap_never_returns. Qed.

Lemma X23_fixed_size_overlap_never_returns_witness :
  FixedSize_chunk (mkOptions 3 2 1) 1000 "abcdefgh" None None = NoReturn.
Proof.
  apply X23_fixed_size_overlap_never_returns; simpl; try reflexivity; lia.
Defined.

Lemma String_substring_zero s n : String.substring n 0 s = "".
Proof.
  revert n. induction s as [|c s IH]; intros [|n]; simpl; auto.
Qed.

Lemma String_substring_split s :
  ∀ n m k,
    String.substring n m s +:+ String.substring (n + m) k s = String.substring n (m + k) s.
Proof.
  induction s as [|c s IH]; intros n m k.
  - destruct n, m, k; reflexivity.
  - destruct n as [|n].
    + destruct m as [|m]; simpl.
      * destruct k; reflexivity.
      * rewrite <- (IH 0%nat m k). reflexivity.
    + simpl. apply IH.
Qed.

Lemma substring_split s a b c :
  0 ≤ a → a ≤ b → b ≤ c → c ≤ Str.len s →
  substring s a b +:+ substring s b c = substring s a c.
Proof.
  intros Ha Hab Hbc Hc. unfold substring, Str.len in *.
  replace (Z.min (Z.min (Z.max a 0) (Z.of_nat (String.length s)))
                 (Z.min (Z.max b 0) (Z.of_nat (String.length s)))) with a by lia.
  replace (Z.max (Z.min (Z.max a 0) (Z.of_nat (String.length s)))
                 (Z.min (Z.max b 0) (Z.of_nat (String.length s)))) with b by lia.
  replace (Z.min (Z.min (Z.max b 0) (Z.of_nat (String.length s)))
                 (Z.min (Z.max c 0) (Z.of_nat (String.length s)))) with b by lia.
  replace (Z.max (Z.min (Z.max b 0) (Z.of_nat (String.length s)))
                 (Z.min (Z.max c 0) (Z.of_nat (String.length s)))) with c by lia.
  replace (Z.min (Z.min (Z.max a 0) (Z.of_nat (String.length s)))
                 (Z.min (Z.max c 0) (Z.of_nat (String.length s)))) with a by lia.
  replace (Z.max (Z.min (Z.max a 0) (Z.of_nat (String.length s)))
                 (Z.min (Z.max c 0) (Z.of_nat (String.length s)))) with c by lia.
  replace (Z.to_nat b) with (Z.to_nat a + Z.to_nat (b - a))%nat by lia.
  replace (Z.to_nat (c - a)) with (Z.to_nat (b - a) + Z.to_nat (c - b))%nat by lia.
  apply String_substring_split.
Qed.

Lemma String_substring_all s : String.substring 0 (String.length s) s = s.
Proof. induction s as [|c s IH]; simpl; congruence. Qed.

(** A split point lies at most 100 characters beyond the end position. *)
Lemma findSplit_upper content currentPosition minChunkSize endPosition candidates :
  0 ≤ currentPosition + minChunkSize → currentPosition + minChunkSize ≤ endPosition →
  endPosition ≤ Str.len content →
  findSplit content currentPosition minChunkSize endPosition candidates ≤ endPosition + 100.
Proof.
  intros Hnonneg Hmin Hend.
  induction candidates as [|breakpoint rest IH]; cbn [findSplit]; [lia|].
  cbv zeta in *.
  set (searchStart := Z.max (endPosition - 100) (currentPosition + minChunkSize)).
  set (searchEnd := Z.min (endPosition + 100) (Str.len content)).
  set (breakpointIndex := lastIndexOf (substring content searchStart searchEnd) breakpoint).
  destruct (negb (breakpointIndex =? -1)
            && (currentPosition + minChunkSize <? searchStart + breakpointIndex)) eqn:Hfound;
    [|exact IH].
  apply andb_true_iff in Hfound as [Hidx Hfar].
  apply negb_true_iff, Z.eqb_neq in Hidx.
  destruct (lastIndexOf_bound (substring content searchStart searchEnd) breakpoint)
    as [Hnone|[Hlo Hhi]]; [contradiction|].
  fold breakpointIndex in Hlo, Hhi.
  rewrite substring_len in Hhi by (unfold searchStart, searchEnd; lia).
  unfold searchEnd in *. lia.
Qed.

Lemma chunkEnd_range content maxChunkSize minChunkSize currentPosition :
  0 ≤ currentPosition < Str.len content →
  0 ≤ minChunkSize ≤ maxChunkSize → 0 < maxChunkSize →
  currentPosition < chunkEnd content maxChunkSize minChunkSize currentPosition
    ≤ Z.min (Str.len content) (currentPosition + maxChunkSize + 100).
Proof.
  intros Hpos Hmin Hmax.
  destruct (chunkEnd_bound content maxChunkSize minChunkSize currentPosition Hpos Hmin Hmax)
    as [Hend Hcases]. cbv zeta in *.
  split; [lia|]. apply Z.min_glb; [exact Hend|].
  unfold chunkEnd.
  destruct (Z.min (currentPosition + maxChunkSize) (Str.len content) <? Str.len content)
    eqn:Hshort; [|lia].
  apply Z.ltb_lt in Hshort.
  pose proof (findSplit_upper content currentPosition minChunkSize
                (Z.min (currentPosition + maxChunkSize) (Str.len content)) breakpoints).
  lia.
Qed.

(** The loop without overlap: the chunks it adds make up the rest of the
    content. *)
Lemma chunkLoop_covers content metadata maxChunkSize minChunkSize :
  0 ≤ minChunkSize ≤ maxChunkSize → 0 < maxChunkSize →
  ∀ fuel currentPosition chunkIndex chunks result,
    0 ≤ currentPosition →
    chunkLoop fuel content metadata None maxChunkSize minChunkSize 0
      currentPosition chunkIndex chunks = Ok result →
    ∃ new,
      result = chunks ++ new ∧
      fold_right String.append "" (contents new)
        = substring content currentPosition (Str.len content) ∧
      Forall (fun chunk => 0 < Str.len (Chunking.content chunk) ≤ maxChunkSize + 100) new ∧
      ∀ n chunk, nth_error new n = Some chunk →
        id chunk = generateChunkId (Chunking.content chunk) (chunkIndex + Z.of_nat n) metadata.
Proof.
  intros Hmin Hmax.
  induction fuel as [|fuel IH]; intros currentPosition chunkIndex chunks result Hpos;
    rewrite chunkLoop_unfold;
    destruct (currentPosition <? Str.len content) eqn:Hlt; try discriminate.
  - apply Z.ltb_ge in Hlt. intros [= <-]. exists []. rewrite app_nil_r.
    split; [reflexivity|]. split; [|split; [constructor|intros [|n] c; discriminate]].
    simpl. unfold substring.
    replace (Z.max _ _ - Z.min _ _) with 0 by (unfold Str.len in *; lia).
    rewrite String_substring_zero. reflexivity.
  - apply Z.ltb_lt in Hlt. cbn [requested]. cbv zeta.
    pose proof (chunkEnd_range content maxChunkSize minChunkSize currentPosition
                  ltac:(lia) Hmin Hmax) as Hend.
    set (endPosition := chunkEnd content maxChunkSize minChunkSize currentPosition) in *.
    rewrite Z.sub_0_r. intros Hloop.
    destruct (IH endPosition (chunkIndex + 1) _ result ltac:(lia) Hloop)
      as (new & -> & Hcover & Hsizes & Hids).
    eexists (_ :: new). split; [rewrite <- app_assoc; reflexivity|].
    split; [|split].
    + cbn [contents map fold_right Chunking.content]. fold (contents new). rewrite Hcover.
      apply substring_split; lia.
    + constructor; [|exact Hsizes]. cbn [Chunking.content].
      rewrite substring_len by lia. lia.
    + intros [|n] c Hc; simpl in Hc.
      * injection Hc as <-. cbn [id Chunking.content]. rewrite Z.add_0_r. reflexivity.
      * rewrite (Hids n c Hc). f_equal. lia.
  - apply Z.ltb_ge in Hlt. intros [= <-]. exists []. rewrite app_nil_r.
    split; [reflexivity|]. split; [|split; [constructor|intros [|n] c; discriminate]].
    simpl. unfold substring.
    replace (Z.max _ _ - Z.min _ _) with 0 by (unfold Str.len in *; lia).
    rewrite String_substring_zero. reflexivity.
Qed.

(** X24: without overlap the fixed-size chunks tile the content.  With
    [overlap = 0] and [0 < minChunkSize <= maxChunkSize], [chunk] returns
    within as many iterations as the content has characters; the contents of
    the chunks, put one after the other, are the content; a chunk is never
    longer than [maxChunkSize + 100] (a split may be found up to 100
    characters beyond [maxChunkSize], so a chunk may exceed it) and never
    empty unless the content is; and the ids number the chunks from 0. *)
Theorem X24_fixed_size_chunks_tile_the_content :
  ∀ options content metadata fuel,
    overlap options = 0 →
    0 < minChunkSize options ≤ maxChunkSize options →
    (String.length content ≤ fuel)%nat →
    ∃ chunks,
      FixedSize_chunk options fuel content metadata None = Ok chunks ∧
      fold_right String.append "" (contents chunks) = content ∧
      Forall (fun chunk => Str.len (Chunking.content chunk) ≤ maxChunkSize options + 100)
        chunks ∧
      (content ≠ "" → Forall (fun chunk => 0 < Str.len (Chunking.content chunk)) chunks) ∧
      ∀ n chunk, nth_error chunks n = Some chunk →
        id chunk = generateChunkId (Chunking.content chunk) (Z.of_nat n) metadata.
Proof.
  intros options content metadata fuel Hoverlap Hmin Hfuel.
  destruct (FixedSize_chunk_without_overlap_returns options content metadata None
              Hoverlap Hmin fuel Hfuel) as [chunks Hchunk].
  exists chunks. split; [exact Hchunk|].
  unfold FixedSize_chunk in Hchunk. cbn [requested] in Hchunk.
  replace (minChunkSize options =? 0) with false in Hchunk
    by (symmetry; apply Z.eqb_neq; lia).
  destruct (Str.len content <=? maxChunkSize options) eqn:Hshort.
  - injection Hchunk as <-. apply Z.leb_le in Hshort.
    split; [simpl; apply append_nil_r|]. split; [repeat constructor; simpl; lia|].
    split.
    + intros Hne. repeat constructor. simpl. destruct content; [congruence|].
      unfold Str.len. simpl. lia.
    + intros [|[|n]] c; try discriminate. intros [= <-]. reflexivity.
  - rewrite Hoverlap in Hchunk.
    destruct (chunkLoop_covers content metadata (maxChunkSize options) (minChunkSize options)
                ltac:(lia) ltac:(lia) fuel 0 0 [] chunks ltac:(lia) Hchunk)
      as (new & -> & Hcover & Hsizes & Hids).
    simpl. split; [|split; [|split]].
    + rewrite Hcover. unfold substring, Str.len.
      replace (Z.min (Z.min (Z.max 0 0) _) _) with 0 by lia.
      replace (Z.max (Z.min (Z.max 0 0) _) _) with (Z.of_nat (String.length content)) by lia.
      rewrite Z.sub_0_r, Nat2Z.id. apply String_substring_all.
    + eapply Forall_impl; [exact Hsizes|]. intros c Hc. simpl in Hc. lia.
    + intros _. eapply Forall_impl; [exact Hsizes|]. intros c Hc. simpl in Hc. lia.
    + intros n c Hc. rewrite (Hids n c Hc). f_equal.
Qed.

Lemma X24_fixed_size_chunks_tile_the_content_witness :
  ∃ chunks,
    FixedSize_chunk (mkOptions 3 2 0) 8 "abcdefgh" None None = Ok chunks ∧
    fold_right String.append "" (contents chunks) = "abcdefgh".
Proof.
  destruct (X24_fixed_size_chunks_tile_the_content (mkOptions 3 2 0) "abcdefgh" None 8
              eq_refl ltac:(simpl; lia) ltac:(simpl; lia)) as (chunks & Hchunk & Hcover & _).
  exists chunks. split; assumption.
Defined.

End ChunkingMore.

Section SemanticChunking.
Import Cancellation Chunking.

Lemma len_app a b : Str.len (a +:+ b) = Str.len a + Str.len b.
Proof.
  unfold Str.len. induction a as [|c a IH]; simpl; [reflexivity|].
  change (String.length (a +:+ b)) with (String.length (a +:+ b)) in *.
  unfold String.app in *. lia.
Qed.

Lemma app_assoc_string a b c : (a +:+ b) +:+ c = a +:+ (b +:+ c).
Proof.
  unfold String.app. induction a as [|x a IH]; simpl; [reflexivity|]. congruence.
Qed.

Lemma join_cons sep a l :
  l ≠ [] → Prompt.join sep (a :: l) = a +:+ sep +:+ Prompt.join sep l.
Proof. destruct l; [congruence|reflexivity]. Qed.

Lemma join_merge sep a u rest :
  Prompt.join sep (((a +:+ sep) +:+ u) :: rest) = Prompt.join sep (a :: u :: rest).
Proof.
  destruct rest as [|r rest].
  - simpl. apply app_assoc_string.
  - rewrite !join_cons by discriminate. rewrite !app_assoc_string. reflexivity.
Qed.

Lemma notBlank_len unit : notBlank unit = true → 0 < Str.len unit.
Proof.
  unfold notBlank, Str.len. destruct unit; simpl; [discriminate|lia].
Qed.

(** The loop over the units: the chunks it adds are runs of units joined
    by one space. *)
Lemma semanticLoop_spec content metadata maxChunkSize (P : string → Prop) :
  ∀ units currentChunk currentStartLine currentPosition chunkIndex chunks,
    Forall (fun unit => 0 < Str.len unit) units →
    (∀ unit, unit ∈ units → P unit) →
    (∀ a unit, P a → unit ∈ units → 0 < Str.len a →
       Str.len a + Str.len unit ≤ maxChunkSize → P ((a +:+ " ") +:+ unit)) →
    (Str.len currentChunk = 0 ∨ P currentChunk) →
    ∃ new,
      semanticLoop content metadata None maxChunkSize units currentChunk
        currentStartLine currentPosition chunkIndex chunks = chunks ++ new ∧
      Prompt.join " " (contents new)
        = Prompt.join " " ((if 0 <? Str.len currentChunk then [currentChunk] else [])
                           ++ units) ∧
      (0 < Str.len currentChunk ∨ units ≠ [] → new ≠ []) ∧
      Forall (fun chunk => 0 < Str.len (Chunking.content chunk) ∧ P (Chunking.content chunk))
        new ∧
      ∀ n chunk, nth_error new n = Some chunk →
        id chunk = generateChunkId (Chunking.content chunk) (chunkIndex + Z.of_nat n) metadata.
Proof.
  induction units as [|unit rest IH];
    intros currentChunk currentStartLine currentPosition chunkIndex chunks
      Hunits HP Hclosed Hcur; cbn [semanticLoop requested].
  - destruct (0 <? Str.len currentChunk) eqn:Hlen.
    + apply Z.ltb_lt in Hlen. eexists [_]. split; [reflexivity|].
      split; [reflexivity|]. split; [discriminate|]. split.
      * repeat constructor; simpl; [exact Hlen|]. destruct Hcur; [lia|assumption].
      * intros [|[|n]] c; try discriminate. intros [= <-]. simpl.
        rewrite Z.add_0_r. reflexivity.
    + exists []. rewrite app_nil_r. apply Z.ltb_ge in Hlen.
      split; [reflexivity|]. split; [reflexivity|].
      split; [intros [?|?]; [lia|congruence]|].
      split; [constructor|intros [|n] c; discriminate].
  - cbv zeta. apply Forall_cons in Hunits as [Hunit Hrest].
    assert (HPrest : ∀ u, u ∈ rest → P u) by (intros u Hu; apply HP; right; exact Hu).
    assert (Hclosed_rest : ∀ a u, P a → u ∈ rest → 0 < Str.len a →
              Str.len a + Str.len u ≤ maxChunkSize → P ((a +:+ " ") +:+ u)).
    { intros a u Ha Hu. apply Hclosed; [exact Ha|right; exact Hu]. }
    assert (HPunit : P unit) by (apply HP; left).
    destruct (0 <? Str.len currentChunk) eqn:Hlen; cbn [andb].
    + apply Z.ltb_lt in Hlen.
      assert (HPcur : P currentChunk) by (destruct Hcur; [lia|assumption]).
      destruct (maxChunkSize <? Str.len currentChunk + Str.len unit) eqn:Hfull.
      * change (0 <? Str.len "") with false. cbv iota.
        change ("" +:+ unit) with unit.
        destruct (IH unit (getLineNumberAtOffset content currentPosition)
                    (currentPosition + Str.len unit + 1) (chunkIndex + 1)
                    (chunks ++
                     [mkChunk (generateChunkId currentChunk chunkIndex metadata) currentChunk
                        (chunkMetadata currentStartLine
                           (getLineNumberAtOffset content currentPosition) metadata)])
                    Hrest HPrest Hclosed_rest (or_intror HPunit))
          as (new & -> & Hjoin & Hne & Hall & Hids).
        replace (0 <? Str.len unit) with true in Hjoin by (symmetry; apply Z.ltb_lt; lia).
        eexists (_ :: new). split; [rewrite <- app_assoc; reflexivity|].
        split; [|split; [discriminate|split]].
        -- cbn [contents map Chunking.content]. fold (contents new).
           rewrite join_cons.
           ++ rewrite Hjoin. reflexivity.
           ++ unfold contents. intros Habs. apply map_eq_nil in Habs.
              apply Hne; [left; lia|exact Habs].
        -- constructor; [|exact Hall]. simpl. auto.
        -- intros [|n] c Hc; simpl in Hc.
           ++ injection Hc as <-. simpl. rewrite Z.add_0_r. reflexivity.
           ++ rewrite (Hids n c Hc). f_equal. lia.
      * apply Z.ltb_ge in Hfull.
        replace (0 <? Str.len currentChunk) with true by (symmetry; apply Z.ltb_lt; lia).
        destruct (IH ((currentChunk +:+ " ") +:+ unit) currentStartLine
                    (currentPosition + Str.len unit + 1) chunkIndex chunks
                    Hrest HPrest Hclosed_rest)
          as (new & -> & Hjoin & Hne & Hall & Hids).
        { right. apply Hclosed; auto. left. }
        assert (Hpos : 0 < Str.len ((currentChunk +:+ " ") +:+ unit)).
        { rewrite !len_app. pose proof (len_nonneg unit). unfold Str.len at 2. simpl. lia. }
        replace (0 <? Str.len ((currentChunk +:+ " ") +:+ unit)) with true in Hjoin
          by (symmetry; apply Z.ltb_lt; exact Hpos).
        exists new. split; [reflexivity|].
        split; [|split; [intros _; apply Hne; left; exact Hpos|split; assumption]].
        rewrite Hjoin. simpl app. apply join_merge.
    + apply Z.ltb_ge in Hlen.
      assert (Hempty : currentChunk = "").
      { destruct currentChunk; [reflexivity|]. unfold Str.len in Hlen. simpl in Hlen. lia. }
      subst currentChunk. change (0 <? Str.len "") with false. cbv iota.
      change ("" +:+ unit) with unit.
      destruct (IH unit currentStartLine (currentPosition + Str.len unit + 1) chunkIndex
                  chunks Hrest HPrest Hclosed_rest (or_intror HPunit))
        as (new & -> & Hjoin & Hne & Hall & Hids).
      replace (0 <? Str.len unit) with true in Hjoin by (symmetry; apply Z.ltb_lt; lia).
      exists new. split; [reflexivity|]. split; [exact Hjoin|].
      split; [intros _; apply Hne; left; exact Hunit|split; assumption].
Qed.

(** X25: semantic chunking loses no unit and numbers its chunks.  With the
    default delimiter and a token that is not cancelled, [chunk] returns;
    the contents of its chunks, joined by single spaces, are the units of the
    content joined by single spaces, in order; no chunk is empty; a chunk
    made of several units is at most [maxChunkSize + 1] characters long (the
    joining space is not counted when a unit is added), a longer chunk is one
    unit; and the ids number the chunks from 0. *)
Theorem X25_semantic_chunks_keep_every_unit :
  ∀ options fuel content metadata,
    ∃ chunks,
      Semantic_chunk options fuel content metadata None = Ok chunks ∧
      Prompt.join " " (contents chunks) = Prompt.join " " (semanticUnits content) ∧
      Forall (fun chunk =>
                0 < Str.len (Chunking.content chunk) ∧
                (Str.len (Chunking.content chunk) ≤ maxChunkSize options + 1 ∨
                 Chunking.content chunk ∈ semanticUnits content))
             chunks ∧
      ∀ n chunk, nth_error chunks n = Some chunk →
        id chunk = generateChunkId (Chunking.content chunk) (Z.of_nat n) metadata.
Proof.
  intros options fuel content metadata. unfold Semantic_chunk. cbn [requested].
  destruct (length (semanticUnits content) =? 0)%nat eqn:Hnone.
  - apply Nat.eqb_eq, length_zero_iff_nil in Hnone. rewrite Hnone.
    exists []. split; [reflexivity|]. split; [reflexivity|].
    split; [constructor|intros [|n] c; discriminate].
  - destruct (semanticLoop_spec content metadata (maxChunkSize options)
                (fun s => Str.len s ≤ maxChunkSize options + 1 ∨ s ∈ semanticUnits content)
                (semanticUnits content) "" 0 0 0 [])
      as (new & Hloop & Hjoin & _ & Hall & Hids).
    + apply Forall_forall. intros unit Hunit. apply notBlank_len.
      unfold semanticUnits in Hunit. apply list_elem_of_In, filter_In in Hunit. tauto.
    + auto.
    + intros a unit _ _ Ha Hfit. left. rewrite !len_app. unfold Str.len at 2. simpl. lia.
    + left. reflexivity.
    + exists new. split; [rewrite Hloop; reflexivity|].
      split; [exact Hjoin|]. split; [exact Hall|exact Hids].
Qed.

End SemanticChunking.

(** ** The facade: prompts *)

Section FacadeMore.
Import Cancellation Chunking Embeddings Orchestrator.

(** X26: the facade's prompts never carry code context.  [buildPrompt]
    takes its snippets from [search], which in every state that the facade
    reaches finds nothing: whenever [buildPrompt] returns, the prompt was
    built from the query and no snippet, and both snippet counts of the
    result are 0. *)
Theorem X26_facade_prompt_has_no_snippets :
  ∀ v query options token r,
    reachable v →
    buildPrompt query options token v = Ok r →
    Prompt.includedSnippets (Prompt.result_metadata r) = 0 ∧
    Prompt.totalSnippets (Prompt.result_metadata r) = 0 ∧
    (r = cancelledPrompt query ∨
     r = Prompt.buildPrompt (promptBuilder v)
           (Prompt.mkContext query [] (systemInfo options) (modelCapabilities options))).
Proof.
  intros v query options token r Hreach. unfold buildPrompt.
  destruct (requested token) eqn:Htoken; [intros [= <-]; auto|].
  destruct (search query _ token v) as [results| |] eqn:Hsearch; cbn [bind];
    try discriminate.
  apply search_empty_engine in Hsearch; [|apply reachable_engine_empty, Hreach].
  subst results. intros [= <-]. simpl map. auto.
Qed.

Lemma exampleFacade_buildPrompt :
  buildPrompt "why" noBuildPromptOptions None exampleFacade
  = Ok (Prompt.buildPrompt (promptBuilder exampleFacade)
          (Prompt.mkContext "why" [] None None)).
Proof.
  unfold buildPrompt, search, Search.search, computeEmbeddings. cbn [requested].
  change (providers (embeddingService exampleFacade) !! defaultProviderId exampleFacade)
    with (providers Search.axisService !! "default").
  rewrite axisService_default. reflexivity.
Qed.

Lemma X26_facade_prompt_has_no_snippets_witness :
  Prompt.includedSnippets
    (Prompt.result_metadata
       (Prompt.buildPrompt (promptBuilder exampleFacade)
          (Prompt.mkContext "why" [] None None))) = 0.
Proof.
  exact (proj1 (X26_facade_prompt_has_no_snippets exampleFacade "why"
                  noBuildPromptOptions None _ exampleFacade_reachable
                  exampleFacade_buildPrompt)).
Defined.

Lemma storeChunks_stores providerId provider chunks :
  ∀ v stored v',
    providers (embeddingService v) !! providerId = Some provider →
    storeChunks providerId None chunks v = Ok (stored, v') →
    NoDup (map Chunking.id chunks) →
    stored = true ∧
    embeddingService v' = embeddingService v ∧
    defaultProviderId v' = defaultProviderId v ∧
    (∀ chunk, chunk ∈ chunks →
       Storage.retrieveDocument (Chunking.id chunk) (storage v')
         = Some (Storage.mkStored (Chunking.content chunk)
                   (head (provider_computeEmbeddings provider [Chunking.content chunk]))
                   (Chunking.metadata chunk))) ∧
    (∀ k, k ∉ map Chunking.id chunks →
       Storage.retrieveDocument k (storage v') = Storage.retrieveDocument k (storage v)).
Proof.
  induction chunks as [|chunk chunks IH]; intros v stored v' Hprovider; simpl.
  - intros [= <- <-] _. repeat split; auto. intros chunk Hin. inversion Hin.
  - unfold computeEmbeddings. cbn [requested]. rewrite Hprovider. cbn [bind].
    intros Hrest Hnodup. apply NoDup_cons in Hnodup as [Hfresh Hnodup].
    apply IH in Hrest as (Hstored & Hservice & Hdefault & Hall & Hkeep);
      [|exact Hprovider|exact Hnodup].
    cbn [embeddingService defaultProviderId storage] in *.
    split; [exact Hstored|]. split; [exact Hservice|]. split; [exact Hdefault|]. split.
    + intros c Hin. apply elem_of_cons in Hin as [->|Hin]; [|auto].
      rewrite Hkeep by exact Hfresh.
      unfold Storage.retrieveDocument, Storage.storeDocument. cbn [Storage.documents].
      apply JsMap_get_set_eq.
    + intros k Hk. apply not_elem_of_cons in Hk as [Hne Hk]. rewrite Hkeep by exact Hk.
      unfold Storage.retrieveDocument, Storage.storeDocument. cbn [Storage.documents].
      apply JsMap_get_set_ne. exact Hne.
Qed.

(** X27: what [indexFile] leaves in the store.  When [indexFile] returns
    chunks with distinct ids, each chunk is retrieved from the store under
    its id with its content, its metadata and the first vector that the
    chosen provider (the one named in the options, else the default one)
    returns for its content; what the store holds under every other id is as
    before, and the providers and the default provider are unchanged. *)
Theorem X27_indexFile_stores_each_chunk :
  ∀ v fuel now filePath content options chunks v' provider,
    providers (embeddingService v) !! selectedProvider options v = Some provider →
    indexFile fuel now filePath content options None v = Ok (chunks, v') →
    NoDup (map Chunking.id chunks) →
    (∀ chunk, chunk ∈ chunks →
       Storage.retrieveDocument (Chunking.id chunk) (storage v')
         = Some (Storage.mkStored (Chunking.content chunk)
                   (head (provider_computeEmbeddings provider [Chunking.content chunk]))
                   (Chunking.metadata chunk))) ∧
    (∀ k, k ∉ map Chunking.id chunks →
       Storage.retrieveDocument k (storage v') = Storage.retrieveDocument k (storage v)) ∧
    embeddingService v' = embeddingService v ∧
    defaultProviderId v' = defaultProviderId v.
Proof.
  intros v fuel now filePath content options chunks v' provider Hprovider.
  unfold indexFile. cbn [requested].
  destruct (strategyFor options v) as [strategy| |]; cbn [bind]; try discriminate.
  destruct (strategy fuel content _ None) as [made| |]; cbn [bind]; try discriminate.
  unfold getProvider. rewrite Hprovider.
  destruct (storeChunks _ None made v) as [[stored v'']| |] eqn:Hstore; cbn [bind];
    try discriminate.
  cbn [fst snd]. intros Hresult Hnodup.
  assert (Hmade : stored = true → chunks = made ∧ v' = v'').
  { intros ->. injection Hresult as <- <-. auto. }
  destruct made as [|first rest].
  - simpl in Hstore. injection Hstore as <- <-. destruct (Hmade eq_refl) as [-> ->].
    repeat split; auto. intros chunk Hin. inversion Hin.
  - assert (Hstored : stored = true).
    { simpl in Hstore. unfold computeEmbeddings in Hstore. cbn [requested] in Hstore.
      rewrite Hprovider in Hstore. cbn [bind] in Hstore.
      clear -Hstore Hprovider. revert Hstore.
      generalize (mkVoidIndexing (embeddingService v) (semanticSearch v)
                    (chunkingStrategies v) (promptBuilder v)
                    (Storage.storeDocument (Chunking.id first) (Chunking.content first)
                       (head (provider_computeEmbeddings provider [Chunking.content first]))
                       (Chunking.metadata first) (storage v))
                    (defaultProviderId v)).
      intros w. revert w stored v''.
      induction rest as [|c rest IH]; intros w stored v''; simpl.
      - intros [= <- _]. reflexivity.
      - unfold computeEmbeddings. cbn [requested].
        destruct (providers (embeddingService w) !! selectedProvider options v);
          cbn [bind]; [|discriminate].
        apply IH. }
    destruct (Hmade Hstored) as [-> ->]. subst stored.
    destruct (storeChunks_stores _ provider _ _ _ _ Hprovider Hstore Hnodup)
      as (_ & Hservice & Hdefault & Hall & Hkeep).
    auto.
Qed.

Lemma X27_indexFile_stores_each_chunk_witness :
  ∃ metadata,
    Storage.retrieveDocument "chunk-a_ts-0-66f18c8" (storage (snd exampleIndexed))
    = Some (Storage.mkStored "query" (Some [1; 0]%R) metadata).
Proof.
  destruct (X27_indexFile_stores_each_chunk exampleFacade 1 "2024-01-01T00:00:00.000Z"
              "src/a.ts" "query" noIndexingOptions (fst exampleIndexed) (snd exampleIndexed)
              Search.axisProvider axisService_default exampleIndexed_eq)
    as (Hall & _).
  - apply NoDup_singleton.
  - eexists. refine (Hall (mkChunk "chunk-a_ts-0-66f18c8" "query" _) _).
    apply list_elem_of_In. left. reflexivity.
Defined.

End FacadeMore.

(** ** The score functions of the ranker *)

Section RankerScores.
Import Cancellation Ranking.

Lemma splitSpaces_nonempty s : ∀ inRun cur, (1 ≤ length (splitSpaces inRun cur s))%nat.
Proof.
  induction s as [|c s IH]; intros inRun cur; simpl; [lia|].
  destruct (Str.isSpace c); [destruct inRun|]; simpl; auto with lia.
Qed.

Lemma calculateTfIdfScore_range text query :
  (0 <= calculateTfIdfScore text query <= 1)%R.
Proof.
  unfold calculateTfIdfScore. cbv zeta.
  set (textTerms := lowerTerms text).
  assert (Hlen : (0 < IZR (Z.of_nat (length textTerms)))%R).
  { apply IZR_lt. pose proof (splitSpaces_nonempty
      (list_ascii_of_string (Str.toLowerCase text)) false []).
    unfold textTerms, lowerTerms. lia. }
  destruct (countMapFrom_spec textTerms) as [Hpos _].
  assert (Hfold : ∀ terms score, (0 <= score)%R →
            (0 <= fold_left
                    (fun score term =>
                       match JsMap.get term (TfIdf.countMapFrom textTerms) with
                       | Some n => (score + IZR n / IZR (Z.of_nat (length textTerms)))%R
                       | None => score
                       end) terms score)%R).
  { induction terms as [|term terms IH]; intros score Hscore; simpl; [exact Hscore|].
    apply IH. destruct (JsMap.get term (TfIdf.countMapFrom textTerms)) as [n|] eqn:E;
      [|exact Hscore].
    apply Hpos in E. assert (0 < IZR n)%R by (apply IZR_lt; lia).
    assert (0 < IZR n / IZR (Z.of_nat (length textTerms)))%R
      by (apply Rdiv_lt_0_compat; assumption).
    lra. }
  specialize (Hfold (lowerTerms query) 0%R ltac:(lra)).
  split; [apply Rmin_glb; [lra|exact Hfold]|apply Rmin_l].
Qed.

Lemma calculateFuzzyScore_range text query :
  (0 <= calculateFuzzyScore text query <= 1)%R.
Proof.
  unfold calculateFuzzyScore. cbv zeta.
  destruct (includes _ _); [lra|].
  set (queryTerms := splitSpaces false [] _).
  assert (Hlen : (1 ≤ length queryTerms)%nat) by apply splitSpaces_nonempty.
  assert (Hfold : ∀ terms matched, 0 ≤ matched →
            matched ≤ fold_left
                        (fun matched term =>
                           if includes (Str.toLowerCase text) term
                           then matched + 1 else matched) terms matched
                    ≤ matched + Z.of_nat (length terms)).
  { induction terms as [|term terms IH]; intros matched Hm; simpl; [lia|].
    destruct (includes (Str.toLowerCase text) term).
    - specialize (IH (matched + 1) ltac:(lia)). lia.
    - specialize (IH matched Hm). lia. }
  specialize (Hfold queryTerms 0 ltac:(lia)).
  set (matchedTerms := fold_left _ queryTerms 0) in *.
  assert (0 < IZR (Z.of_nat (length queryTerms)))%R by (apply IZR_lt; lia).
  assert (0 <= IZR matchedTerms)%R by (apply IZR_le; lia).
  assert (IZR matchedTerms <= IZR (Z.of_nat (length queryTerms)))%R by (apply IZR_le; lia).
  split.
  - apply Rmult_le_pos; [assumption|]. apply Rlt_le, Rinv_0_lt_compat. assumption.
  - apply Rmult_le_reg_r with (IZR (Z.of_nat (length queryTerms))); [assumption|].
    unfold Rdiv. rewrite Rmult_assoc, Rinv_l by lra. lra.
Qed.

Lemma calculateSemanticScore_range text query :
  (0 <= calculateSemanticScore text query <= 1)%R.
Proof.
  unfold calculateSemanticScore. cbv zeta.
  set (queryTerms := list_to_set (lowerTerms query) : gset string).
  set (textTerms := list_to_set (lowerTerms text) : gset string).
  assert (Hsub : (size (filter (fun x => x ∈ textTerms) queryTerms)
                  ≤ size (queryTerms ∪ textTerms))%nat).
  { apply subseteq_size. intros x Hx. apply elem_of_filter in Hx as [_ Hx].
    apply elem_of_union. left. exact Hx. }
  assert (Hpos : (1 ≤ size (queryTerms ∪ textTerms))%nat).
  { assert (Hex : ∃ term, term ∈ lowerTerms query).
    { pose proof (splitSpaces_nonempty
        (list_ascii_of_string (Str.toLowerCase query)) false []) as Hne.
      unfold lowerTerms. destruct (splitSpaces false [] _) as [|t ts];
        [simpl in Hne; lia|]. exists t. left. }
    destruct Hex as [term Hterm].
    assert (Hin : term ∈ queryTerms ∪ textTerms).
    { apply elem_of_union. left. apply elem_of_list_to_set. exact Hterm. }
    destruct (size (queryTerms ∪ textTerms)) eqn:Hsize; [|lia].
    apply size_empty_inv in Hsize. rewrite Hsize in Hin.
    apply elem_of_empty in Hin. tauto. }
  assert (0 < IZR (Z.of_nat (size (queryTerms ∪ textTerms))))%R by (apply IZR_lt; lia).
  assert (0 <= IZR (Z.of_nat (size (filter (fun x => x ∈ textTerms) queryTerms))))%R
    by (apply IZR_le; lia).
  assert (IZR (Z.of_nat (size (filter (fun x => x ∈ textTerms) queryTerms)))
          <= IZR (Z.of_nat (size (queryTerms ∪ textTerms))))%R by (apply IZR_le; lia).
  split.
  - apply Rmult_le_pos; [assumption|]. apply Rlt_le, Rinv_0_lt_compat. assumption.
  - apply Rmult_le_reg_r with (IZR (Z.of_nat (size (queryTerms ∪ textTerms))));
      [assumption|].
    unfold Rdiv. rewrite Rmult_assoc, Rinv_l by lra. lra.
Qed.

Lemma getNodeTypeProximityScore_range nodeType :
  (4 / 10 <= getNodeTypeProximityScore nodeType <= 1)%R.
Proof.
  unfold getNodeTypeProximityScore.
  destruct (existsb _ highValueTypes); [lra|].
  destruct (existsb _ mediumValueTypes); lra.
Qed.

Lemma calculateASTRelevance_range node query :
  (4 / 10 <= calculateASTRelevance node query <= 1)%R.
Proof.
  unfold calculateASTRelevance. cbv zeta.
  pose proof (getNodeTypeProximityScore_range (node_type node)) as Htype.
  assert (Hvalue : (0 <= match node_value node with
                         | Some v => if String.eqb v "" then 0%R
                                     else calculateFuzzyScore v query
                         | None => 0%R
                         end <= 1)%R).
  { destruct (node_value node) as [v|]; [|lra].
    destruct (String.eqb v ""); [lra|apply calculateFuzzyScore_range]. }
  split.
  - eapply Rle_trans; [apply Htype|apply Rmax_l].
  - apply Rmax_lub; lra.
Qed.

(** X28: every ranking factor is a number between 0 and 1.  For a code
    snippet whose relevance lies between 0 and 1, and for every AST node,
    each of the five factors that the ranker computes lies between 0 and 1,
    and the weighted score under the default weights is not negative; for
    an AST node the two factors taken from the node type are at least 0.4. *)
Theorem X28_ranking_factors_in_unit_interval :
  (∀ snippet query,
     (0 <= relevance snippet <= 1)%R →
     let f := scoreCodeSnippet snippet query in
     Forall (fun x => (0 <= x <= 1)%R)
       [tfIdfScore f; fuzzyScore f; proximityScore f; semanticScore f; astRelevance f] ∧
     (0 <= calculateWeightedScore defaultOptions f)%R) ∧
  (∀ node query,
     let f := scoreASTNode node query in
     Forall (fun x => (0 <= x <= 1)%R)
       [tfIdfScore f; fuzzyScore f; proximityScore f; semanticScore f; astRelevance f] ∧
     (4 / 10 <= proximityScore f)%R ∧ (4 / 10 <= astRelevance f)%R ∧
     (0 <= calculateWeightedScore defaultOptions f)%R).
Proof.
  split.
  - intros snippet query Hrel. cbv zeta.
    pose proof (calculateTfIdfScore_range (content snippet) query).
    pose proof (calculateFuzzyScore_range (content snippet) query).
    pose proof (calculateSemanticScore_range (content snippet) query).
    split; [rewrite !Forall_cons; repeat split; try apply Forall_nil; simpl; lra|].
    unfold calculateWeightedScore, scoreCodeSnippet, defaultOptions. simpl. lra.
  - intros node query. cbv zeta.
    pose proof (calculateTfIdfScore_range
                  (Prompt.orString (node_value node) (node_type node)) query).
    pose proof (calculateFuzzyScore_range
                  (Prompt.orString (node_value node) (node_type node)) query).
    pose proof (calculateSemanticScore_range
                  (Prompt.orString (node_value node) (node_type node)) query).
    pose proof (getNodeTypeProximityScore_range (node_type node)).
    pose proof (calculateASTRelevance_range node query).
    split; [rewrite !Forall_cons; repeat split; try apply Forall_nil; simpl; lra|].
    split; [simpl; lra|]. split; [simpl; lra|].
    unfold calculateWeightedScore, scoreASTNode, defaultOptions. simpl. lra.
Qed.

Lemma X28_ranking_factors_in_unit_interval_witness :
  Forall (fun x => (0 <= x <= 1)%R)
    (let f := scoreCodeSnippet (mkCodeSnippet "let x" 0 0 1 Exact) "x" in
     [tfIdfScore f; fuzzyScore f; proximityScore f; semanticScore f; astRelevance f]).
Proof.
  refine (proj1 (proj1 X28_ranking_factors_in_unit_interval
                   (mkCodeSnippet "let x" 0 0 1 Exact) "x" _)).
  simpl. lra.
Defined.

End RankerScores.

(** ** Local context: what is gathered, and what the cache remembers *)

Section LocalContextFacts.
Import Cancellation Ranking LocalContext.

Lemma findParent_range model currentLine currentIndentation n :
  (Z.of_nat n ≤ currentLine) →
  Forall (fun s => 0 ≤ startLine s ∧ startLine s < endLine s ∧ endLine s = currentLine ∧
                   relevance s = (9 / 10)%R ∧ type s = Parent)
    (findParent model currentLine currentIndentation n).
Proof.
  induction n as [|i IH]; intros Hn; simpl; [constructor|].
  destruct (_ && _).
  - repeat constructor; simpl; lia.
  - apply IH. lia.
Qed.

(** Every snippet that is gathered around a position inside the model. *)
Lemma gathered_snippets model pos above below token :
  0 ≤ line pos < getLineCount model →
  Forall (fun s => 0 ≤ startLine s ≤ endLine s ∧ endLine s < getLineCount model ∧
                   (relevance s <= 9 / 10)%R ∧
                   (type s = Nearby → endLine s < line pos ∨ line pos < startLine s))
    (gatherNearbySnippets model pos above below token
     ++ gatherParentSnippets model pos token).
Proof.
  intros Hline. apply Forall_app. split.
  - unfold gatherNearbySnippets. destruct (requested token); [constructor|]. cbv zeta.
    apply Forall_app. split.
    + destruct (Z.max 0 (line pos - above) <? line pos) eqn:E; [|constructor].
      apply Z.ltb_lt in E. repeat constructor; simpl; try lia; lra.
    + destruct (line pos <? Z.min (getLineCount model - 1) (line pos + below)) eqn:E;
        [|constructor].
      apply Z.ltb_lt in E. repeat constructor; simpl; try lia; lra.
  - unfold gatherParentSnippets. destruct (requested token); [constructor|]. cbv zeta.
    eapply Forall_impl; [apply findParent_range; lia|].
    intros s (H0 & Hlt & Hend & Hrel & Hparent). simpl.
    split; [lia|]. split; [lia|]. split; [lra|].
    intros Htype. congruence.
Qed.

(** A first call for a position on a line of the model. *)
Lemma getAllContextSnippets_fresh :
  ∀ model pos token g,
    snippetCache g !! getCacheKey model pos = None →
    0 ≤ line pos < getLineCount model →
    1 ≤ maxSnippets (options g) →
    let result := fst (getAllContextSnippets model pos token g) in
    let g' := snd (getAllContextSnippets model pos token g) in
    (∃ rest,
       result = mkCodeSnippet (getLineContent model (line pos + 1)) (line pos) (line pos)
                  1 Exact :: rest) ∧
    StronglySorted (fun a b => (relevance a >= relevance b)%R) result ∧
    (length result ≤ Z.to_nat (maxSnippets (options g)))%nat ∧
    Forall (fun s => 0 ≤ startLine s ≤ endLine s ∧ endLine s < getLineCount model ∧
                     (type s = Nearby → endLine s < line pos ∨ line pos < startLine s))
      result ∧
    getCachedSnippets model pos g' = result.
Proof.
  intros model pos token g Hfresh Hline Hmax. cbv zeta.
  unfold getAllContextSnippets, getCachedSnippets. rewrite Hfresh.
  cbn [default length Nat.ltb Nat.leb fst snd snippetCache].
  unfold getExactPositionSnippet.
  replace ((line pos <? 0) || (getLineCount model <=? line pos)) with false
    by (symmetry; apply orb_false_iff; split; [apply Z.ltb_ge|apply Z.leb_gt]; lia).
  set (exact := mkCodeSnippet (getLineContent model (line pos + 1)) (line pos) (line pos)
                  1 Exact).
  pose proof (gathered_snippets model pos (nearbyLinesAbove (options g))
                (nearbyLinesBelow (options g)) token Hline) as Hothers.
  set (others := gatherNearbySnippets model pos _ _ token
                 ++ gatherParentSnippets model pos token) in *.
  change ([exact] ++ others) with (exact :: others).
  assert (Hsort : Arr.sort (fun a b => (relevance b - relevance a)%R) (exact :: others)
                  = exact :: Arr.sort (fun a b => (relevance b - relevance a)%R) others).
  { change (Arr.sort (fun a b => (relevance b - relevance a)%R) (exact :: others))
      with (Arr.insert (fun a b => (relevance b - relevance a)%R) exact
              (Arr.sort (fun a b => (relevance b - relevance a)%R) others)).
    apply (insert_head relevance). apply Forall_forall. intros y Hy.
    rewrite (sort_perm relevance others) in Hy.
    rewrite Forall_forall in Hothers. destruct (Hothers y Hy) as (_ & _ & Hrel & _).
    simpl. lra. }
  set (sorted := Arr.sort _ (exact :: others)) in *.
  assert (Hsub : Arr.slice0 sorted (maxSnippets (options g)) ⊆+ exact :: others).
  { etransitivity; [apply sublist_submseteq, slice0_sublist|].
    unfold sorted. rewrite (sort_perm relevance (exact :: others)). reflexivity. }
  split; [|split; [|split; [|split]]].
  - rewrite Hsort. unfold Arr.slice0.
    destruct (maxSnippets (options g) <? 0) eqn:En; [apply Z.ltb_lt in En; lia|].
    destruct (Z.to_nat (maxSnippets (options g))) as [|m] eqn:Em; [lia|].
    simpl. eauto.
  - eapply sorted_sublist; [apply slice0_sublist|]. apply (sort_descending relevance).
  - apply slice0_length. lia.
  - apply Forall_forall. intros s Hs.
    apply (elem_of_submseteq _ _ _ Hs) in Hsub.
    apply elem_of_cons in Hsub as [->|Hin].
    + simpl. split; [lia|]. split; [lia|]. discriminate.
    + rewrite Forall_forall in Hothers. destruct (Hothers s Hin) as (H1 & H2 & _ & H3).
      auto.
  - rewrite lookup_insert_eq. reflexivity.
Qed.

(** X29: what [getAllContextSnippets] gathers.  For a position on a line
    of the model, with nothing cached for it and [maxSnippets >= 1], the
    result starts with the line itself (relevance 1), is in descending order
    of relevance and has at most [maxSnippets] entries; every snippet spans
    lines of the model, first line before or at the last; the nearby
    snippets stop before the line or start after it; and the result is what
    the cache then holds for the position. *)
Theorem X29_gathered_snippets_are_ordered_and_in_range :
  ∀ model pos token g,
    snippetCache g !! getCacheKey model pos = None →
    0 ≤ line pos < getLineCount model →
    1 ≤ maxSnippets (options g) →
    let result := fst (getAllContextSnippets model pos token g) in
    let g' := snd (getAllContextSnippets model pos token g) in
    (∃ rest,
       result = mkCodeSnippet (getLineContent model (line pos + 1)) (line pos) (line pos)
                  1 Exact :: rest) ∧
    StronglySorted (fun a b => (relevance a >= relevance b)%R) result ∧
    (length result ≤ Z.to_nat (maxSnippets (options g)))%nat ∧
    Forall (fun s => 0 ≤ startLine s ≤ endLine s ∧ endLine s < getLineCount model ∧
                     (type s = Nearby → endLine s < line pos ∨ line pos < startLine s))
      result ∧
    getCachedSnippets model pos g' = result.
Proof. exact getAllContextSnippets_fresh. Qed.

(** X30: the cache does not know which model it was filled from.  The
    cache key is made of the language id and the position only.  Once
    [getAllContextSnippets] has returned snippets for a position, the same
    call for any model of the same language (the same file after an edit, or
    another file) returns those snippets again and changes nothing, and
    [updateCache] does not refresh them. *)
Theorem X30_cache_ignores_the_model :
  ∀ model model' pos token token' g,
    getLanguageId model' = getLanguageId model →
    fst (getAllContextSnippets model pos token g) ≠ [] →
    let result := fst (getAllContextSnippets model pos token g) in
    let g' := snd (getAllContextSnippets model pos token g) in
    getAllContextSnippets model' pos token' g' = (result, g') ∧
    getCachedSnippets model' pos g' = result ∧
    updateCache model' pos token' g' = g'.
Proof.
  intros model model' pos token token' g Hlang Hsome. cbv zeta.
  assert (Hkey : getCacheKey model' pos = getCacheKey model pos).
  { unfold getCacheKey. rewrite Hlang. reflexivity. }
  assert (Hcached : snippetCache (snd (getAllContextSnippets model pos token g))
                      !! getCacheKey model pos
                    = Some (fst (getAllContextSnippets model pos token g))).
  { revert Hsome. unfold getAllContextSnippets, getCachedSnippets.
    destruct (snippetCache g !! getCacheKey model pos) as [cached|] eqn:E;
      cbn [default].
    - destruct cached as [|first rest]; cbn [length Nat.ltb Nat.leb fst snd snippetCache].
      + intros _. apply lookup_insert_eq.
      + intros _. exact E.
    - cbn [length Nat.ltb Nat.leb fst snd snippetCache]. intros _. apply lookup_insert_eq. }
  set (result := fst (getAllContextSnippets model pos token g)) in *.
  set (g' := snd (getAllContextSnippets model pos token g)) in *.
  assert (Hget : getCachedSnippets model' pos g' = result).
  { unfold getCachedSnippets. rewrite Hkey, Hcached. reflexivity. }
  split; [|split; [exact Hget|]].
  - unfold getAllContextSnippets. rewrite Hget.
    destruct result; [congruence|]. reflexivity.
  - unfold updateCache. rewrite Hkey, Hcached. reflexivity.
Qed.

End LocalContextFacts.

Lemma X29_gathered_snippets_are_ordered_and_in_range_witness :
  ∃ rest,
    fst (LocalContext.getAllContextSnippets
           (LocalContext.mkTextModel (fun _ => "x") 3 "ts") (LocalContext.mkPosition 1 0)
           None (LocalContext.newLocalContextGatherer LocalContext.defaultGatheringOptions))
    = Ranking.mkCodeSnippet "x" 1 1 1 Ranking.Exact :: rest.
Proof.
  refine (proj1 (X29_gathered_snippets_are_ordered_and_in_range
                   (LocalContext.mkTextModel (fun _ => "x") 3 "ts")
                   (LocalContext.mkPosition 1 0) None
                   (LocalContext.newLocalContextGatherer
                      LocalContext.defaultGatheringOptions) _ _ _)).
  - apply lookup_empty.
  - simpl. lia.
  - simpl. lia.
Defined.

Lemma X30_cache_ignores_the_model_witness :
  LocalContext.getCachedSnippets
    (LocalContext.mkTextModel (fun _ => "y") 9 "ts") (LocalContext.mkPosition 1 0)
    (snd (LocalContext.getAllContextSnippets
            (LocalContext.mkTextModel (fun _ => "x") 3 "ts") (LocalContext.mkPosition 1 0)
            None
            (LocalContext.newLocalContextGatherer LocalContext.defaultGatheringOptions)))
  = fst (LocalContext.getAllContextSnippets
           (LocalContext.mkTextModel (fun _ => "x") 3 "ts") (LocalContext.mkPosition 1 0)
           None (LocalContext.newLocalContextGatherer LocalContext.defaultGatheringOptions)).
Proof.
  refine (proj1 (proj2 (X30_cache_ignores_the_model
                          (LocalContext.mkTextModel (fun _ => "x") 3 "ts")
                          (LocalContext.mkTextModel (fun _ => "y") 9 "ts")
                          (LocalContext.mkPosition 1 0) None None
                          (LocalContext.newLocalContextGatherer
                             LocalContext.defaultGatheringOptions) eq_refl _))).
  destruct (getAllContextSnippets_fresh
              (LocalContext.mkTextModel (fun _ => "x") 3 "ts")
              (LocalContext.mkPosition 1 0) None
              (LocalContext.newLocalContextGatherer LocalContext.defaultGatheringOptions)
              (lookup_empty _) ltac:(simpl; lia) ltac:(simpl; lia)) as [[rest Hrest] _].
  cbv zeta in Hrest. rewrite Hrest. discriminate.
Defined.
